(** * Dust: a shallow embedding of the particle engine

    The development follows the JavaScript components of the repository:
    [Speck] (dust-speck.js, one particle), [Breeze] (dust-breeze.js, a
    wind-like force field), [Music] (dust-music.js, the frequency groups and
    their callbacks), [Cloud] (dust.js, the particle pool, its wiring to the
    music and its animation pass) and [Renderer] (dust-render-2d.js, the
    colour of a speck).  The canvas, the audio graph and the controls are
    not part of it.

    Conventions of the embedding.
    - A JavaScript Number is an exact rational ([Q]): no rounding, no NaN and
      no Infinity.  Counters and array indices are integers ([Z]).  A
      division by zero, which JavaScript answers with NaN or Infinity, is 0
      in [Q]; no statement below depends on the value of a quotient whose
      divisor is zero.
    - [Math.random] and [new Date().getTime()] are read from two oracles
      carried by a [World]; every function that draws from them threads the
      world explicitly, in the order in which the source evaluates the calls.
    - [Math.sqrt], [Math.exp], [Math.pow] and [Math.PI] belong to the host and
      are taken as a parameter ([Math]).
    - An uncaught [TypeError] is the outcome [TypeError]: the call never
      returns, and, since the animation callback is the only caller, nothing
      runs after it.
    - Loops that the source writes with [for] are fixpoints on a fuel
      argument; running out of fuel is the outcome [OutOfFuel], which the
      lemmas of section "Termination" exclude.
    - [Speck.reset] is embedded twice: over values, for the pool, and over a
      store of objects ([Store]), for what it does to the object that the
      caller passes.
    - The frequency data of a frame, a [Uint8Array], is a list of bytes; the
      callbacks of the music are functions on the state that they close
      over in the source, the cloud and the world.
    - In [Renderer], where the source computes with [undefined] and [NaN],
      a channel is an [option Q] and [None] stands for both.
    - [Sample] holds a host and inputs on which the embedding is run. *)

From Stdlib Require Import ZArith QArith Qround Qabs Qminmax Lia Lqa Ascii.
From stdpp Require Import gmap strings list pretty.

Local Open Scope Q_scope.

(** ** Numbers *)

Definition Qltb (a b : Q) : bool := (Qnum a * QDen b <? Qnum b * QDen a)%Z.

Infix "<?" := Qltb : Q_scope.
Infix "<=?" := Qle_bool : Q_scope.

(** [ToNumber] of a value that may be [null]: [null] counts as 0. *)
Definition ToNumber (v : option Q) : Q := default 0 v.

(** An array index given as a Number: only a non-negative integer names an
    element, [a[0.5]] and [a[-1]] are [undefined]. *)
Definition index_of (q : Q) : option nat :=
  let r := Qred q in
  if ((Z.pos (Qden r) =? 1) && (0 <=? Qnum r))%Z then Some (Z.to_nat (Qnum r)) else None.

(** [a[i]] for an integer counter [i]. *)
Definition lookupZ {A : Type} (l : list A) (i : Z) : option A :=
  if (i <? 0)%Z then None else l !! Z.to_nat i.

(** ** Host: Math, randomness, wall clock *)

Record Math := {
  Math_sqrt : Q -> Q;
  Math_exp : Q -> Q;
  Math_pow : Q -> Q -> Q;
  Math_PI : Q
}.


Record World := {
  seed : nat -> Q;      (* the successive results of Math.random() *)
  draws : nat;          (* how many have been consumed *)
  clock : nat -> Z;     (* the successive readings of the clock, in ms *)
  reads : nat
}.

Definition Math_random (w : World) : Q * World :=
  (seed w (draws w),
   {| seed := seed w; draws := S (draws w); clock := clock w; reads := reads w |}).

Definition Date_getTime (w : World) : Z * World :=
  (clock w (reads w),
   {| seed := seed w; draws := draws w; clock := clock w; reads := S (reads w) |}).

(** [Math.random()] returns a number in [0, 1). *)
Definition unit_interval (w : World) : Prop :=
  forall n, 0 <= seed w n /\ seed w n < 1.

(** ** Outcomes *)

Inductive outcome (A : Type) : Type :=
| Done (a : A)
| TypeError
| OutOfFuel.
Arguments Done {A} a.
Arguments TypeError {A}.
Arguments OutOfFuel {A}.

#[global] Instance outcome_bind : MBind outcome := fun A B k o =>
  match o with
  | Done a => k a
  | TypeError => TypeError
  | OutOfFuel => OutOfFuel
  end.

#[global] Instance outcome_ret : MRet outcome := fun A a => Done a.

(** ** Vectors *)

Module Vec.
(** [{x: .., y: .., z: ..}] *)
Record t := mk { x : Q; y : Q; z : Q }.
End Vec.

Module Vec2.
(** [{x: .., y: ..}], the direct and back forces *)
Record t := mk { x : Q; y : Q }.
End Vec2.

(** ** Speck (dust-speck.js) *)

Module Speck.

(** [basics], without the constants that the renderer alone reads *)
Definition minLife : Q := 3.
Definition maxLife : Q := 5.
Definition minDensity : Q := 2 # 10.
Definition maxDensity : Q := 1.
Definition minWeight : Q := 5 # 10.
Definition maxWeight : Q := 5.
Definition radiusScale : Q := 10.
Definition fallFactor : Q := 700.
Definition startInertiaFactor : Q := 10.
Definition inertiaFallback : Q := 5 # 10.
Definition flashTime : Q := 4 # 10.
Definition maxColorMagnitude : Q := 160.
Definition waveLag : Q := 45 # 100.
Definition wavePrecision : Q := 1 / 60.

(** [defaults] *)
Definition default_color : string := "#a74599".

(** [attributes] after a reset.  [position] is present only when the
    options of the reset carried one; [flashLifePart] and
    [colorSaturation] are absent until [fly] or [color] write them. *)
Record Attributes := {
  position : option Vec.t;
  color : string;
  life : Q;
  lifeLeft : Q;
  flashAngle : Q;
  flashRotateAngle : Q;
  wieght : Q;
  density : Q;
  radius : Q;
  flashLifePart : option Q;
  colorSaturation : option Q
}.

Record WavePiece := { time : Q; power : Vec2.t }.

Record Data := {
  attributes : Attributes;
  inertia : Vec.t;
  force : Vec.t;
  gravity : Q;
  wave : list WavePiece;
  start : Z
}.

(** A speck as [new Dust.Speck()] leaves it ([Blank]: [initialize] does
    nothing without options, so [attributes], [inertia] and [force] are the
    prototype's empty objects and [wave] is [null]), or after at least one
    [reset]. *)
Inductive t := Blank | Init (d : Data).

(** The options object of [reset], as the pool builds it. *)
Record Options := {
  opt_position : option Vec.t;
  opt_inertia : option Vec.t;
  opt_color : option string
}.

Definition set_attributes (a : Attributes) (d : Data) : Data :=
  {| attributes := a; inertia := inertia d; force := force d;
     gravity := gravity d; wave := wave d; start := start d |}.

Definition set_lifeLeft (l : Q) (a : Attributes) : Attributes :=
  {| position := position a; color := color a; life := life a; lifeLeft := l;
     flashAngle := flashAngle a; flashRotateAngle := flashRotateAngle a;
     wieght := wieght a; density := density a; radius := radius a;
     flashLifePart := flashLifePart a; colorSaturation := colorSaturation a |}.

Definition set_flashLifePart (p : option Q) (a : Attributes) : Attributes :=
  {| position := position a; color := color a; life := life a; lifeLeft := lifeLeft a;
     flashAngle := flashAngle a; flashRotateAngle := flashRotateAngle a;
     wieght := wieght a; density := density a; radius := radius a;
     flashLifePart := p; colorSaturation := colorSaturation a |}.

Definition set_position (p : option Vec.t) (a : Attributes) : Attributes :=
  {| position := p; color := color a; life := life a; lifeLeft := lifeLeft a;
     flashAngle := flashAngle a; flashRotateAngle := flashRotateAngle a;
     wieght := wieght a; density := density a; radius := radius a;
     flashLifePart := flashLifePart a; colorSaturation := colorSaturation a |}.

Definition set_colorSaturation (s : option Q) (a : Attributes) : Attributes :=
  {| position := position a; color := color a; life := life a; lifeLeft := lifeLeft a;
     flashAngle := flashAngle a; flashRotateAngle := flashRotateAngle a;
     wieght := wieght a; density := density a; radius := radius a;
     flashLifePart := flashLifePart a; colorSaturation := s |}.

Section WithMath.
Context (M : Math).

Definition flashMaxAngle : Q := Math_PI M / 4.
Definition flashMaxRotateAngle : Q := Math_PI M / 8.

(** [reset]: every modelled field of the speck is overwritten, so the
    result does not depend on the speck's previous state.  The effects
    are, in source order: the clock, three draws for the inertia when the
    options carry none, and the five draws of [generate]. *)
Definition reset (options : Options) (w : World) : t * World :=
  let '(now, w) := Date_getTime w in
  let '(inertia0, w) :=
    match opt_inertia options with
    | Some v => (Vec.mk (Vec.x v) (Vec.y v) (Vec.z v), w)
    | None =>
        let '(r1, w) := Math_random w in
        let '(r2, w) := Math_random w in
        let '(r3, w) := Math_random w in
        (Vec.mk (startInertiaFactor * (r1 - 1 / 2) * 2)
                (startInertiaFactor * (r2 - 1 / 2) * 2)
                (startInertiaFactor * (r3 - 1 / 2) * 2), w)
    end in
  (* generate *)
  let '(r, w) := Math_random w in
  let life0 := r * (maxLife - minLife) + minLife in
  let '(r, w) := Math_random w in
  let flashAngle0 := r * flashMaxAngle in
  let '(r, w) := Math_random w in
  let flashRotateAngle0 := r * flashMaxRotateAngle in
  let '(r, w) := Math_random w in
  let wieght0 := r * (maxWeight - minWeight) + minWeight in
  let '(r, w) := Math_random w in
  let density0 := r * (maxDensity - minDensity) + minDensity in
  let radius0 :=
    radiusScale * Math_pow M ((wieght0 / density0) / (Math_PI M * 4 / 3)) (1 / 3) in
  let gravity0 := fallFactor * density0 in
  (Init {| attributes :=
             {| position := opt_position options;
                color := default default_color (opt_color options);
                life := life0; lifeLeft := life0;
                flashAngle := flashAngle0; flashRotateAngle := flashRotateAngle0;
                wieght := wieght0; density := density0; radius := radius0;
                flashLifePart := None; colorSaturation := None |};
           inertia := inertia0;
           force := Vec.mk 0 gravity0 0;
           gravity := gravity0;
           wave := [];
           start := now |}, w).

End WithMath.

(** [isDead]: on a blank speck [lifeLeft] is [undefined] and the comparison
    is false. *)
Definition isDead (s : t) : bool :=
  match s with
  | Blank => false
  | Init d => lifeLeft (attributes d) <=? 0
  end.

Definition shortenLife (s : t) : t :=
  match s with
  | Blank => Blank
  | Init d =>
      if flashTime <? lifeLeft (attributes d)
      then Init (set_attributes (set_lifeLeft flashTime (attributes d)) d)
      else s
  end.

(** One axis of the inertia fallback. *)
Definition fallback (v dt : Q) : Q :=
  (if v <? 0 then -1 else 1) * (Qabs v - Qabs (v * inertiaFallback * dt)).

(** [fly]: a blank speck, or one without a position, ends in a
    [TypeError] when the position is read; a speck that dies in this call
    returns before that. *)
Definition fly (dt : Q) (s : t) : outcome t :=
  match s with
  | Blank => TypeError
  | Init d =>
      let a := set_lifeLeft (lifeLeft (attributes d) - dt) (attributes d) in
      if lifeLeft a <=? 0 then Done (Init (set_attributes a d))
      else
        let a := if lifeLeft a <=? flashTime
                 then set_flashLifePart (Some (1 - lifeLeft a / flashTime)) a
                 else a in
        let fy := Vec.y (force d) + gravity d in
        let ix := fallback (Vec.x (inertia d)) dt + Vec.x (force d) * dt in
        let iy := fallback (Vec.y (inertia d)) dt + fy * dt in
        let iz := fallback (Vec.z (inertia d)) dt + Vec.z (force d) * dt in
        match position a with
        | None => TypeError
        | Some p =>
            let p' := Vec.mk (Vec.x p + ix * dt) (Vec.y p + iy * dt) (Vec.z p + iz * dt) in
            Done (Init {| attributes := set_position (Some p') a;
                          inertia := Vec.mk ix iy iz;
                          force := Vec.mk 0 0 0;
                          gravity := gravity d;
                          wave := wave d;
                          start := start d |})
        end
  end.

(** [color], the method; the plain name is the attribute's.  On a blank
    speck the saturation goes to the prototype's [attributes], which no
    reset speck reads. *)
Definition color_ (magnitude : Q) (s : t) : t :=
  match s with
  | Blank => Blank
  | Init d =>
      Init (set_attributes
              (set_colorSaturation (Some (magnitude / maxColorMagnitude)) (attributes d)) d)
  end.

(** [setForce] at the instant [now] read from the clock.  After the push
    the queue is never empty, so [this.wave[0]] is the head of the list. *)
Definition setForce_at (now : Z) (direct back : Vec2.t) (d : Data) : Data :=
  let wave1 := wave d ++ [ {| time := inject_Z now + waveLag * 1000; power := back |} ] in
  let '(direct1, wave2) :=
    match wave1 with
    | wavePiece :: rest =>
        if time wavePiece <? inject_Z now + wavePrecision * 1000
        then (Vec2.mk (Vec2.x direct + Vec2.x (power wavePiece))
                      (Vec2.y direct + Vec2.y (power wavePiece)), rest)
        else (direct, wave1)
    | [] => (direct, wave1)
    end in
  {| attributes := attributes d;
     inertia := inertia d;
     force := Vec.mk (Vec2.x direct1) (Vec2.y direct1) (Vec.z (force d));
     gravity := gravity d;
     wave := wave2;
     start := start d |}.

(** On a blank speck [this.wave] is [null] and the push throws. *)
Definition setForce (direct back : Vec2.t) (s : t) (w : World) : outcome (t * World) :=
  match s with
  | Blank => TypeError
  | Init d =>
      let '(now, w) := Date_getTime w in
      Done (Init (setForce_at now direct back d), w)
  end.

End Speck.

(** ** Breeze (dust-breeze.js) *)

(** The view-port size object, [{width: .., height: ..}]. *)
Record Size := { width : Q; height : Q }.

Module Breeze.

(** [type]: "up", "down", "left" or "right". *)
Inductive Type_ := Up | Down | Left | Right.

Inductive Axis := X | Y.

Definition Axis_eqb (a b : Axis) : bool :=
  match a, b with
  | X, X | Y, Y => true
  | _, _ => false
  end.

Record View := { h : Q; w : Q; halfH : Q; halfW : Q }.

Record Attributes := {
  type : Type_;
  power : Vec2.t;
  musicFactor : Q;
  waveSpreadMin : Q;
  waveSpreadMax : Q
}.

Record t := {
  attributes : Attributes;
  direction : Axis;
  view : View;
  backPower : Vec2.t
}.

(** The options of the constructor; [size] is the view-port. *)
Record Options := {
  opt_type : option Type_;
  opt_power : option Vec2.t;
  opt_musicFactor : option Q;
  opt_waveSpreadMin : option Q;
  opt_waveSpreadMax : option Q;
  size : Size
}.

(** [defaults] *)
Definition default_type : Type_ := Up.
Definition default_power : Vec2.t := Vec2.mk 10 30.
Definition default_musicFactor : Q := 4.
Definition default_waveSpreadMin : Q := 2 # 10.
Definition default_waveSpreadMax : Q := 5 # 10.

Definition _saveSize (viewPort : Size) : View :=
  {| h := height viewPort; w := width viewPort;
     halfH := height viewPort / 2; halfW := width viewPort / 2 |}.

Definition initialize (options : Options) : t :=
  let ty := default default_type (opt_type options) in
  {| attributes :=
       {| type := ty;
          power := default default_power (opt_power options);
          musicFactor := default default_musicFactor (opt_musicFactor options);
          waveSpreadMin := default default_waveSpreadMin (opt_waveSpreadMin options);
          waveSpreadMax := default default_waveSpreadMax (opt_waveSpreadMax options) |};
     direction := match ty with Right | Left => X | _ => Y end;
     view := _saveSize (size options);
     backPower := Vec2.mk 0 0 |}.

(** [v[axis]] *)
Definition at_axis (axis : Axis) (v : Vec2.t) : Q :=
  match axis with X => Vec2.x v | Y => Vec2.y v end.

(** [setPower]: one draw, for the spread. *)
Definition setPower (overall : Q) (b : t) (wd : World) : t * World :=
  let force := overall * musicFactor (attributes b) in
  let '(r, wd) := Math_random wd in
  let spread :=
    force * (r * (waveSpreadMax (attributes b) - waveSpreadMin (attributes b))
             + waveSpreadMin (attributes b)) in
  let backForce :=
    Vec2.mk (if Axis_eqb (direction b) X then force - spread else spread)
            (if Axis_eqb (direction b) Y then force - spread else spread) in
  let power0 :=
    Vec2.mk (if Axis_eqb (direction b) X then force else 0)
            (if Axis_eqb (direction b) Y then force else 0) in
  ({| attributes :=
        {| type := type (attributes b);
           power := power0;
           musicFactor := musicFactor (attributes b);
           waveSpreadMin := waveSpreadMin (attributes b);
           waveSpreadMax := waveSpreadMax (attributes b) |};
      direction := direction b;
      view := view b;
      backPower := backForce |}, wd).

(** [speck.attributes.position]: on a blank speck [attributes] is the
    prototype's empty object, so [position] is [undefined] there too, and
    reading a coordinate of it throws. *)
Definition position_of (speck : Speck.t) : outcome Vec.t :=
  match speck with
  | Speck.Blank => TypeError
  | Speck.Init d =>
      match Speck.position (Speck.attributes d) with
      | Some p => Done p
      | None => TypeError
      end
  end.

(** [_findDistance]: [null] ([None]) when the axis does not match the
    type; the position is read only when it does. *)
Definition _findDistance (b : t) (axis : Axis) (speck : Speck.t) : outcome (option Q) :=
  match axis, type (attributes b) with
  | Y, Up => p ← position_of speck; mret (Some (halfH (view b) - Vec.y p))
  | Y, Down => p ← position_of speck; mret (Some (halfH (view b) + Vec.y p))
  | X, Right => p ← position_of speck; mret (Some (halfW (view b) - Vec.x p))
  | X, Left => p ← position_of speck; mret (Some (halfW (view b) + Vec.x p))
  | _, _ => mret None
  end.

(** The result of [_findForce], [{direct: .., back: ..}]. *)
Record Power := { direct : Q; back : Q }.

Section WithMath.
Context (M : Math).

(** The force coefficient [k] of [_findForce] on the breeze's own axis,
    for a distance already clamped at 0. *)
Definition coefficient (b : t) (distance full : Q) : Q :=
  let k := if distance <? full
           then Math_sqrt M (Qabs (distance / full - 1))
           else 1 in
  match type (attributes b) with
  | Up | Left => - k
  | _ => k
  end.

(** [_findForce]: a draw only for the axis across the breeze. *)
Definition _findForce (b : t) (axis : Axis) (distance : option Q) (full : Q)
    (wd : World) : Power * World :=
  let distance := if ToNumber distance <? 0 then Some 0 else distance in
  if Axis_eqb (direction b) axis then
    let k := coefficient b (ToNumber distance) full in
    ({| direct := k * at_axis axis (power (attributes b));
        back := (if k <? 0 then -1 else 1) * k * at_axis axis (backPower b) |}, wd)
  else
    let '(r, wd) := Math_random wd in
    ({| direct := 0;
        back := (if r <? 5 # 10 then -1 else 1) * at_axis axis (backPower b) |}, wd).

(** [apply]: the arguments of the two [_findForce] calls are evaluated in
    source order, x before y. *)
Definition apply (b : t) (speck : Speck.t) (wd : World) : outcome (Speck.t * World) :=
  dx ← _findDistance b X speck;
  let '(fx, wd) := _findForce b X dx (halfW (view b) * 2) wd in
  dy ← _findDistance b Y speck;
  let '(fy, wd) := _findForce b Y dy (halfH (view b) * 2) wd in
  Speck.setForce (Vec2.mk (direct fx) (direct fy)) (Vec2.mk (back fx) (back fy)) speck wd.

End WithMath.

End Breeze.

(** ** Music (dust-music.js): the frequency groups and their callbacks

    The audio graph, the loading of the track and the playback controls
    belong to the browser.  What the cloud uses of the music is embedded:
    the registry of callbacks ([set]) and the step that turns the
    analyser's frequency data into one magnitude per group and calls the
    callbacks of the group ([apply]).  The bytes that
    [getByteFrequencyData] writes are an input of [apply]. *)

Module Music.

(** [relation]: the groups and their ranges of frequency bins, in the order
    in which [for (i in this.relation)] visits them. *)
Definition relation : list (string * (nat * nat)) :=
  [("lowBass"%string, (1%nat, 20%nat)); ("bitBass"%string, (10%nat, 20%nat));
   ("middleLow"%string, (100%nat, 150%nat)); ("middleMed"%string, (300%nat, 350%nat));
   ("middleHigh"%string, (400%nat, 450%nat)); ("high"%string, (500%nat, 1023%nat))].

(** [defaults.bassCut] *)
Definition default_bassCut : Q := 200.

(** [i == 'bitBass' || i == 'lowBass'] *)
Definition is_bass (i : string) : bool := String.eqb i "bitBass" || String.eqb i "lowBass".

(** [sumAll], the closure of [apply], as a function of the variables [cut]
    and [sum] that it captures; the result is the new [sum]. *)
Definition sumAll (cut sum v : Q) : Q :=
  let red := if (0 <? v) && negb (Qeq_bool cut 0) then cut * (cut / v) else 0 in
  let v := v - red in
  sum + (if 0 <? v then v else 0).

(** A byte of the [Uint8Array] as a Number. *)
Definition number_of (b : Byte.byte) : Q := inject_Z (Z.of_N (Byte.to_N b)).

Section WithMath.
Context (M : Math).

(** The magnitude that [apply] computes for the group [i] with the range
    [range] of bins: the slice is shorter than the range when the data
    ends before it, the divisor is the width of the range in either case. *)
Definition overall (bassCut : Q) (freqByteData : list Byte.byte) (i : string)
    (range : nat * nat) : Q :=
  let cut := if is_bass i then bassCut else 0 in
  let subArr := take (snd range - fst range) (drop (fst range) freqByteData) in
  let sum := foldl (sumAll cut) 0 (number_of <$> subArr) in
  let overall := sum / (inject_Z (Z.of_nat (snd range)) - inject_Z (Z.of_nat (fst range))) in
  if is_bass i then Math_pow M overall (14 # 10) else overall.

End WithMath.

Section WithState.
Context (S : Type).

(** A callback is called with the magnitude and the name of its group; it
    changes the state of its owner or throws. *)
Definition callback : Type := Q -> string -> S -> outcome S.

(** [on], the callbacks by group, and [attributes.bassCut]. *)
Record t := { on : gmap string (list callback); bassCut : Q }.

(** [initialize], for what [set] and [apply] read: no callbacks, and the
    [bassCut] of the options or of the defaults. *)
Definition initialize (opt_bassCut : option Q) : t :=
  {| on := ∅; bassCut := default default_bassCut opt_bassCut |}.

(** [set]: the group gets its list at the first call; a [callback] that is
    not a function ([None]) is not added. *)
Definition set (type : string) (cb : option callback) (m : t) : t :=
  let l := default [] (on m !! type) in
  {| on := <[type := match cb with Some f => l ++ [f] | None => l end]> (on m);
     bassCut := bassCut m |}.

(** [this.on[i].forEach(function(callback){ callback(overall, i) })] *)
Fixpoint forEach (cbs : list callback) (overall : Q) (i : string) (s : S) : outcome S :=
  match cbs with
  | [] => Done s
  | cb :: cbs => s ← cb overall i s; forEach cbs overall i s
  end.

End WithState.

Arguments on {S} _.
Arguments bassCut {S} _.
Arguments set {S} type cb m.
Arguments forEach {S} cbs overall i s.

Section WithMath.
Context (M : Math) {S : Type}.

(** The loop of [apply] over the groups that are left to visit. *)
Fixpoint apply_groups (m : t S) (freqByteData : list Byte.byte)
    (groups : list (string * (nat * nat))) (s : S) : outcome S :=
  match groups with
  | [] => Done s
  | (i, range) :: groups =>
      s ← match on m !! i with
          | Some cbs => forEach cbs (overall M (bassCut m) freqByteData i range) i s
          | None => Done s
          end;
      apply_groups m freqByteData groups s
  end.

(** [apply], once the analyser exists (the constructor creates it). *)
Definition apply (m : t S) (freqByteData : list Byte.byte) (s : S) : outcome S :=
  apply_groups m freqByteData relation s.

End WithMath.

End Music.

(** ** Cloud (dust.js) *)

Module Cloud.

(** [throwFrom]: "bottom", "low-sides" or "up-sides". *)
Inductive From := bottom | low_sides | up_sides.

(** An entry of [this.throw]. *)
Record ThrowParams := { color : string; inertiaFactor : Q; from : From }.

(** [options], the merge of the user's options with [defaults]. *)
Record Options := {
  poolSize : nat;
  opt_specks : Q;
  throwRate : Q;
  throwTypes : list string;
  throwColors : list string;
  throwInertiaFactor : list Q;
  throwFrom : list From;
  maxLag : Q;
  maxToDelete : Q
}.

Definition defaults : Options :=
  {| poolSize := 1000;
     opt_specks := 0;
     throwRate := 1;
     throwTypes := ["bitBass"; "middleLow"; "middleMed"; "middleHigh"];
     throwColors := ["#b725a3"; "#ffa11b"; "#63eec2"; "#e3ee63"];
     throwInertiaFactor := [3 # 10; 5 # 10; 5 # 10; 5 # 10];
     throwFrom := [bottom; low_sides; low_sides; up_sides];
     maxLag := 3 # 100;
     maxToDelete := 5 # 100 |}.

(** The cloud.  The slots of [specks] hold distinct objects: [fill] creates
    one speck per slot and the animation loop only exchanges slots; so the
    array is a list of values, and a speck changed in place is written back
    to its slot. *)
Record t := {
  options : Options;
  viewPortSize : Size;
  activeSpecks : Z;
  specks : list Speck.t;
  breezes : list Breeze.t;
  throw : gmap string ThrowParams
}.

Definition set_specks (l : list Speck.t) (c : t) : t :=
  {| options := options c; viewPortSize := viewPortSize c;
     activeSpecks := activeSpecks c; specks := l;
     breezes := breezes c; throw := throw c |}.

Definition set_activeSpecks (n : Z) (c : t) : t :=
  {| options := options c; viewPortSize := viewPortSize c;
     activeSpecks := n; specks := specks c;
     breezes := breezes c; throw := throw c |}.


(** [(Math.random() < 0.5 ? -1 : +1)] for the draw [r]. *)
Definition sign_of (r : Q) : Q := if r <? 5 # 10 then -1 else 1.

(** The emitters of [initialize]: one entry per throw type, the colours,
    inertia factors and sides shifted off their arrays, with the [||]
    fall-backs for an exhausted array or a falsy value. *)
Fixpoint emitters (types colors : list string) (factors : list Q) (froms : list From)
    (acc : gmap string ThrowParams) : gmap string ThrowParams :=
  match types with
  | [] => acc
  | ty :: types =>
      let c := match colors with
               | c :: _ => if String.eqb c "" then "#fff"%string else c
               | [] => "#fff"%string
               end in
      let f := match factors with
               | f :: _ => if Qeq_bool f 0 then 5 # 10 else f
               | [] => 5 # 10
               end in
      let s := match froms with
               | s :: _ => s
               | [] => bottom
               end in
      emitters types (tail colors) (tail factors) (tail froms)
               (<[ty := {| color := c; inertiaFactor := f; from := s |}]> acc)
  end.

Section WithMath.
Context (M : Math).

Definition _gaussSimplified (x : Q) : Q :=
  let root := Math_sqrt M (2 * Math_PI M) in
  Qabs (Math_exp M (- (x * x) / (2 * (2 # 10))) / ((44 # 100) * root) - (9 # 10)).

Definition generateSpot (c : t) (w : World) : Vec.t * World :=
  let maxX := width (viewPortSize c) in
  let maxY := height (viewPortSize c) in
  let maxZ := width (viewPortSize c) in
  let '(random, w) := Math_random w in
  let '(r, w) := Math_random w in
  let posx := maxX * sign_of r * _gaussSimplified random in
  let '(random, w) := Math_random w in
  let '(r, w) := Math_random w in
  let posy := maxY * sign_of r * _gaussSimplified random in
  let '(random, w) := Math_random w in
  let posz := maxZ / 2 * _gaussSimplified random in
  (Vec.mk posx posy posz, w).

(** [generateThrowDirection]: the spread is drawn before the emitter is
    looked up; an unknown type returns the empty object. *)
Definition generateThrowDirection (c : t) (type : string) (w : World)
    : Speck.Options * World :=
  let maxX := width (viewPortSize c) in
  let maxY := height (viewPortSize c) in
  let maxZ := width (viewPortSize c) in
  let '(r, w) := Math_random w in
  let spread := (3 # 10) * r + (2 # 10) in
  match throw c !! type with
  | None =>
      ({| Speck.opt_position := None; Speck.opt_inertia := None;
          Speck.opt_color := None |}, w)
  | Some params =>
      let '(random, w) := Math_random w in
      let posz := maxZ / 2 * _gaussSimplified random in
      let '(pos, inertia, w) :=
        match from params with
        | bottom =>
            let '(r, w) := Math_random w in
            let posx := maxX * sign_of r * _gaussSimplified random in
            let posy := maxY / 2 in
            let iy := - maxY / 2 * inertiaFactor params in
            let '(r, w) := Math_random w in
            let ix := sign_of r * iy * spread in
            (Vec.mk posx posy posz, Vec.mk ix iy 0, w)
        | low_sides =>
            let '(r, w) := Math_random w in
            let posx := sign_of r * maxX / 2 in
            let posy := maxY / 2 * _gaussSimplified random in
            let ix := (if posx <? 0 then 1 else -1) * maxX / 2 * inertiaFactor params in
            let '(r, w) := Math_random w in
            let iy := sign_of r * ix * spread in
            (Vec.mk posx posy posz, Vec.mk ix iy 0, w)
        | up_sides =>
            let '(r, w) := Math_random w in
            let posx := sign_of r * maxX / 2 in
            let posy := - maxY / 2 * _gaussSimplified random in
            let ix := (if posx <? 0 then 1 else -1) * maxX / 2 * inertiaFactor params in
            let '(r, w) := Math_random w in
            let iy := sign_of r * ix * spread in
            (Vec.mk posx posy posz, Vec.mk ix iy 0, w)
        end in
      ({| Speck.opt_position := Some pos; Speck.opt_inertia := Some inertia;
          Speck.opt_color := Some (color params) |}, w)
  end.

(** The second loop of [fill]; [cnt] is the source's counter [c]. *)
Fixpoint fill_loop (fuel : nat) (cnt : Z) (c : t) (w : World) : outcome (Z * t * World) :=
  match fuel with
  | O => OutOfFuel
  | S fuel =>
      if inject_Z cnt <? opt_specks (options c) then
        match lookupZ (specks c) (activeSpecks c + cnt) with
        | None => Done (cnt, c, w)
        | Some _ =>
            let '(pos, w) := generateSpot c w in
            match lookupZ (specks c) cnt with
            | None => TypeError
            | Some _ =>
                let '(speck, w) :=
                  Speck.reset M {| Speck.opt_position := Some pos;
                                   Speck.opt_inertia := None;
                                   Speck.opt_color := None |} w in
                fill_loop fuel (cnt + 1)
                          (set_specks (<[Z.to_nat cnt := speck]> (specks c)) c) w
            end
        end
      else Done (cnt, c, w)
  end.

Definition fill (c : t) (w : World) : outcome (t * World) :=
  let c := set_specks (specks c ++ replicate (poolSize (options c)) Speck.Blank) c in
  '(cnt, c, w) ← fill_loop (S (length (specks c))) 0 c w;
  mret (set_activeSpecks (activeSpecks c + cnt) c, w).

(** The constructor up to [fill]; the animation frames, the first one
    included, are events of [run] below. *)
Definition initialize (o : Options) (size : Size) (w : World) : outcome (t * World) :=
  fill {| options := o;
          viewPortSize := size;
          activeSpecks := 0;
          specks := [];
          breezes := [Breeze.initialize
                        {| Breeze.opt_type := Some Breeze.Up;
                           Breeze.opt_power := None;
                           Breeze.opt_musicFactor := None;
                           Breeze.opt_waveSpreadMin := None;
                           Breeze.opt_waveSpreadMax := None;
                           Breeze.size := size |}];
          throw := emitters (throwTypes o) (throwColors o) (throwInertiaFactor o)
                            (throwFrom o) ∅ |} w.

(** The loop of [throwSpecks]. *)
Fixpoint throw_loop (fuel : nat) (type : string) (num : Q) (i : Z) (c : t) (w : World)
    : outcome (Z * t * World) :=
  match fuel with
  | O => OutOfFuel
  | S fuel =>
      if inject_Z i <? num then
        match lookupZ (specks c) (activeSpecks c + i) with
        | None => Done (i, c, w)
        | Some _ =>
            let '(data, w) := generateThrowDirection c type w in
            let '(speck, w) := Speck.reset M data w in
            throw_loop fuel type num (i + 1)
              (set_specks (<[Z.to_nat (activeSpecks c + i) := speck]> (specks c)) c) w
        end
      else Done (i, c, w)
  end.

Definition throwSpecks (type : string) (rate : Q) (c : t) (w : World)
    : outcome (t * World) :=
  let num := rate * throwRate (options c) in
  '(i, c, w) ← throw_loop (S (length (specks c))) type num 0 c w;
  mret (set_activeSpecks (activeSpecks c + i) c, w).

(** The loop of [_deleteSpecks]: the speck it reads is [this.specks[num]],
    whatever the counter [i]. *)
Fixpoint delete_loop (fuel : nat) (num : Q) (i : Z) (c : t) : outcome t :=
  match fuel with
  | O => OutOfFuel
  | S fuel =>
      if inject_Z i <? num then
        match index_of num with
        | None => Done c
        | Some n =>
            match specks c !! n with
            | None => Done c
            | Some speck =>
                delete_loop fuel num (i + 1)
                  (set_specks (<[n := Speck.shortenLife speck]> (specks c)) c)
            end
        end
      else Done c
  end.

Definition _deleteSpecks (num : Q) (c : t) : outcome t :=
  delete_loop (S (Z.to_nat (Qceiling num))) num 0 c.

(** [for(j = 0; j < lenB; j = j+1) this.breezes[j].apply(speck)] *)
Fixpoint apply_breezes (bs : list Breeze.t) (speck : Speck.t) (w : World)
    : outcome (Speck.t * World) :=
  match bs with
  | [] => Done (speck, w)
  | b :: bs =>
      '(speck, w) ← Breeze.apply M b speck w;
      apply_breezes bs speck w
  end.

(** The body of the loop of [_animate] at index [i]; it returns the
    counter as the body leaves it, before the [i++] of the loop.  The
    speck is an object that [apply] and [fly] change in place, so the
    slot [i] holds the changed speck before the swap reads the array.
    An [undefined] slot ends in a [TypeError]: at once when it is the
    slot [i]; at the next turn of the loop when it is the slot
    [activeSpecks - 1] of the swap, which then stores [undefined] at [i]
    with [i < activeSpecks - 1]. *)
Definition animate_body (dt : Q) (i : Z) (c : t) (w : World) : outcome (Z * t * World) :=
  match lookupZ (specks c) i with
  | None => TypeError
  | Some speck =>
      '(speck, w) ← apply_breezes (breezes c) speck w;
      speck ← Speck.fly dt speck;
      let c := set_specks (<[Z.to_nat i := speck]> (specks c)) c in
      if Speck.isDead speck then
        match lookupZ (specks c) (activeSpecks c - 1) with
        | None => TypeError
        | Some last =>
            let l := <[Z.to_nat i := last]> (specks c) in
            let l := <[Z.to_nat (activeSpecks c - 1) := speck]> l in
            mret ((i - 1)%Z, set_activeSpecks (activeSpecks c - 1) (set_specks l c), w)
        end
      else mret (i, c, w)
  end.

Fixpoint animate_loop (fuel : nat) (dt : Q) (i : Z) (c : t) (w : World)
    : outcome (t * World) :=
  match fuel with
  | O => OutOfFuel
  | S fuel =>
      if (i <? activeSpecks c)%Z then
        '(i, c, w) ← animate_body dt i c w;
        animate_loop fuel dt (i + 1) c w
      else Done (c, w)
  end.

(** The load shedding of [_animate]. *)
Definition shed (dt : Q) (c : t) : outcome t :=
  if maxLag (options c) <=? dt then
    let numToDelete :=
      inject_Z (activeSpecks c) * ((dt - maxLag (options c)) / maxLag (options c)) in
    let numToDelete :=
      if inject_Z (activeSpecks c) * maxToDelete (options c) <? numToDelete
      then inject_Z (activeSpecks c) * maxToDelete (options c)
      else numToDelete in
    _deleteSpecks numToDelete c
  else Done c.

(** [_animate] for the [dt] that [_dt] measured, from the load shedding
    to the end of the loop over the alive specks.  The calls to the music
    before it and to the renderer after it are outside the embedding. *)
Definition _animate (dt : Q) (c : t) (w : World) : outcome (t * World) :=
  c ← shed dt c;
  animate_loop (S (Z.to_nat (activeSpecks c))) dt 0 c w.




End WithMath.

(** [_dt] for the [lastTime] of the cloud, [null] ([None]) before the first
    frame; the result is the measured time and the new [lastTime].
    [!this.lastTime] holds of [null] and of a reading of 0. *)
Definition _dt (lastTime : option Z) (w : World) : Q * option Z * World :=
  let '(time, w) := Date_getTime w in
  let last := match lastTime with
              | Some t => if (t =? 0)%Z then time else t
              | None => time
              end in
  (inject_Z (time - last) / 1000, Some time, w).

(** [maxPerType] of [initialize].  A name that it does not hold gives
    [undefined] (or an inherited property of the object), [min] is then
    [NaN] and the comparison with it is false. *)
Definition maxPerType : gmap string Q :=
  {[ "bitBass"%string := 350; "middleLow"%string := 270;
     "middleMed"%string := 230; "middleHigh"%string := 230 ]}.

Section WithMusic.
Context (M : Math).



Definition on_throw : Music.callback (t * World) :=
  fun overall type s =>
    match maxPerType !! type with
    | None => mret s
    | Some max =>
        let min := max * 2 / 3 in
        if min <? overall then
          let count := (overall - min) / (max - min) in
          throwSpecks M type count (fst s) (snd s)
        else mret s
    end.







End WithMusic.

End Cloud.

(** ** Renderer (dust-render-2d.js): the colour of a speck

    The canvas, the textures and the drawing belong to the browser.  What
    is embedded is the colour that [_renderSpeck] computes for a speck:
    the parsing of the speck's colour, the conversion to hue, saturation
    and value, the speck's own saturation put in its place, and the
    conversion back.  A channel that JavaScript leaves [undefined] or
    computes as [NaN] is [None]. *)

Module Renderer.

(** A character of the class [[a-f\d]] under the flag [i], as a digit. *)
Definition hex_digit (a : Ascii.ascii) : option Z :=
  let n := Z.of_N (Ascii.N_of_ascii a) in
  if (48 <=? n)%Z && (n <=? 57)%Z then Some (n - 48)%Z
  else if (97 <=? n)%Z && (n <=? 102)%Z then Some (n - 87)%Z
  else if (65 <=? n)%Z && (n <=? 70)%Z then Some (n - 55)%Z
  else None.

(** [_hexToRgb]: an optional [#], then exactly three pairs of digits, each
    read by [parseInt(.., 16)]; [null] ([None]) for any other string. *)
Definition _hexToRgb (hex : string) : option (Q * Q * Q) :=
  let digits := match hex with
                | String "#"%char rest => rest
                | _ => hex
                end in
  match hex_digit <$> String.list_ascii_of_string digits with
  | [Some r1; Some r0; Some g1; Some g0; Some b1; Some b0] =>
      Some (inject_Z (16 * r1 + r0), inject_Z (16 * g1 + g0), inject_Z (16 * b1 + b0))
  | _ => None
  end.

(** [[h, s, v]] *)
Record HSV := { hue : option Q; saturation : option Q; value : option Q }.

(** [_RGBtoHSV].  Black gives [[-1, 0, undefined]]; for a grey that is not
    black the hue is [0 / 0], which is [NaN]. *)
Definition _RGBtoHSV (color : Q * Q * Q) : HSV :=
  let '(r, g, b) := color in
  let min := Qmin (Qmin r g) b in
  let max := Qmax (Qmax r g) b in
  let delta := max - min in
  if Qeq_bool max 0
  then {| hue := Some (-1); saturation := Some 0; value := None |}
  else
    let s := delta / max in
    let h := if Qeq_bool r max
             then if Qeq_bool delta 0 then None else Some ((g - b) / delta)
             else if Qeq_bool g max then Some (2 + (b - r) / delta)
             else Some (4 + (r - g) / delta) in
    let h := (fun h => h * 60) <$> h in
    let h := (fun h => if h <? 0 then h + 360 else h) <$> h in
    {| hue := h; saturation := Some s; value := Some max |}.

(** An operation on Numbers of which one may be [NaN]. *)
Definition number (f : Q -> Q -> Q) (a b : option Q) : option Q :=
  match a, b with
  | Some a, Some b => Some (f a b)
  | _, _ => None
  end.

(** [Math.round] *)
Definition Math_round (x : Q) : Q := inject_Z (Qfloor (x + (1 # 2))).

(** [_HSVtoRGB].  [s === 0] holds of the Number 0 only; a sector [i] that
    is [NaN] falls to the [default] of the [switch], as 5 does. *)
Definition _HSVtoRGB (color : HSV) : option Q * option Q * option Q :=
  let s := saturation color in
  let v := value color in
  if match s with Some s => Qeq_bool s 0 | None => false end
  then (v, v, v)
  else
    let h := (fun h => h / 60) <$> hue color in
    let i := Qfloor <$> h in
    let f := number Qminus h (inject_Z <$> i) in
    let p := number Qmult v (number Qminus (Some 1) s) in
    let q := number Qmult v (number Qminus (Some 1) (number Qmult s f)) in
    let t := number Qmult v
               (number Qminus (Some 1) (number Qmult s (number Qminus (Some 1) f))) in
    let '(r, g, b) :=
      match i with
      | Some 0%Z => (v, t, p)
      | Some 1%Z => (q, v, p)
      | Some 2%Z => (p, v, t)
      | Some 3%Z => (p, q, v)
      | Some 4%Z => (t, p, v)
      | _ => (v, p, q)
      end in
    (Math_round <$> r, Math_round <$> g, Math_round <$> b).

(** The [rgb] of [_renderSpeck]: the colour of the speck with the
    saturation replaced by the speck's own.  A colour that [_hexToRgb] does
    not read is [null], and [_RGBtoHSV] throws on it. *)
Definition rgb (a : Speck.Attributes) : outcome (option Q * option Q * option Q) :=
  match _hexToRgb (Speck.color a) with
  | None => TypeError
  | Some color =>
      let hsv := _RGBtoHSV color in
      Done (_HSVtoRGB {| hue := hue hsv; saturation := Speck.colorSaturation a;
                         value := value hsv |})
  end.

End Renderer.

(** ** The options object of [Speck.reset] as a shared, mutable object

    [Speck.reset] above takes its options by value.  The source receives a
    reference: it deletes a property of the caller's object and copies
    another object property by property.  [Store] embeds [reset] once more,
    over a store of objects, to say what happens to the objects the caller
    can still reach. *)

Module Store.

Definition loc := positive.

(** A property value: a Number, a String or a reference to an object.  A
    missing property ([undefined]) is the [None] of a lookup. *)
Inductive val := Num (q : Q) | Str (s : string) | Ref (l : loc).

Abbreviation obj := (gmap string val).
Abbreviation heap := (gmap loc (gmap string val)).

(** The own properties of the object at [l]. *)
Definition props (h : heap) (l : loc) : obj := default ∅ (h !! l).

(** [l.k] *)
Definition get (h : heap) (l : loc) (k : string) : option val := props h l !! k.

(** [{..}]: a new object. *)
Definition alloc (o : obj) (h : heap) : loc * heap :=
  let l := fresh (dom h) in (l, <[l := o]> h).

(** [l.k = v] *)
Definition set (l : loc) (k : string) (v : val) (h : heap) : heap :=
  <[l := <[k := v]> (props h l)]> h.

(** [delete l.k] *)
Definition delete_prop (l : loc) (k : string) (h : heap) : heap :=
  alter (delete k) l h.

(** The condition of an [if]. *)
Definition truthy (v : option val) : bool :=
  match v with
  | None => false
  | Some (Num q) => negb (Qeq_bool q 0)
  | Some (Str s) => negb (String.eqb s "")
  | Some (Ref _) => true
  end.

(** The characters of a String under their indices, which is what [for
    (i in s)] enumerates. *)
Definition chars (s : string) : obj :=
  list_to_map (imap (fun i a => (pretty i, Str (String a EmptyString)))
                    (String.list_ascii_of_string s)).

(** What [for (i in from) if (from.hasOwnProperty(i))] ranges over. *)
Definition own (h : heap) (from : option val) : obj :=
  match from with
  | Some (Ref l) => props h l
  | Some (Str s) => chars s
  | Some (Num _) | None => ∅
  end.

(** [_extend(to, from)]: every own property of [from] is written to [to]. *)
Definition _extend (to : loc) (from : option val) (h : heap) : heap :=
  <[to := own h from ∪ props h to]> h.

(** The fields of a speck that [reset] assigns. *)
Record Speck := {
  attributes : loc;
  inertia : loc;
  force : loc;
  gravity : Q;
  wave : loc;
  start : Z
}.

(** [Speck.prototype.defaults] *)
Definition defaults : obj := {[ "color" := Str Speck.default_color ]}.

Definition vec (a b c : Q) : obj :=
  <["x" := Num a]> (<["y" := Num b]> (<["z" := Num c]> ∅)).

Section WithMath.
Context (M : Math).

(** [generate]: the writes to [this.attributes] and to [this.force]. *)
Definition generate (attributes force : loc) (h : heap) (w : World) : Q * heap * World :=
  let '(r, w) := Math_random w in
  let life := r * (Speck.maxLife - Speck.minLife) + Speck.minLife in
  let h := set attributes "life" (Num life) h in
  let h := set attributes "lifeLeft" (Num life) h in
  let '(r, w) := Math_random w in
  let h := set attributes "flashAngle" (Num (r * Speck.flashMaxAngle M)) h in
  let '(r, w) := Math_random w in
  let h := set attributes "flashRotateAngle" (Num (r * Speck.flashMaxRotateAngle M)) h in
  let '(r, w) := Math_random w in
  let wieght := r * (Speck.maxWeight - Speck.minWeight) + Speck.minWeight in
  let h := set attributes "wieght" (Num wieght) h in
  let '(r, w) := Math_random w in
  let density := r * (Speck.maxDensity - Speck.minDensity) + Speck.minDensity in
  let h := set attributes "density" (Num density) h in
  let h := set attributes "radius"
             (Num (Speck.radiusScale
                   * Math_pow M ((wieght / density) / (Math_PI M * 4 / 3)) (1 / 3))) h in
  let gravity0 := Speck.fallFactor * density in
  let h := set force "y" (Num gravity0) h in
  (gravity0, h, w).

Definition reset (options : loc) (h : heap) (w : World) : Speck * heap * World :=
  let '(_, h) := alloc ∅ h in                      (* this.attributes = {} *)
  let '(lwave, h) := alloc ∅ h in                  (* this.wave = [] *)
  let '(lforce, h) := alloc (vec 0 0 0) h in       (* this.force = {x: 0, ..} *)
  let '(now, w) := Date_getTime w in
  let '(linertia, h, w) :=
    if truthy (get h options "inertia") then
      let '(l, h) := alloc ∅ h in
      let h := _extend l (get h options "inertia") h in
      let h := delete_prop options "inertia" h in
      (l, h, w)
    else
      let '(r1, w) := Math_random w in
      let '(r2, w) := Math_random w in
      let '(r3, w) := Math_random w in
      let '(l, h) := alloc (vec (Speck.startInertiaFactor * (r1 - 1 / 2) * 2)
                                (Speck.startInertiaFactor * (r2 - 1 / 2) * 2)
                                (Speck.startInertiaFactor * (r3 - 1 / 2) * 2)) h in
      (l, h, w) in
  let '(lattr, h) := alloc defaults h in           (* _extend({}, this.defaults) *)
  let h := _extend lattr (Some (Ref options)) h in
  let '(gravity0, h, w) := generate lattr lforce h w in
  ({| attributes := lattr; inertia := linertia; force := lforce;
      gravity := gravity0; wave := lwave; start := now |}, h, w).

End WithMath.

End Store.

(** ** Reading the store back *)

(** The vector that an object of the store holds. *)
Definition read_vec (h : gmap Store.loc (gmap string Store.val)) (l : Store.loc)
    : option Vec.t :=
  match Store.get h l "x", Store.get h l "y", Store.get h l "z" with
  | Some (Store.Num a), Some (Store.Num b), Some (Store.Num c) => Some (Vec.mk a b c)
  | _, _, _ => None
  end.

Definition read_num (h : gmap Store.loc (gmap string Store.val)) (l : Store.loc)
    (k : string) : option Q :=
  match Store.get h l k with
  | Some (Store.Num q) => Some q
  | _ => None
  end.

(** The options of the value embedding that an options object stands for. *)
Definition read_options (h : gmap Store.loc (gmap string Store.val)) (l : Store.loc)
    : Speck.Options :=
  {| Speck.opt_position :=
       match Store.get h l "position" with
       | Some (Store.Ref p) => read_vec h p
       | _ => None
       end;
     Speck.opt_inertia :=
       match Store.get h l "inertia" with
       | Some (Store.Ref v) => read_vec h v
       | _ => None
       end;
     Speck.opt_color :=
       match Store.get h l "color" with
       | Some (Store.Str c) => Some c
       | _ => None
       end |}.

(** The speck of the value embedding that the fields of a speck of the
    store stand for; the wave queue is empty after a reset. *)
Definition read_speck (h : gmap Store.loc (gmap string Store.val)) (s : Store.Speck)
    : option Speck.t :=
  let a := Store.attributes s in
  life ← read_num h a "life";
  lifeLeft ← read_num h a "lifeLeft";
  flashAngle ← read_num h a "flashAngle";
  flashRotateAngle ← read_num h a "flashRotateAngle";
  wieght ← read_num h a "wieght";
  density ← read_num h a "density";
  radius ← read_num h a "radius";
  inertia ← read_vec h (Store.inertia s);
  force ← read_vec h (Store.force s);
  Some (Speck.Init
          {| Speck.attributes :=
               {| Speck.position :=
                    match Store.get h a "position" with
                    | Some (Store.Ref p) => read_vec h p
                    | _ => None
                    end;
                  Speck.color :=
                    match Store.get h a "color" with
                    | Some (Store.Str c) => c
                    | _ => ""
                    end;
                  Speck.life := life; Speck.lifeLeft := lifeLeft;
                  Speck.flashAngle := flashAngle;
                  Speck.flashRotateAngle := flashRotateAngle;
                  Speck.wieght := wieght; Speck.density := density;
                  Speck.radius := radius;
                  Speck.flashLifePart := read_num h a "flashLifePart";
                  Speck.colorSaturation := read_num h a "colorSaturation" |};
             Speck.inertia := inertia;
             Speck.force := force;
             Speck.gravity := Store.gravity s;
             Speck.wave := [];
             Speck.start := Store.start s |}).

(** ** Sequences of calls *)


Definition Qsum (l : list Q) : Q := foldr Qplus 0 l.

(** The fields of a speck that the statements read; [None] on a blank speck. *)
Definition lifeLeft_of (s : Speck.t) : option Q :=
  match s with
  | Speck.Blank => None
  | Speck.Init d => Some (Speck.lifeLeft (Speck.attributes d))
  end.

Definition position_of (s : Speck.t) : option Vec.t :=
  match s with
  | Speck.Blank => None
  | Speck.Init d => Speck.position (Speck.attributes d)
  end.

Definition force_of (s : Speck.t) : option Vec.t :=
  match s with
  | Speck.Blank => None
  | Speck.Init d => Some (Speck.force d)
  end.

(** A speck whose life has begun and not ended. *)
Definition alive (s : Speck.t) : Prop :=
  exists d, s = Speck.Init d /\ 0 < Speck.lifeLeft (Speck.attributes d).


(** The axis across a breeze. *)
Definition across (a : Breeze.Axis) : Breeze.Axis :=
  match a with
  | Breeze.X => Breeze.Y
  | Breeze.Y => Breeze.X
  end.


(** The span that [apply] passes to [_findForce] for an axis. *)
Definition span (b : Breeze.t) (axis : Breeze.Axis) : Q :=
  match axis with
  | Breeze.X => Breeze.halfW (Breeze.view b) * 2
  | Breeze.Y => Breeze.halfH (Breeze.view b) * 2
  end.

(** [v[axis]] for the x or y of a force. *)
Definition along (axis : Breeze.Axis) (v : Vec.t) : Q :=
  match axis with
  | Breeze.X => Vec.x v
  | Breeze.Y => Vec.y v
  end.

(** A queued wave piece whose time has come at the instant [now], as
    [setForce] tests it. *)
Definition elapsed (now : Z) (p : Speck.WavePiece) : bool :=
  Speck.time p <? inject_Z now + Speck.wavePrecision * 1000.

(** The queue begins with two pieces whose time has come. *)
Definition backlog (now : Z) (wave : list Speck.WavePiece) : bool :=
  match wave with
  | p0 :: p1 :: _ => elapsed now p0 && elapsed now p1
  | _ => false
  end.

(** The piece that [setForce] pushes at the instant [now]. *)
Definition pushed (now : Z) (back : Vec2.t) : Speck.WavePiece :=
  {| Speck.time := inject_Z now + Speck.waveLag * 1000; Speck.power := back |}.

(** Two worlds that read the same oracles, at possibly different places. *)
Definition same_oracles (w w' : World) : Prop :=
  seed w' = seed w /\ clock w' = clock w.

(** What a reset leaves: a speck with its whole life ahead, an empty wave
    queue, and the position and colour of the options. *)
Definition reset_from (o : Speck.Options) (s : Speck.t) : Prop :=
  exists d,
    s = Speck.Init d /\
    Speck.position (Speck.attributes d) = Speck.opt_position o /\
    Speck.color (Speck.attributes d) = default Speck.default_color (Speck.opt_color o) /\
    Speck.lifeLeft (Speck.attributes d) = Speck.life (Speck.attributes d) /\
    Speck.wave d = [] /\
    (forall v, Speck.opt_inertia o = Some v ->
       Speck.inertia d = Vec.mk (Vec.x v) (Vec.y v) (Vec.z v)).

(** A speck that a breeze can read: reset, with a position. *)
Definition positioned (s : Speck.t) : Prop :=
  exists d, s = Speck.Init d /\ is_Some (Speck.position (Speck.attributes d)).

(** The slot that one turn of the loop of [throwSpecks] fills. *)
Definition thrown (c : Cloud.t) (type : string) (w : World) (s : Speck.t) : Prop :=
  exists d,
    s = Speck.Init d /\
    Speck.lifeLeft (Speck.attributes d) = Speck.life (Speck.attributes d) /\
    Speck.wave d = [] /\
    (unit_interval w -> 0 < Speck.lifeLeft (Speck.attributes d)) /\
    match Cloud.throw c !! type with
    | None => Speck.position (Speck.attributes d) = None /\
              Speck.color (Speck.attributes d) = Speck.default_color
    | Some params => is_Some (Speck.position (Speck.attributes d)) /\
                     Speck.color (Speck.attributes d) = Cloud.color params
    end.

(** What [throwSpecks] and its loop leave alone. *)
Definition same_frame (c c' : Cloud.t) : Prop :=
  Cloud.options c' = Cloud.options c /\
  Cloud.viewPortSize c' = Cloud.viewPortSize c /\
  Cloud.breezes c' = Cloud.breezes c /\
  Cloud.throw c' = Cloud.throw c /\
  length (Cloud.specks c') = length (Cloud.specks c).


(** A pool that an animation frame can go through: every active slot exists
    and holds a speck with a position. *)
Definition ready (c : Cloud.t) : Prop :=
  (0 <= Cloud.activeSpecks c <= Z.of_nat (length (Cloud.specks c)))%Z /\
  forall (j : nat) (s : Speck.t),
    Cloud.specks c !! j = Some s -> (Z.of_nat j < Cloud.activeSpecks c)%Z -> positioned s.

(** The pool after a call, when the call returned. *)
Definition pool_of {W : Type} (o : outcome (Cloud.t * W)) : option Cloud.t :=
  match o with
  | Done (c, _) => Some c
  | _ => None
  end.

(** Number of slots whose remaining life differs between two pools. *)
Definition lifeLeft_eqb (s s' : Speck.t) : bool :=
  match lifeLeft_of s, lifeLeft_of s' with
  | Some a, Some b => Qeq_bool a b
  | None, None => true
  | _, _ => false
  end.

Definition shortened (before after : list Speck.t) : list nat :=
  (fun p => fst p) <$>
    filter (fun p => lifeLeft_eqb (fst (snd p)) (snd (snd p)) = false)
           (imap (fun i p => (i, p)) (zip before after)).

(** ** Predicates and sequences of calls for the further properties *)


(** The emitter that [initialize] builds from the [i]-th colour, inertia
    factor and side, with the fall-backs of [||]. *)
Definition emitter_at (colors : list string) (factors : list Q) (froms : list Cloud.From)
    (i : nat) : Cloud.ThrowParams :=
  {| Cloud.color := match colors !! i with
                    | Some c => if String.eqb c "" then "#fff"%string else c
                    | None => "#fff"%string
                    end;
     Cloud.inertiaFactor := match factors !! i with
                            | Some f => if Qeq_bool f 0 then 5 # 10 else f
                            | None => 5 # 10
                            end;
     Cloud.from := default Cloud.bottom (froms !! i) |}.

(** [_dt] called once per frame, for frames between which the specks read
    the clock [k] more times, [k] running through [gaps]: the times
    measured and the [lastTime] that is left. *)
Fixpoint measure (gaps : list nat) (lastTime : option Z) (w : World) : list Q * option Z :=
  match gaps with
  | [] => ([], lastTime)
  | k :: gaps =>
      let '(dt, last, w) := Cloud._dt lastTime w in
      let '(dts, last) :=
        measure gaps last
          {| seed := seed w; draws := draws w; clock := clock w;
             reads := (reads w + k)%nat |} in
      (dt :: dts, last)
  end.


(** The number of specks that the load shedding of a frame asks
    [_deleteSpecks] to delete. *)
Definition numToDelete (dt : Q) (c : Cloud.t) : Q :=
  let num :=
    inject_Z (Cloud.activeSpecks c)
    * ((dt - Cloud.maxLag (Cloud.options c)) / Cloud.maxLag (Cloud.options c)) in
  if inject_Z (Cloud.activeSpecks c) * Cloud.maxToDelete (Cloud.options c) <? num
  then inject_Z (Cloud.activeSpecks c) * Cloud.maxToDelete (Cloud.options c)
  else num.





(** [ready] as a test. *)
Definition readyb (c : Cloud.t) : bool :=
  (0 <=? Cloud.activeSpecks c)%Z
  && (Cloud.activeSpecks c <=? Z.of_nat (length (Cloud.specks c)))%Z
  && forallb (fun s => match position_of s with Some _ => true | None => false end)
             (take (Z.to_nat (Cloud.activeSpecks c)) (Cloud.specks c)).

(** A test of the life that the active specks have left against [dt]. *)
Definition lives (test : Q -> Q -> bool) (dt : Q) (c : Cloud.t) : bool :=
  forallb (fun s => match lifeLeft_of s with Some l => test l dt | None => true end)
          (take (Z.to_nat (Cloud.activeSpecks c)) (Cloud.specks c)).

(** The characters of a colour after its optional [#]. *)
Definition digits_of (hex : string) : list Ascii.ascii :=
  String.list_ascii_of_string
    match hex with
    | String "#"%char rest => rest
    | _ => hex
    end.

(** A whole number from 0 to 255, as a channel of a colour. *)
Definition channel (q : Q) : Prop := exists n : Z, q = inject_Z n /\ (0 <= n <= 255)%Z.



(** ** A host and inputs to run the embedding on *)

Module Sample.

(** Rational stand-ins for the host's functions: the square root rounded
    down to the denominator of its reduced argument, exact on squares. *)
Definition sqrt (q : Q) : Q :=
  let r := Qred q in Z.sqrt (Qnum r * Z.pos (Qden r)) # Qden r.
Definition exp (x : Q) : Q := 1 + x + x * x / 2.
Definition pow (b e : Q) : Q := 1 + e * (b - 1).

Definition math : Math :=
  {| Math_sqrt := sqrt; Math_exp := exp; Math_pow := pow; Math_PI := 355 # 113 |}.

(** Every draw is [r], every clock reading is [t]. *)
Definition world (r : Q) (t : Z) : World :=
  {| seed := fun _ => r; draws := 0; clock := fun _ => t; reads := 0 |}.

Definition screen : Size := {| width := 800; height := 600 |}.

Definition options (pool : nat) (starters : Q) : Cloud.Options :=
  {| Cloud.poolSize := pool;
     Cloud.opt_specks := starters;
     Cloud.throwRate := Cloud.throwRate Cloud.defaults;
     Cloud.throwTypes := Cloud.throwTypes Cloud.defaults;
     Cloud.throwColors := Cloud.throwColors Cloud.defaults;
     Cloud.throwInertiaFactor := Cloud.throwInertiaFactor Cloud.defaults;
     Cloud.throwFrom := Cloud.throwFrom Cloud.defaults;
     Cloud.maxLag := Cloud.maxLag Cloud.defaults;
     Cloud.maxToDelete := Cloud.maxToDelete Cloud.defaults |}.

(** The cloud that the constructor builds, with the default emitters. *)
Definition cloud (pool : nat) (starters : Q) : Cloud.t :=
  match Cloud.initialize math (options pool starters) screen (world (1 # 2) 1000) with
  | Done (c, _) => c
  | _ => {| Cloud.options := options pool starters; Cloud.viewPortSize := screen;
            Cloud.activeSpecks := 0; Cloud.specks := []; Cloud.breezes := [];
            Cloud.throw := ∅ |}
  end.

(** The record of a speck that has been reset. *)
Definition data (s : Speck.t) : Speck.Data :=
  match s with
  | Speck.Init d => d
  | Speck.Blank =>
      {| Speck.attributes :=
           {| Speck.position := None; Speck.color := ""; Speck.life := 0;
              Speck.lifeLeft := 0; Speck.flashAngle := 0; Speck.flashRotateAngle := 0;
              Speck.wieght := 0; Speck.density := 0; Speck.radius := 0;
              Speck.flashLifePart := None; Speck.colorSaturation := None |};
         Speck.inertia := Vec.mk 0 0 0; Speck.force := Vec.mk 0 0 0;
         Speck.gravity := 0; Speck.wave := []; Speck.start := 0 |}
  end.

(** A speck reset at the centre of the screen with a given inertia; with
    every draw 1/2 its life is 4 seconds. *)
Definition speck : Speck.t :=
  fst (Speck.reset math
         {| Speck.opt_position := Some (Vec.mk 0 0 0);
            Speck.opt_inertia := Some (Vec.mk 1 1 1);
            Speck.opt_color := None |} (world (1 # 2) 1000)).

(** A breeze from the bottom edge upwards, of power 100 along y and no
    back power, on a view-port 4 wide and 2 high. *)
Definition wind : Breeze.t :=
  Breeze.initialize
    {| Breeze.opt_type := Some Breeze.Up;
       Breeze.opt_power := Some (Vec2.mk 0 100);
       Breeze.opt_musicFactor := None;
       Breeze.opt_waveSpreadMin := None;
       Breeze.opt_waveSpreadMax := None;
       Breeze.size := {| width := 4; height := 2 |} |}.

(** [speck] moved to the height [y]. *)
Definition speck_at (y : Q) : Speck.Data :=
  Speck.set_attributes
    (Speck.set_position (Some (Vec.mk 0 y 0)) (Speck.attributes (data speck)))
    (data speck).

(** The pool of Scenario D: 1000 slots, all of them starter specks, each
    with 4 seconds to live; kept in evaluated form. *)
Definition thousand : Cloud.t := Eval vm_compute in cloud 1000 1000.

(** Draws that cycle through 0, 1/7, .., 6/7, and a clock that advances
    16 ms at each reading. *)
Definition varied : World :=
  {| seed := fun n => Z.of_nat (n mod 7) # 7; draws := 0;
     clock := fun n => (1000 + 16 * Z.of_nat n)%Z; reads := 0 |}.

(** A pool of 6 slots with 5 starter specks whose lives differ: about
    3.29, 3, 4.71, 4.43 and 4.14 seconds. *)
Definition crowd : outcome (Cloud.t * World) :=
  Cloud.initialize math (options 6 5) screen varied.

Definition crowd_pool : Cloud.t :=
  match crowd with
  | Done (c, _) => c
  | _ => cloud 0 0
  end.

Definition crowd_world : World :=
  match crowd with
  | Done (_, w) => w
  | _ => varied
  end.

(** The crowd after a frame of 3.5 seconds, in which the specks of slots 0
    and 1 die. *)
Definition after_frame : outcome (Cloud.t * World) :=
  Cloud._animate math (7 # 2) crowd_pool crowd_world.

Definition after_pool : Cloud.t :=
  match after_frame with
  | Done (c, _) => c
  | _ => crowd_pool
  end.

Definition after_world : World :=
  match after_frame with
  | Done (_, w) => w
  | _ => crowd_world
  end.


(** A store with an options object at 1, [{position: <2>, inertia: <3>,
    color: "#fff"}], the position [{x: 0, y: 0, z: 0}] at 2 and the inertia
    [{x: 1, y: 2, z: 3}] at 3. *)
Definition heap : gmap Store.loc (gmap string Store.val) :=
  <[1%positive := <["position" := Store.Ref 2%positive]>
                    (<["inertia" := Store.Ref 3%positive]>
                       (<["color" := Store.Str "#fff"]> ∅))]>
    (<[2%positive := Store.vec 0 0 0]>
       (<[3%positive := Store.vec 1 2 3]> ∅)).

(** A clock that reads 1000 and 1016 on two frames, then stalls until
    3000: the first reading is for the reset of [speck]. *)
Definition stalled : World :=
  {| seed := fun _ => 1 # 2; draws := 0;
     clock := fun n => match n with
                       | O | S O => 1000%Z
                       | S (S O) => 1016%Z
                       | _ => 3000%Z
                       end;
     reads := 0 |}.

(** [speck] after two frames of a breeze: two pieces are queued, due at
    1450 and 1466. *)
Definition lagging : outcome (Speck.t * World) :=
  let '(s, w) :=
    Speck.reset math
      {| Speck.opt_position := Some (Vec.mk 0 0 0);
         Speck.opt_inertia := Some (Vec.mk 1 1 1);
         Speck.opt_color := None |} stalled in
  '(s, w) ← Speck.setForce (Vec2.mk 0 (-10)) (Vec2.mk 0 5) s w;
  Speck.setForce (Vec2.mk 0 (-10)) (Vec2.mk 0 7) s w.

Definition loud : list Byte.byte := replicate 1024 Byte.xff.

End Sample.


(** * Properties *)

(** ** Comparisons of rationals *)

Lemma Qltb_lt (a b : Q) : (a <? b) = true <-> a < b.
Proof. unfold Qltb, Qlt. apply Z.ltb_lt. Qed.

Lemma Qltb_ge (a b : Q) : (a <? b) = false <-> b <= a.
Proof. unfold Qltb, Qle. apply Z.ltb_ge. Qed.

Lemma Qleb_le (a b : Q) : (a <=? b) = true <-> a <= b.
Proof. apply Qle_bool_iff. Qed.

Lemma Qleb_gt (a b : Q) : (a <=? b) = false <-> b < a.
Proof. unfold Qle_bool, Qlt. apply Z.leb_gt. Qed.

(** ** Speck: [fly] and [isDead] *)

Lemma isDead_true (d : Speck.Data) :
  Speck.isDead (Speck.Init d) = true <-> Speck.lifeLeft (Speck.attributes d) <= 0.
Proof. apply Qleb_le. Qed.

Lemma isDead_false (d : Speck.Data) :
  Speck.isDead (Speck.Init d) = false <-> 0 < Speck.lifeLeft (Speck.attributes d).
Proof. apply Qleb_gt. Qed.

(** [fly] on a speck that has a position returns; the remaining life drops
    by [dt], the position is still there, and nothing else moves when the
    speck is dead on return. *)
Lemma fly_positioned (dt : Q) (d : Speck.Data) (p : Vec.t) :
  Speck.position (Speck.attributes d) = Some p ->
  exists d',
    Speck.fly dt (Speck.Init d) = Done (Speck.Init d') /\
    Speck.lifeLeft (Speck.attributes d') = Speck.lifeLeft (Speck.attributes d) - dt /\
    Speck.life (Speck.attributes d') = Speck.life (Speck.attributes d) /\
    is_Some (Speck.position (Speck.attributes d')) /\
    (Speck.lifeLeft (Speck.attributes d) - dt <= 0 ->
     Speck.position (Speck.attributes d') = Some p /\
     Speck.inertia d' = Speck.inertia d /\ Speck.force d' = Speck.force d /\
     Speck.wave d' = Speck.wave d).
Proof.
  intros Hp. unfold Speck.fly. cbn [Speck.lifeLeft Speck.set_lifeLeft].
  destruct (Qle_bool _ 0) eqn:E.
  - eexists; split; [reflexivity|]. cbn. rewrite Hp. eauto 10.
  - apply Qleb_gt in E.
    destruct (Qle_bool _ Speck.flashTime); cbn; rewrite Hp;
      (eexists; split; [reflexivity|]); cbn;
      (repeat split; eauto; intros; lra).
Qed.

Lemma Qsum_cons (dt : Q) (dts : list Q) : Qsum (dt :: dts) = dt + Qsum dts.
Proof. reflexivity. Qed.






(** ** Speck: [setForce] *)

Lemma pushed_not_elapsed (now : Z) (back : Vec2.t) : elapsed now (pushed now back) = false.
Proof.
  apply Qltb_ge. unfold pushed, Speck.waveLag, Speck.wavePrecision. cbn [Speck.time].
  apply Qplus_le_r. vm_compute. discriminate.
Qed.

(** One call of [setForce] at the instant [now]: the new piece goes to the
    back of the queue; the piece at the front is taken out, and its power
    added to the direct force, exactly when its time has come; the x and y
    of the pending force are then those of the direct force. *)
Lemma setForce_at_spec (now : Z) (direct back : Vec2.t) (d : Speck.Data) :
  let d' := Speck.setForce_at now direct back d in
  Speck.attributes d' = Speck.attributes d /\
  Speck.inertia d' = Speck.inertia d /\
  Vec.z (Speck.force d') = Vec.z (Speck.force d) /\
  last (Speck.wave d') = Some (pushed now back) /\
  match Speck.wave d with
  | [] =>
      Speck.wave d' = [pushed now back] /\
      Vec.x (Speck.force d') = Vec2.x direct /\ Vec.y (Speck.force d') = Vec2.y direct
  | p :: rest =>
      if elapsed now p
      then Speck.wave d' = rest ++ [pushed now back] /\
           Vec.x (Speck.force d') = Vec2.x direct + Vec2.x (Speck.power p) /\
           Vec.y (Speck.force d') = Vec2.y direct + Vec2.y (Speck.power p)
      else Speck.wave d' = Speck.wave d ++ [pushed now back] /\
           Vec.x (Speck.force d') = Vec2.x direct /\ Vec.y (Speck.force d') = Vec2.y direct
  end.
Proof.
  unfold Speck.setForce_at. fold (pushed now back).
  destruct (Speck.wave d) as [|p rest] eqn:Hw; cbn [app].
  - fold (elapsed now (pushed now back)). rewrite pushed_not_elapsed. cbn. auto 10.
  - fold (elapsed now p). destruct (elapsed now p); cbn.
    + repeat split; auto. apply last_snoc.
    + repeat split; auto. rewrite app_comm_cons. apply last_snoc.
Qed.

(** C7, as stated, fails on a speck whose queue begins with two pieces that
    are both due.  [Sample.lagging] has pieces due at 1450 and 1466; the
    clock then reads 3000 twice.  The first call takes out the piece due at
    1450, the second call the one due at 1466, whose power 7 is added to the
    second call's own direct force -20. *)
Lemma setForce_twice_with_backlog :
  exists s w s1 w1 s2 w2,
    Sample.lagging = Done (s, w) /\
    clock w (reads w) = 3000%Z /\
    clock w (S (reads w)) = 3000%Z /\
    Speck.setForce (Vec2.mk 0 (-10)) (Vec2.mk 0 1) s w = Done (s1, w1) /\
    Speck.setForce (Vec2.mk 0 (-20)) (Vec2.mk 0 2) s1 w1 = Done (s2, w2) /\
    Vec.y <$> force_of s2 = Some (-13 # 1) /\
    ~ (-13 # 1) == Vec2.y (Vec2.mk 0 (-20)).
Proof.
  do 6 eexists.
  split; [vm_compute; reflexivity|].
  split; [reflexivity|]. split; [reflexivity|].
  split; [vm_compute; reflexivity|].
  split; [vm_compute; reflexivity|].
  split; [vm_compute; reflexivity|].
  vm_compute. discriminate.
Qed.

(** C7, amended: [setForce] pushes a piece due at [now + waveLag] with the
    back force as its power, takes the piece at the front of the queue into
    the direct force only when that piece is due (within [wavePrecision]),
    and sets the x and y of the pending force to the resulting direct
    force.  Hence, on a speck whose queue does not begin with two due
    pieces (a speck just reset has an empty queue), two calls between which
    the clock does not advance leave the pending force of the second call
    equal to its own direct force, with the piece of the first call still
    queued. *)
Theorem setForce_push_pop (d : Speck.Data) (w : World) (direct back : Vec2.t) :
  let now := clock w (reads w) in
  (exists d1 w1,
     Speck.setForce direct back (Speck.Init d) w = Done (Speck.Init d1, w1) /\
     last (Speck.wave d1) = Some (pushed now back) /\
     Vec.z (Speck.force d1) = Vec.z (Speck.force d) /\
     match Speck.wave d with
     | [] =>
         Speck.wave d1 = [pushed now back] /\
         Vec.x (Speck.force d1) = Vec2.x direct /\
         Vec.y (Speck.force d1) = Vec2.y direct
     | p :: rest =>
         if elapsed now p
         then Speck.wave d1 = rest ++ [pushed now back] /\
              Vec.x (Speck.force d1) = Vec2.x direct + Vec2.x (Speck.power p) /\
              Vec.y (Speck.force d1) = Vec2.y direct + Vec2.y (Speck.power p)
         else Speck.wave d1 = Speck.wave d ++ [pushed now back] /\
              Vec.x (Speck.force d1) = Vec2.x direct /\
              Vec.y (Speck.force d1) = Vec2.y direct
     end) /\
  (forall direct2 back2,
     clock w (S (reads w)) = now ->
     backlog now (Speck.wave d) = false ->
     exists d1 w1 d2 w2,
       Speck.setForce direct back (Speck.Init d) w = Done (Speck.Init d1, w1) /\
       Speck.setForce direct2 back2 (Speck.Init d1) w1 = Done (Speck.Init d2, w2) /\
       Vec.x (Speck.force d2) = Vec2.x direct2 /\
       Vec.y (Speck.force d2) = Vec2.y direct2 /\
       pushed now back ∈ Speck.wave d2).
Proof.
  intros now. split.
  - do 2 eexists. split; [reflexivity|].
    destruct (setForce_at_spec now direct back d) as (_ & _ & Hz & Hlast & Hcase).
    auto.
  - intros direct2 back2 Hclock Hback.
    do 4 eexists. split; [reflexivity|]. split; [reflexivity|].
    cbn [clock reads]. fold now. rewrite Hclock.
    set (d1 := Speck.setForce_at now direct back d).
    destruct (setForce_at_spec now direct back d) as (_ & _ & _ & _ & Hcase).
    fold d1 in Hcase.
    destruct (setForce_at_spec now direct2 back2 d1) as (_ & _ & _ & _ & Hcase2).
    set (d2 := Speck.setForce_at now direct2 back2 d1) in *.
    assert (Hnew : elapsed now (pushed now back) = false) by apply pushed_not_elapsed.
    destruct (Speck.wave d) as [|p rest] eqn:Hw.
    + destruct Hcase as (Hw1 & _). rewrite Hw1 in Hcase2. rewrite Hnew in Hcase2.
      destruct Hcase2 as (Hw2 & Hx & Hy). rewrite Hw2.
      repeat split; auto. cbn. set_solver.
    + destruct (elapsed now p) eqn:Hp.
      * destruct Hcase as (Hw1 & _). rewrite Hw1 in Hcase2.
        destruct rest as [|q rest]; cbn [app] in Hcase2.
        -- rewrite Hnew in Hcase2. destruct Hcase2 as (Hw2 & Hx & Hy).
           rewrite Hw2. repeat split; auto. set_solver.
        -- cbn [backlog] in Hback. rewrite Hp in Hback. cbn in Hback.
           rewrite Hback in Hcase2. destruct Hcase2 as (Hw2 & Hx & Hy).
           rewrite Hw2. repeat split; auto. set_solver.
      * destruct Hcase as (Hw1 & _). rewrite Hw1 in Hcase2.
        cbn [app] in Hcase2. rewrite Hp in Hcase2.
        destruct Hcase2 as (Hw2 & Hx & Hy).
        rewrite Hw2. repeat split; auto. set_solver.
Qed.

Lemma setForce_push_pop_witness :
  exists d1 w1 d2 w2,
    Speck.setForce (Vec2.mk 0 (-10)) (Vec2.mk 0 1)
      (Speck.Init (Sample.data Sample.speck)) (Sample.world (1 # 2) 1000)
    = Done (Speck.Init d1, w1) /\
    Speck.setForce (Vec2.mk 0 (-20)) (Vec2.mk 0 2) (Speck.Init d1) w1
    = Done (Speck.Init d2, w2) /\
    Vec.x (Speck.force d2) = 0 /\
    Vec.y (Speck.force d2) = -20 /\
    pushed 1000 (Vec2.mk 0 1) ∈ Speck.wave d2.
Proof.
  apply (proj2 (setForce_push_pop (Sample.data Sample.speck) (Sample.world (1 # 2) 1000)
                  (Vec2.mk 0 (-10)) (Vec2.mk 0 1))).
  - reflexivity.
  - vm_compute. reflexivity.
Defined.

(** ** Breeze: [setPower] *)

(** C4, as stated, fails: the power along the breeze is the whole force, not
    the force less the spread.  With magnitude 1, music factor 4 and the draw
    1/2 the force is 4 and the spread 4 * (1/2 * 0.3 + 0.2) = 1.4: the power
    along y is 4, and it is the back power along y that is 4 - 1.4. *)
Lemma setPower_power_is_whole_force :
  let b' := fst (Breeze.setPower 1 Sample.wind (Sample.world (1 # 2) 1000)) in
  Breeze.direction b' = Breeze.Y /\
  Vec2.y (Breeze.power (Breeze.attributes b')) == 4 /\
  Vec2.y (Breeze.backPower b') == 4 - (14 # 10) /\
  Vec2.x (Breeze.backPower b') == 14 # 10 /\
  ~ Vec2.y (Breeze.power (Breeze.attributes b')) == 4 - (14 # 10).
Proof.
  cbv zeta. split; [reflexivity|].
  split; [reflexivity|]. split; [reflexivity|]. split; [reflexivity|].
  vm_compute. discriminate.
Qed.

(** C4, amended: [setPower] computes [force = overall * musicFactor] and,
    from one draw, a spread that is a fraction between [waveSpreadMin] and
    [waveSpreadMax] of that force; the power is the whole force along the
    breeze and zero across it; the back power is the force less the spread
    along the breeze and the spread across it. *)
Theorem setPower_split (overall : Q) (b : Breeze.t) (w : World) :
  unit_interval w ->
  Breeze.waveSpreadMin (Breeze.attributes b) <= Breeze.waveSpreadMax (Breeze.attributes b) ->
  exists fraction,
    Breeze.waveSpreadMin (Breeze.attributes b) <= fraction /\
    fraction <= Breeze.waveSpreadMax (Breeze.attributes b) /\
    let force := overall * Breeze.musicFactor (Breeze.attributes b) in
    let spread := force * fraction in
    let b' := fst (Breeze.setPower overall b w) in
    let along := Breeze.direction b in
    draws (snd (Breeze.setPower overall b w)) = S (draws w) /\
    Breeze.direction b' = along /\
    Breeze.type (Breeze.attributes b') = Breeze.type (Breeze.attributes b) /\
    Breeze.at_axis along (Breeze.power (Breeze.attributes b')) = force /\
    Breeze.at_axis (across along) (Breeze.power (Breeze.attributes b')) = 0 /\
    Breeze.at_axis along (Breeze.backPower b') = force - spread /\
    Breeze.at_axis (across along) (Breeze.backPower b') = spread.
Proof.
  intros Hw Hspread.
  exists (seed w (draws w)
          * (Breeze.waveSpreadMax (Breeze.attributes b)
             - Breeze.waveSpreadMin (Breeze.attributes b))
          + Breeze.waveSpreadMin (Breeze.attributes b)).
  destruct (Hw (draws w)) as [H0 H1].
  split; [nra|]. split; [nra|].
  unfold Breeze.setPower. cbn.
  destruct (Breeze.direction b); cbn; auto 10.
Qed.

Lemma setPower_split_witness :
  exists fraction,
    (2 # 10) <= fraction /\ fraction <= (5 # 10) /\
    let b' := fst (Breeze.setPower 1 Sample.wind (Sample.world (1 # 2) 1000)) in
    Vec2.y (Breeze.power (Breeze.attributes b')) = 1 * 4 /\
    Vec2.x (Breeze.power (Breeze.attributes b')) = 0 /\
    Vec2.y (Breeze.backPower b') = 1 * 4 - 1 * 4 * fraction /\
    Vec2.x (Breeze.backPower b') = 1 * 4 * fraction.
Proof.
  destruct (setPower_split 1 Sample.wind (Sample.world (1 # 2) 1000))
    as (fraction & Hmin & Hmax & _ & _ & _ & Hp & Hq & Hb & Hs).
  - intros n. cbn. split; [discriminate | reflexivity].
  - cbn. discriminate.
  - exists fraction. cbn in *. auto 10.
Defined.

(** ** Breeze: [_findForce] and [apply] *)






(** ** Arrays *)

Lemma lookupZ_Some {A : Type} (l : list A) (i : Z) (x : A) :
  lookupZ l i = Some x <-> (0 <= i)%Z /\ l !! Z.to_nat i = Some x.
Proof.
  unfold lookupZ. destruct (Z.ltb_spec i 0); split.
  - discriminate.
  - intros [? _]. lia.
  - auto.
  - intros [_ ?]. assumption.
Qed.

Lemma lookupZ_is_Some {A : Type} (l : list A) (i : Z) :
  is_Some (lookupZ l i) <-> (0 <= i < Z.of_nat (length l))%Z.
Proof.
  unfold lookupZ. destruct (Z.ltb_spec i 0).
  - split; [intros [? ?]; discriminate | lia].
  - rewrite lookup_lt_is_Some. lia.
Qed.

Lemma lookupZ_None {A : Type} (l : list A) (i : Z) :
  lookupZ l i = None <-> (i < 0 \/ Z.of_nat (length l) <= i)%Z.
Proof.
  rewrite eq_None_not_Some, lookupZ_is_Some. lia.
Qed.

(** ** The oracles *)

Lemma same_oracles_refl (w : World) : same_oracles w w.
Proof. split; reflexivity. Qed.

Lemma same_oracles_trans (w1 w2 w3 : World) :
  same_oracles w1 w2 -> same_oracles w2 w3 -> same_oracles w1 w3.
Proof. intros [? ?] [? ?]. split; congruence. Qed.

Lemma unit_interval_same (w w' : World) :
  same_oracles w w' -> unit_interval w -> unit_interval w'.
Proof. intros [Hs _] H n. rewrite Hs. apply H. Qed.

(** ** Speck: [reset] *)

Lemma reset_spec (M : Math) (o : Speck.Options) (w : World) :
  reset_from o (fst (Speck.reset M o w)) /\
  same_oracles w (snd (Speck.reset M o w)) /\
  (unit_interval w -> alive (fst (Speck.reset M o w))).
Proof.
  unfold Speck.reset. cbn [Date_getTime].
  destruct (Speck.opt_inertia o) as [v|] eqn:Hv; cbn.
  - split; [|split].
    + eexists. split; [reflexivity|]. cbn. rewrite Hv.
      repeat split; auto. intros v' Hv'. congruence.
    + split; reflexivity.
    + intros Hw. eexists. split; [reflexivity|]. cbn.
      destruct (Hw (draws w)) as [H0 _].
      unfold Speck.maxLife, Speck.minLife. nra.
  - split; [|split].
    + eexists. split; [reflexivity|]. cbn. rewrite Hv.
      repeat split; auto. intros v' Hv'. discriminate.
    + split; reflexivity.
    + intros Hw. eexists. split; [reflexivity|]. cbn.
      destruct (Hw (S (S (S (draws w))))) as [H0 _].
      unfold Speck.maxLife, Speck.minLife. nra.
Qed.

(** ** Cloud: [throwSpecks] *)

Lemma generateThrowDirection_spec (M : Math) (c : Cloud.t) (type : string) (w : World) :
  let o := fst (Cloud.generateThrowDirection M c type w) in
  same_oracles w (snd (Cloud.generateThrowDirection M c type w)) /\
  match Cloud.throw c !! type with
  | None => Speck.opt_position o = None /\ Speck.opt_inertia o = None /\
            Speck.opt_color o = None
  | Some params =>
      is_Some (Speck.opt_position o) /\ is_Some (Speck.opt_inertia o) /\
      Speck.opt_color o = Some (Cloud.color params)
  end.
Proof.
  unfold Cloud.generateThrowDirection. cbn [Math_random].
  destruct (Cloud.throw c !! type) as [params|]; cbn.
  - destruct (Cloud.from params); cbn; (split; [split; reflexivity|]); eauto.
  - split; [split; reflexivity|]. auto.
Qed.

Lemma throw_one (M : Math) (c : Cloud.t) (type : string) (w : World) :
  let data := Cloud.generateThrowDirection M c type w in
  let r := Speck.reset M (fst data) (snd data) in
  thrown c type w (fst r) /\ same_oracles w (snd r).
Proof.
  cbv zeta.
  destruct (generateThrowDirection_spec M c type w) as [Hw Ho].
  destruct (Cloud.generateThrowDirection M c type w) as [o w1]. cbn [fst snd] in *.
  destruct (reset_spec M o w1) as ((d & Hd & Hpos & Hcol & Hlife & Hwave & _) & Hw2 & Halive).
  split; [|eapply same_oracles_trans; eassumption].
  exists d. split; [exact Hd|]. split; [exact Hlife|]. split; [exact Hwave|]. split.
  - intros Hu. destruct Halive as (d' & Hd' & Hpos').
    + eapply unit_interval_same; eassumption.
    + rewrite Hd in Hd'. injection Hd' as <-. exact Hpos'.
  - destruct (Cloud.throw c !! type) as [params|].
    + destruct Ho as (Hp & _ & Hc). rewrite Hpos, Hcol, Hc. auto.
    + destruct Ho as (Hp & _ & Hc). rewrite Hpos, Hcol, Hp, Hc. auto.
Qed.

(** An integer counter is below a number exactly when it is below the
    ceiling of the number. *)
Lemma below_ceiling (i : Z) (q : Q) : inject_Z i < q <-> (i < Qceiling q)%Z.
Proof.
  split.
  - intros H. rewrite Zlt_Qlt.
    eapply Qlt_le_trans; [exact H | apply Qle_ceiling].
  - intros H. eapply Qle_lt_trans; [|apply Qceiling_lt].
    rewrite <- Zle_Qle. lia.
Qed.

Lemma thrown_transport (c c' : Cloud.t) (type : string) (w w' : World) (s : Speck.t) :
  Cloud.throw c' = Cloud.throw c -> same_oracles w w' ->
  thrown c' type w' s -> thrown c type w s.
Proof.
  intros Ht Hw (d & Hd & Hl & Hwv & Ha & Hp).
  exists d. rewrite <- Ht. repeat split; auto.
  intros Hu. apply Ha. eapply unit_interval_same; eassumption.
Qed.

Lemma throw_loop_spec (M : Math) (type : string) (num : Q) (fuel : nat) :
  forall (i : Z) (c : Cloud.t) (w : World),
    (0 <= Cloud.activeSpecks c)%Z -> (0 <= i)%Z ->
    (Z.max 0 (Z.of_nat (length (Cloud.specks c)) - (Cloud.activeSpecks c + i))
     < Z.of_nat fuel)%Z ->
    let free := (Z.of_nat (length (Cloud.specks c)) - Cloud.activeSpecks c)%Z in
    let k := Z.max i (Z.min (Qceiling num) free) in
    exists c' w',
      Cloud.throw_loop M fuel type num i c w = Done (k, c', w') /\
      same_frame c c' /\
      Cloud.activeSpecks c' = Cloud.activeSpecks c /\
      same_oracles w w' /\
      (forall j : nat,
         (Cloud.activeSpecks c + i <= Z.of_nat j < Cloud.activeSpecks c + k)%Z ->
         exists s, Cloud.specks c' !! j = Some s /\ thrown c type w s) /\
      (forall j : nat,
         ~ (Cloud.activeSpecks c + i <= Z.of_nat j < Cloud.activeSpecks c + k)%Z ->
         Cloud.specks c' !! j = Cloud.specks c !! j).
Proof.
  induction fuel as [|fuel IH]; intros i c w Ha Hi Hfuel free k; [lia|].
  cbn [Cloud.throw_loop].
  destruct (inject_Z i <? num) eqn:Hnum.
  - apply Qltb_lt, below_ceiling in Hnum.
    destruct (lookupZ (Cloud.specks c) (Cloud.activeSpecks c + i)) as [old|] eqn:Hold.
    + assert (Hin : (0 <= Cloud.activeSpecks c + i < Z.of_nat (length (Cloud.specks c)))%Z)
        by (apply lookupZ_is_Some; eauto).
      destruct (throw_one M c type w) as [Hthrown Hw1].
      destruct (Cloud.generateThrowDirection M c type w) as [data w0].
      cbn [fst snd] in Hthrown, Hw1.
      destruct (Speck.reset M data w0) as [speck w1]. cbn [fst snd] in Hthrown, Hw1.
      set (c1 := Cloud.set_specks _ c).
      assert (Hlen : length (Cloud.specks c1) = length (Cloud.specks c))
        by (cbn; apply length_insert).
      destruct (IH (i + 1)%Z c1 w1) as (c' & w' & Hloop & Hframe & Hact & Hw' & Hnew & Hold');
        [exact Ha | lia | rewrite Hlen; cbn; lia |].
      rewrite Hlen in Hloop, Hnew, Hold'.
      change (Cloud.activeSpecks c1) with (Cloud.activeSpecks c) in *.
      assert (Hk : Z.max (i + 1)
                     (Z.min (Qceiling num)
                        (Z.of_nat (length (Cloud.specks c)) - Cloud.activeSpecks c)) = k)
        by (unfold k, free; lia).
      rewrite Hk in Hloop, Hnew, Hold'.
      exists c', w'. split; [exact Hloop|].
      split; [|split; [exact Hact|split; [eapply same_oracles_trans; eassumption|split]]].
      * destruct Hframe as (? & ? & ? & ? & Hl). repeat split; auto. congruence.
      * intros j Hj.
        destruct (decide (Z.of_nat j = Cloud.activeSpecks c + i)%Z) as [Heq|Hne].
        -- exists speck. split; [|exact Hthrown].
           rewrite Hold' by lia. cbn.
           replace (Z.to_nat (Cloud.activeSpecks c + i)) with j by lia.
           apply list_lookup_insert_eq. lia.
        -- destruct (Hnew j) as (s & Hs & Hth); [lia|].
           exists s. split; [exact Hs|].
           eapply thrown_transport; [| exact Hw1 | exact Hth]. reflexivity.
      * intros j Hj. rewrite Hold' by lia. cbn.
        apply list_lookup_insert_ne. lia.
    + apply lookupZ_None in Hold.
      replace k with i by (unfold k, free; lia).
      exists c, w. split; [reflexivity|].
      split; [repeat split|]. split; [reflexivity|]. split; [apply same_oracles_refl|].
      split; [intros j Hj; lia | reflexivity].
  - apply Qltb_ge in Hnum.
    assert (Hceil : (Qceiling num <= i)%Z).
    { destruct (Z.le_gt_cases (Qceiling num) i) as [|Hgt]; [assumption|].
      apply below_ceiling in Hgt. lra. }
    replace k with i by (unfold k, free; lia).
    exists c, w. split; [reflexivity|].
    split; [repeat split|]. split; [reflexivity|]. split; [apply same_oracles_refl|].
    split; [intros j Hj; lia | reflexivity].
Qed.

(** [throwSpecks] returns, whatever the type: it fills the free slots that
    follow the active ones, one for each integer below [rate * throwRate],
    until none is left, and counts them as active. *)
Lemma throwSpecks_spec (M : Math) (type : string) (rate : Q) (c : Cloud.t) (w : World) :
  (0 <= Cloud.activeSpecks c)%Z ->
  let free := (Z.of_nat (length (Cloud.specks c)) - Cloud.activeSpecks c)%Z in
  let k := Z.max 0 (Z.min (Qceiling (rate * Cloud.throwRate (Cloud.options c))) free) in
  exists c' w',
    Cloud.throwSpecks M type rate c w = Done (c', w') /\
    same_frame c c' /\
    same_oracles w w' /\
    Cloud.activeSpecks c' = (Cloud.activeSpecks c + k)%Z /\
    (forall j : nat,
       (Cloud.activeSpecks c <= Z.of_nat j < Cloud.activeSpecks c + k)%Z ->
       exists s, Cloud.specks c' !! j = Some s /\ thrown c type w s) /\
    (forall j : nat,
       ~ (Cloud.activeSpecks c <= Z.of_nat j < Cloud.activeSpecks c + k)%Z ->
       Cloud.specks c' !! j = Cloud.specks c !! j).
Proof.
  intros Ha free k. unfold Cloud.throwSpecks.
  destruct (throw_loop_spec M type (rate * Cloud.throwRate (Cloud.options c))
              (S (length (Cloud.specks c))) 0 c w)
    as (c' & w' & Hloop & Hframe & Hact & Hw & Hnew & Hold); [exact Ha | lia | lia |].
  rewrite Hloop. cbn [mbind outcome_bind mret outcome_ret].
  fold free in Hloop, Hnew, Hold. fold k in Hloop, Hnew, Hold.
  rewrite Z.add_0_r in Hnew, Hold.
  exists (Cloud.set_activeSpecks (Cloud.activeSpecks c' + k) c'), w'.
  split; [reflexivity|]. split; [exact Hframe|]. split; [exact Hw|].
  split; [cbn; lia|]. split; assumption.
Qed.

(** C1, as stated, fails for a rate that is not a whole number of specks:
    on a pool of 2 free slots with the default [throwRate] 1, the rate 1/2
    throws one speck of the registered group "bitBass", where
    min(floor(1/2 * 1), 2) is 0. *)
Lemma throwSpecks_half_rate_throws_one :
  let c := Sample.cloud 2 0 in
  is_Some (Cloud.throw c !! "bitBass") /\
  Cloud.activeSpecks c = 0%Z /\
  length (Cloud.specks c) = 2%nat /\
  Cloud.activeSpecks <$>
    pool_of (Cloud.throwSpecks Sample.math "bitBass" (1 # 2) c (Sample.world (1 # 2) 1000))
  = Some 1%Z /\
  Z.min (Qfloor ((1 # 2) * Cloud.throwRate (Cloud.options c)))
        (Z.of_nat (length (Cloud.specks c)) - Cloud.activeSpecks c) = 0%Z.
Proof.
  cbv zeta. split; [vm_compute; eauto|].
  repeat split; vm_compute; reflexivity.
Qed.

(** C1, amended: for a group with a registered emitter and a non-negative
    rate, [throwSpecks] activates exactly min(ceil(rate * throwRate), free
    slots) specks: [activeSpecks] grows by that number, the slots that
    follow the active ones are reset from the emitter, one for each, and no
    other slot changes. *)
Theorem throwSpecks_count (M : Math) (type : string) (rate : Q) (c : Cloud.t) (w : World)
    (params : Cloud.ThrowParams) :
  Cloud.throw c !! type = Some params ->
  0 <= rate ->
  0 <= Cloud.throwRate (Cloud.options c) ->
  (0 <= Cloud.activeSpecks c <= Z.of_nat (length (Cloud.specks c)))%Z ->
  let free := (Z.of_nat (length (Cloud.specks c)) - Cloud.activeSpecks c)%Z in
  let k := Z.min (Qceiling (rate * Cloud.throwRate (Cloud.options c))) free in
  exists c' w',
    Cloud.throwSpecks M type rate c w = Done (c', w') /\
    Cloud.activeSpecks c' = (Cloud.activeSpecks c + k)%Z /\
    length (Cloud.specks c') = length (Cloud.specks c) /\
    (forall j : nat,
       (Cloud.activeSpecks c <= Z.of_nat j < Cloud.activeSpecks c + k)%Z ->
       exists d,
         Cloud.specks c' !! j = Some (Speck.Init d) /\
         Speck.lifeLeft (Speck.attributes d) = Speck.life (Speck.attributes d) /\
         Speck.wave d = [] /\
         is_Some (Speck.position (Speck.attributes d)) /\
         Speck.color (Speck.attributes d) = Cloud.color params) /\
    (forall j : nat,
       ~ (Cloud.activeSpecks c <= Z.of_nat j < Cloud.activeSpecks c + k)%Z ->
       Cloud.specks c' !! j = Cloud.specks c !! j).
Proof.
  intros Hreg Hrate Hthrow Ha free k.
  destruct (throwSpecks_spec M type rate c w) as (c' & w' & Hrun & Hframe & _ & Hact & Hnew & Hold);
    [lia|].
  assert (Hceil : (0 <= Qceiling (rate * Cloud.throwRate (Cloud.options c)))%Z).
  { rewrite <- (Qceiling_Z 0). apply Qceiling_resp_le.
    change (inject_Z 0) with 0. apply Qmult_le_0_compat; assumption. }
  assert (Hk : Z.max 0 (Z.min (Qceiling (rate * Cloud.throwRate (Cloud.options c)))
                          (Z.of_nat (length (Cloud.specks c)) - Cloud.activeSpecks c)) = k)
    by (unfold k, free; lia).
  rewrite Hk in Hact, Hnew, Hold.
  exists c', w'. split; [exact Hrun|]. split; [exact Hact|].
  split; [apply Hframe|]. split; [|exact Hold].
  intros j Hj. destruct (Hnew j Hj) as (s & Hs & d & Hd & Hl & Hwv & _ & Hp).
  rewrite Hreg in Hp. destruct Hp as [Hpos Hcol].
  exists d. subst s. auto 10.
Qed.

Lemma throwSpecks_count_witness :
  exists c' w',
    Cloud.throwSpecks Sample.math "middleLow" (3 # 2) (Sample.cloud 3 2)
      (Sample.world (1 # 2) 1000) = Done (c', w') /\
    Cloud.activeSpecks c' = (2 + Z.min 2 (3 - 2))%Z /\
    length (Cloud.specks c') = 3%nat.
Proof.
  destruct (throwSpecks_count Sample.math "middleLow" (3 # 2) (Sample.cloud 3 2)
              (Sample.world (1 # 2) 1000)
              {| Cloud.color := "#ffa11b"; Cloud.inertiaFactor := 5 # 10;
                 Cloud.from := Cloud.low_sides |})
    as (c' & w' & Hrun & Hact & Hlen & _).
  - vm_compute. reflexivity.
  - discriminate.
  - vm_compute. discriminate.
  - vm_compute. split; discriminate.
  - exists c', w'. split; [exact Hrun|]. split; [exact Hact | exact Hlen].
Defined.

(** C5 is not what the code does.  "cymbals" has no emitter in the sample
    cloud; [throwSpecks "cymbals" 1] nevertheless resets the first free slot,
    from the empty options, and counts it as active: the speck is alive and
    has no position, and the next animation frame ends in a [TypeError]. *)
Theorem throwSpecks_unknown_group_activates :
  let c := Sample.cloud 2 0 in
  Cloud.throw c !! "cymbals" = None /\
  Cloud.activeSpecks c = 0%Z /\
  Cloud.specks c !! 0%nat = Some Speck.Blank /\
  exists c' w' d,
    Cloud.throwSpecks Sample.math "cymbals" 1 c (Sample.world (1 # 2) 1000) = Done (c', w') /\
    Cloud.activeSpecks c' = 1%Z /\
    Cloud.specks c' !! 0%nat = Some (Speck.Init d) /\
    Speck.position (Speck.attributes d) = None /\
    Speck.isDead (Speck.Init d) = false /\
    Cloud._animate Sample.math (1 # 60) c' w' = TypeError.
Proof.
  cbv zeta. split; [vm_compute; reflexivity|].
  split; [vm_compute; reflexivity|]. split; [vm_compute; reflexivity|].
  do 3 eexists.
  split; [vm_compute; reflexivity|].
  repeat split; vm_compute; reflexivity.
Qed.

(** ** Cloud: the load shedding *)

Lemma shortenLife_idempotent (s : Speck.t) :
  Speck.shortenLife (Speck.shortenLife s) = Speck.shortenLife s.
Proof.
  destruct s as [|d]; [reflexivity|]. unfold Speck.shortenLife.
  destruct (Speck.flashTime <? Speck.lifeLeft (Speck.attributes d)) eqn:E; cbn.
  - reflexivity.
  - rewrite E. reflexivity.
Qed.

(** [_deleteSpecks] returns, and the only slot it can change is the slot
    [num] itself, whose speck has its life shortened. *)
Lemma delete_loop_spec (num : Q) (fuel : nat) :
  forall (i : Z) (c : Cloud.t),
    (Z.max 0 (Qceiling num - i) < Z.of_nat fuel)%Z ->
    exists c',
      Cloud.delete_loop fuel num i c = Done c' /\
      same_frame c c' /\
      Cloud.activeSpecks c' = Cloud.activeSpecks c /\
      forall j : nat,
        Cloud.specks c' !! j = Cloud.specks c !! j \/
        (index_of num = Some j /\
         Cloud.specks c' !! j = Speck.shortenLife <$> Cloud.specks c !! j).
Proof.
  induction fuel as [|fuel IH]; intros i c Hfuel; [lia|].
  cbn [Cloud.delete_loop].
  assert (Hstop : exists c', Done c = Done c' /\ same_frame c c' /\
            Cloud.activeSpecks c' = Cloud.activeSpecks c /\
            forall j : nat,
              Cloud.specks c' !! j = Cloud.specks c !! j \/
              (index_of num = Some j /\
               Cloud.specks c' !! j = Speck.shortenLife <$> Cloud.specks c !! j)).
  { exists c. split; [reflexivity|]. split; [repeat split|]. split; [reflexivity|]. auto. }
  destruct (inject_Z i <? num) eqn:Hnum; [|exact Hstop].
  apply Qltb_lt, below_ceiling in Hnum.
  destruct (index_of num) as [n|] eqn:Hn; [|exact Hstop].
  destruct (Cloud.specks c !! n) as [speck|] eqn:Hspeck; [|exact Hstop].
  set (c1 := Cloud.set_specks _ c).
  destruct (IH (i + 1)%Z c1) as (c' & Hloop & Hframe & Hact & Hslots); [lia|].
  exists c'. split; [exact Hloop|]. split; [|split; [exact Hact|]].
  - destruct Hframe as (? & ? & ? & ? & Hl). repeat split; auto.
    rewrite Hl. cbn. apply length_insert.
  - intros j. destruct (decide (j = n)) as [->|Hne].
    + right. split; [reflexivity|]. rewrite Hspeck. cbn [fmap option_fmap option_map].
      assert (H1 : Cloud.specks c1 !! n = Some (Speck.shortenLife speck)).
      { cbn. apply list_lookup_insert_eq. eapply lookup_lt_Some; eassumption. }
      destruct (Hslots n) as [Hsame | [_ Hshort]].
      * congruence.
      * rewrite Hshort, H1. cbn. rewrite shortenLife_idempotent. reflexivity.
    + left. assert (H1 : Cloud.specks c1 !! j = Cloud.specks c !! j)
        by (cbn; apply list_lookup_insert_ne; congruence).
      destruct (Hslots j) as [Hsame | [Hidx _]]; congruence.
Qed.

Lemma shed_spec (dt : Q) (c : Cloud.t) :
  exists c',
    Cloud.shed dt c = Done c' /\
    same_frame c c' /\
    Cloud.activeSpecks c' = Cloud.activeSpecks c /\
    forall j : nat,
      Cloud.specks c' !! j = Cloud.specks c !! j \/
      Cloud.specks c' !! j = Speck.shortenLife <$> Cloud.specks c !! j.
Proof.
  unfold Cloud.shed.
  destruct (Cloud.maxLag (Cloud.options c) <=? dt).
  - unfold Cloud._deleteSpecks.
    match goal with
    | |- context [Cloud.delete_loop ?f ?n 0 c] =>
        destruct (delete_loop_spec n f 0 c) as (c' & Hrun & Hframe & Hact & Hslots); [lia|]
    end.
    exists c'. split; [exact Hrun|]. split; [exact Hframe|]. split; [exact Hact|].
    intros j. destruct (Hslots j) as [?|[_ ?]]; auto.
  - exists c. split; [reflexivity|]. split; [repeat split|]. split; [reflexivity|]. auto.
Qed.

(** The load shedding does nothing below [maxLag], and above it changes the
    speck of one slot at most. *)
Lemma shed_idle (dt : Q) (c : Cloud.t) :
  dt < Cloud.maxLag (Cloud.options c) -> Cloud.shed dt c = Done c.
Proof.
  intros Hdt. unfold Cloud.shed.
  apply Qleb_gt in Hdt. rewrite Hdt. reflexivity.
Qed.

Lemma shed_one_slot (dt : Q) (c c' : Cloud.t) :
  Cloud.shed dt c = Done c' ->
  exists n : nat, forall j : nat, j <> n -> Cloud.specks c' !! j = Cloud.specks c !! j.
Proof.
  unfold Cloud.shed. destruct (Cloud.maxLag (Cloud.options c) <=? dt).
  - unfold Cloud._deleteSpecks.
    match goal with
    | |- Cloud.delete_loop ?f ?num 0 c = _ -> _ =>
        destruct (delete_loop_spec num f 0 c) as (c0 & Hrun & _ & _ & Hslots); [lia|];
        rewrite Hrun; intros H; injection H as <-;
        destruct (index_of num) as [n|] eqn:Hn
    end.
    + exists n. intros j Hj. destruct (Hslots j) as [Hsame | [Hidx _]]; congruence.
    + exists 0%nat. intros j _. destruct (Hslots j) as [Hsame | [Hidx _]]; congruence.
  - intros H. injection H as <-. exists 0%nat. reflexivity.
Qed.

(** C3 is not what the code does.  On 1000 active specks, each with 4
    seconds left, and [dt = 0.06] with the default [maxLag = 0.03] and
    [maxToDelete = 0.05], the number to delete is min(1000 * 1, 1000 * 0.05)
    = 50; the load shedding shortens the life of one speck, the one in slot
    50, and of none of the slots 0 to 49. *)
Theorem shed_shortens_slot_50_only :
  let c := Sample.thousand in
  c = Sample.cloud 1000 1000 /\
  Cloud.activeSpecks c = 1000%Z /\
  Qmin (1000 * (((6 # 100) - Cloud.maxLag (Cloud.options c)) / Cloud.maxLag (Cloud.options c)))
       (1000 * Cloud.maxToDelete (Cloud.options c)) == 50 /\
  exists c',
    Cloud.shed (6 # 100) c = Done c' /\
    shortened (Cloud.specks c) (Cloud.specks c') = [50%nat] /\
    lifeLeft_of <$> Cloud.specks c !! 50%nat = Some (Some (8 # 2)) /\
    lifeLeft_of <$> Cloud.specks c' !! 50%nat = Some (Some Speck.flashTime).
Proof.
  cbv zeta. split; [vm_compute; reflexivity|].
  split; [reflexivity|]. split; [vm_compute; reflexivity|].
  eexists. split; [vm_compute; reflexivity|].
  repeat split; vm_compute; reflexivity.
Qed.

(** ** Cloud: one turn of the animation loop *)

(** [apply] returns on a positioned speck, and changes neither its
    attributes nor its inertia; on any other speck it throws. *)
Lemma apply_spec (M : Math) (b : Breeze.t) (s : Speck.t) (w : World) :
  (positioned s /\
   exists d d' w',
     s = Speck.Init d /\
     Breeze.apply M b s w = Done (Speck.Init d', w') /\
     Speck.attributes d' = Speck.attributes d /\
     Speck.inertia d' = Speck.inertia d /\
     same_oracles w w') \/
  (~ positioned s /\ Breeze.apply M b s w = TypeError).
Proof.
  destruct s as [|d].
  - right. split; [intros (d & Hd & _); discriminate|].
    unfold Breeze.apply, Breeze._findDistance. cbn [Breeze.position_of].
    destruct (Breeze.type (Breeze.attributes b)); cbn;
      repeat match goal with
        | |- context [Breeze._findForce M b ?a ?dist ?full ?w0] =>
            destruct (Breeze._findForce M b a dist full w0)
        end; reflexivity.
  - destruct (Speck.position (Speck.attributes d)) as [p|] eqn:Hp.
    + left. split; [exists d; split; [reflexivity | rewrite Hp; eauto]|].
      unfold Breeze.apply, Breeze._findDistance. cbn [Breeze.position_of]. rewrite Hp.
      assert (Hforce : forall axis dist full w0,
                 same_oracles w0 (snd (Breeze._findForce M b axis dist full w0))).
      { intros axis dist full w0. unfold Breeze._findForce.
        destruct (Breeze.Axis_eqb _ _); cbn; split; reflexivity. }
      assert (Hset : forall direct back w0,
                 exists d' w',
                   Speck.setForce direct back (Speck.Init d) w0 = Done (Speck.Init d', w') /\
                   Speck.attributes d' = Speck.attributes d /\
                   Speck.inertia d' = Speck.inertia d /\
                   same_oracles w0 w').
      { intros direct back w0. cbn [Speck.setForce Date_getTime].
        do 2 eexists. split; [reflexivity|].
        destruct (setForce_at_spec (clock w0 (reads w0)) direct back d) as (Ha & Hi & _).
        split; [exact Ha|]. split; [exact Hi|]. split; reflexivity. }
      exists d.
      destruct (Breeze.type (Breeze.attributes b));
        cbn [mbind outcome_bind mret outcome_ret];
        repeat match goal with
          | |- context [Breeze._findForce M b ?a ?dist ?full ?w0] =>
              let H := fresh "Hf" in
              pose proof (Hforce a dist full w0) as H;
              destruct (Breeze._findForce M b a dist full w0) as [? ?];
              cbn [fst snd] in H
          end;
        match goal with
        | |- context [Speck.setForce ?direct ?back (Speck.Init d) ?w2] =>
            destruct (Hset direct back w2) as (d' & w' & Hrun & Ha & Hi & Hw)
        end;
        exists d', w'; (split; [reflexivity|]); (split; [exact Hrun|]);
        (split; [exact Ha|]); (split; [exact Hi|]);
        eauto using same_oracles_trans.
    + right. split; [intros (d0 & Hd0 & Hsome); injection Hd0 as <-;
                     rewrite Hp in Hsome; destruct Hsome; discriminate|].
      unfold Breeze.apply, Breeze._findDistance. cbn [Breeze.position_of]. rewrite Hp.
      destruct (Breeze.type (Breeze.attributes b)); cbn;
        repeat match goal with
          | |- context [Breeze._findForce M b ?a ?dist ?full ?w0] =>
              destruct (Breeze._findForce M b a dist full w0)
          end; reflexivity.
Qed.

Lemma apply_breezes_positioned (M : Math) (bs : list Breeze.t) :
  forall (d : Speck.Data) (w : World),
    is_Some (Speck.position (Speck.attributes d)) ->
    exists d' w',
      Cloud.apply_breezes M bs (Speck.Init d) w = Done (Speck.Init d', w') /\
      Speck.attributes d' = Speck.attributes d /\
      same_oracles w w'.
Proof.
  induction bs as [|b bs IH]; intros d w Hp.
  - exists d, w. split; [reflexivity|]. split; [reflexivity | apply same_oracles_refl].
  - cbn [Cloud.apply_breezes].
    destruct (apply_spec M b (Speck.Init d) w)
      as [(_ & d0 & d1 & w1 & Hd & Hrun & Ha & _ & Hw) | (Hnot & _)].
    + injection Hd as <-. rewrite Hrun. cbn [mbind outcome_bind].
      destruct (IH d1 w1) as (d' & w' & Hrest & Ha' & Hw'); [rewrite Ha; exact Hp|].
      exists d', w'. split; [exact Hrest|]. split; [congruence|].
      eapply same_oracles_trans; eassumption.
    + exfalso. apply Hnot. exists d. auto.
Qed.

(** When the breezes return, the speck they return differs from the one
    they were given at most in its pending force and its wave queue. *)
Lemma apply_breezes_done (M : Math) (bs : list Breeze.t) :
  forall (s s' : Speck.t) (w w' : World),
    Cloud.apply_breezes M bs s w = Done (s', w') ->
    same_oracles w w' /\
    Speck.isDead s' = Speck.isDead s /\
    lifeLeft_of s' = lifeLeft_of s /\
    (s = Speck.Blank <-> s' = Speck.Blank).
Proof.
  induction bs as [|b bs IH]; intros s s' w w' Hrun.
  - cbn in Hrun. injection Hrun as <- <-.
    split; [apply same_oracles_refl|]. auto.
  - cbn [Cloud.apply_breezes] in Hrun.
    destruct (apply_spec M b s w)
      as [(_ & d0 & d1 & w1 & Hd & Hone & Ha & _ & Hw) | (_ & Hthrow)].
    + rewrite Hone in Hrun. cbn [mbind outcome_bind] in Hrun.
      destruct (IH _ _ _ _ Hrun) as (Hw' & Hdead & Hlife & Hblank).
      split; [eapply same_oracles_trans; eassumption|].
      subst s. cbn in *. rewrite Ha in *.
      split; [exact Hdead|]. split; [exact Hlife|].
      split; [discriminate|]. intros Hs'. apply Hblank in Hs'. discriminate.
    + rewrite Hthrow in Hrun. discriminate.
Qed.

Lemma fly_done (dt : Q) (s s' : Speck.t) :
  Speck.fly dt s = Done s' ->
  exists d d',
    s = Speck.Init d /\ s' = Speck.Init d' /\
    Speck.lifeLeft (Speck.attributes d') = Speck.lifeLeft (Speck.attributes d) - dt.
Proof.
  destruct s as [|d]; [discriminate|]. unfold Speck.fly.
  cbn [Speck.lifeLeft Speck.set_lifeLeft].
  destruct (Qle_bool _ 0).
  - intros H. injection H as <-. exists d. eexists. split; [reflexivity|].
    split; [reflexivity|]. reflexivity.
  - destruct (Qle_bool _ Speck.flashTime); cbn;
      (destruct (Speck.position (Speck.attributes d)); [|discriminate]);
      intros H; injection H as <-; exists d; eexists;
      (split; [reflexivity|]); (split; [reflexivity|]); reflexivity.
Qed.

(** One turn of the loop that returns: the speck of slot [i], after the
    breezes and [fly], either is alive and back in slot [i], the counter
    unchanged; or is dead, and then it has changed places with the speck of
    slot [activeSpecks - 1], [activeSpecks] is one less and the counter is
    stepped back so that the loop comes to slot [i] again. *)
Lemma animate_body_done (M : Math) (dt : Q) (i : Z) (c : Cloud.t) (w : World)
    (i' : Z) (c' : Cloud.t) (w' : World) :
  (0 <= i)%Z ->
  Cloud.animate_body M dt i c w = Done (i', c', w') ->
  same_oracles w w' /\
  same_frame c c' /\
  exists (s0 : Speck.t) (d0 d : Speck.Data),
    Cloud.specks c !! Z.to_nat i = Some s0 /\
    s0 = Speck.Init d0 /\
    Speck.lifeLeft (Speck.attributes d) = Speck.lifeLeft (Speck.attributes d0) - dt /\
    (is_Some (Speck.position (Speck.attributes d0)) ->
     is_Some (Speck.position (Speck.attributes d))) /\
    ((Speck.isDead (Speck.Init d) = false /\
      i' = i /\
      Cloud.activeSpecks c' = Cloud.activeSpecks c /\
      Cloud.specks c' = <[Z.to_nat i := Speck.Init d]> (Cloud.specks c)) \/
     (Speck.isDead (Speck.Init d) = true /\
      i' = (i - 1)%Z /\
      Cloud.activeSpecks c' = (Cloud.activeSpecks c - 1)%Z /\
      exists last,
        lookupZ (<[Z.to_nat i := Speck.Init d]> (Cloud.specks c)) (Cloud.activeSpecks c - 1)
        = Some last /\
        Cloud.specks c' =
        <[Z.to_nat (Cloud.activeSpecks c - 1) := Speck.Init d]>
          (<[Z.to_nat i := last]> (<[Z.to_nat i := Speck.Init d]> (Cloud.specks c))))).
Proof.
  intros Hi. unfold Cloud.animate_body.
  destruct (lookupZ (Cloud.specks c) i) as [s0|] eqn:Hs0; [|discriminate].
  apply lookupZ_Some in Hs0. destruct Hs0 as [_ Hs0].
  destruct (Cloud.apply_breezes M (Cloud.breezes c) s0 w) as [[s1 w1]| |] eqn:Hb;
    [|discriminate|discriminate].
  cbn [mbind outcome_bind].
  destruct (Speck.fly dt s1) as [speck| |] eqn:Hfly; [|discriminate|discriminate].
  cbn [mbind outcome_bind mret outcome_ret].
  destruct (apply_breezes_done M _ _ _ _ _ Hb) as (Hw & _ & Hlife & Hblank).
  destruct (fly_done dt s1 speck Hfly) as (d1 & d & Hs1 & Hspeck & Hl).
  subst s1 speck.
  destruct s0 as [|d0]; [destruct Hblank as [Hblank _]; specialize (Hblank eq_refl);
                         discriminate|].
  cbn in Hlife. injection Hlife as Hlife.
  assert (Hpos : is_Some (Speck.position (Speck.attributes d0)) ->
                 is_Some (Speck.position (Speck.attributes d))).
  { intros Hp0.
    destruct (apply_breezes_positioned M (Cloud.breezes c) d0 w Hp0)
      as (d1' & w1' & Hb' & Ha & _).
    rewrite Hb in Hb'. injection Hb' as <- <-.
    rewrite <- Ha in Hp0. destruct Hp0 as [p Hp].
    destruct (fly_positioned dt d1 p Hp) as (d' & Hfly' & _ & _ & Hp' & _).
    rewrite Hfly in Hfly'. injection Hfly' as <-. exact Hp'. }
  cbn [Cloud.specks Cloud.set_specks Cloud.activeSpecks].
  destruct (Speck.isDead (Speck.Init d)) eqn:Hdead.
  - destruct (lookupZ _ (Cloud.activeSpecks c - 1)) as [last|] eqn:Hlast; [|discriminate].
    intros H. injection H as <- <- <-.
    split; [exact Hw|]. split.
    { repeat split. cbn. rewrite !length_insert. reflexivity. }
    exists (Speck.Init d0), d0, d. split; [exact Hs0|]. split; [reflexivity|].
    split; [congruence|]. split; [exact Hpos|].
    right. split; [exact Hdead|]. split; [reflexivity|]. split; [reflexivity|].
    exists last. split; [exact Hlast | reflexivity].
  - intros H. injection H as <- <- <-.
    split; [exact Hw|]. split.
    { repeat split. cbn. rewrite length_insert. reflexivity. }
    exists (Speck.Init d0), d0, d. split; [exact Hs0|]. split; [reflexivity|].
    split; [congruence|]. split; [exact Hpos|].
    left. auto.
Qed.

(** The loop, when it returns, leaves no dead speck below [activeSpecks]. *)
Lemma animate_loop_no_dead (M : Math) (dt : Q) (fuel : nat) :
  forall (i : Z) (c : Cloud.t) (w : World) (c' : Cloud.t) (w' : World),
    (0 <= i)%Z ->
    (forall (j : nat) (s : Speck.t),
       (Z.of_nat j < i)%Z -> Cloud.specks c !! j = Some s -> Speck.isDead s = false) ->
    Cloud.animate_loop M fuel dt i c w = Done (c', w') ->
    forall (j : nat) (s : Speck.t),
      (Z.of_nat j < Cloud.activeSpecks c')%Z ->
      Cloud.specks c' !! j = Some s -> Speck.isDead s = false.
Proof.
  induction fuel as [|fuel IH]; intros i c w c' w' Hi Hdone Hrun; [discriminate|].
  cbn [Cloud.animate_loop] in Hrun.
  destruct (Z.ltb_spec i (Cloud.activeSpecks c)) as [Hlt|Hge].
  - destruct (Cloud.animate_body M dt i c w) as [[[i1 c1] w1]| |] eqn:Hbody;
      [|discriminate|discriminate].
    cbn [mbind outcome_bind] in Hrun.
    destruct (animate_body_done M dt i c w i1 c1 w1 Hi Hbody)
      as (_ & _ & s0 & d0 & d & Hs0 & _ & _ & _ & Hcase).
    assert (Hin : (Z.to_nat i < length (Cloud.specks c))%nat)
      by (eapply lookup_lt_Some; eassumption).
    destruct Hcase as [(Hdead & -> & Hact & Hspecks) | (Hdead & -> & Hact & last & _ & Hspecks)].
    + apply (IH (i + 1)%Z c1 w1 c' w'); [lia| |exact Hrun].
      intros j s Hj Hs. rewrite Hspecks in Hs.
      destruct (decide (j = Z.to_nat i)) as [->|Hne].
      * rewrite list_lookup_insert_eq in Hs by exact Hin. congruence.
      * rewrite list_lookup_insert_ne in Hs by congruence.
        apply (Hdone j s); [lia | exact Hs].
    + replace (i - 1 + 1)%Z with i in Hrun by lia.
      apply (IH i c1 w1 c' w'); [lia| |exact Hrun].
      intros j s Hj Hs. rewrite Hspecks in Hs.
      rewrite !list_lookup_insert_ne in Hs by lia.
      apply (Hdone j s); [lia | exact Hs].
  - injection Hrun as <- <-. intros j s Hj Hs. apply (Hdone j s); [lia | exact Hs].
Qed.

(** ** Cloud: the invariant of the pool through an animation frame *)



Lemma shortenLife_positioned (s : Speck.t) : positioned s -> positioned (Speck.shortenLife s).
Proof.
  intros (d & -> & Hp). unfold Speck.shortenLife.
  destruct (Speck.flashTime <? Speck.lifeLeft (Speck.attributes d)).
  - eexists. split; [reflexivity|]. exact Hp.
  - exists d. auto.
Qed.


Lemma shed_ready (dt : Q) (c c' : Cloud.t) :
  Cloud.shed dt c = Done c' -> ready c -> ready c'.
Proof.
  intros Hrun (Hact & Hpos).
  destruct (shed_spec dt c) as (c0 & Hrun0 & (_ & _ & _ & _ & Hl) & Ha & Hslots).
  rewrite Hrun in Hrun0. injection Hrun0 as <-.
  unfold ready.
  split; [rewrite Ha, Hl; exact Hact|].
  rewrite Ha. intros j s Hs Hj.
  destruct (Hslots j) as [Hsame | Hshort].
  - rewrite Hsame in Hs. eauto.
  - rewrite Hs in Hshort. destruct (Cloud.specks c !! j) as [s0|] eqn:Hs0; [|discriminate].
    injection Hshort as ->. apply shortenLife_positioned. eauto.
Qed.

(** The slots of the pool after a turn of the loop in which the speck of
    slot [i] died. *)
Lemma swapped_lookup (l : list Speck.t) (i a : nat) (dead last : Speck.t) (j : nat) :
  (i <= a)%nat -> (a < length l)%nat ->
  <[i := dead]> l !! a = Some last ->
  <[a := dead]> (<[i := last]> (<[i := dead]> l)) !! j =
  if decide (j = a) then Some dead
  else if decide (j = i) then l !! a
  else l !! j.
Proof.
  intros Hia Ha Hlast.
  destruct (decide (j = a)) as [->|Hja].
  - apply list_lookup_insert_eq. rewrite !length_insert. exact Ha.
  - rewrite list_lookup_insert_ne by congruence.
    destruct (decide (j = i)) as [->|Hji].
    + rewrite list_lookup_insert_eq by (rewrite length_insert; lia).
      rewrite list_lookup_insert_ne in Hlast by congruence. congruence.
    + rewrite !list_lookup_insert_ne by congruence. reflexivity.
Qed.




(** ** Termination *)

Lemma animate_body_returns (M : Math) (dt : Q) (i : Z) (c : Cloud.t) (w : World) :
  (0 <= i < Cloud.activeSpecks c)%Z ->
  ready c ->
  exists i' c' w',
    Cloud.animate_body M dt i c w = Done (i', c', w') /\ ready c'.
Proof.
  intros Hi (Hact & Hpos).
  assert (Hbody : exists r, Cloud.animate_body M dt i c w = Done r).
  { destruct (lookup_lt_is_Some_2 (Cloud.specks c) (Z.to_nat i)) as [s0 Hs0]; [lia|].
    destruct (Hpos _ s0 Hs0) as (d0 & -> & Hp0); [lia|].
    unfold Cloud.animate_body.
    replace (lookupZ (Cloud.specks c) i) with (Some (Speck.Init d0))
      by (symmetry; apply lookupZ_Some; split; [lia | exact Hs0]).
    destruct (apply_breezes_positioned M (Cloud.breezes c) d0 w Hp0)
      as (d1 & w1 & -> & Ha & _).
    cbn [mbind outcome_bind].
    rewrite <- Ha in Hp0. destruct Hp0 as [p Hp].
    destruct (fly_positioned dt d1 p Hp) as (d & -> & _).
    cbn [mbind outcome_bind mret outcome_ret Cloud.specks Cloud.set_specks
         Cloud.activeSpecks].
    destruct (Speck.isDead (Speck.Init d)); [|eauto].
    destruct (lookupZ_is_Some
                (<[Z.to_nat i := Speck.Init d]> (Cloud.specks c))
                (Cloud.activeSpecks c - 1)) as [_ [last ->]];
      [rewrite length_insert; lia | eauto]. }
  destruct Hbody as [[[i' c'] w'] Hbody]. exists i', c', w'. split; [exact Hbody|].
  destruct (animate_body_done M dt i c w i' c' w' (proj1 Hi) Hbody)
    as (_ & (_ & _ & _ & _ & Hl) & s0 & d0 & d & Hs0 & -> & _ & Hkeep & Hcase).
  assert (Hd : positioned (Speck.Init d)).
  { exists d. split; [reflexivity|]. apply Hkeep.
    destruct (Hpos _ _ Hs0) as (d0' & Hd0 & Hp0); [lia|]. injection Hd0 as <-. exact Hp0. }
  unfold ready.
  destruct Hcase as [(_ & -> & Ha & Hspecks) | (_ & -> & Ha & last & Hlast & Hspecks)].
  - rewrite Ha, Hl. split; [exact Hact|]. rewrite Hspecks. intros j s Hs Hj.
    destruct (decide (j = Z.to_nat i)) as [->|Hne].
    + rewrite list_lookup_insert_eq in Hs by (eapply lookup_lt_Some; eassumption).
      injection Hs as <-. exact Hd.
    + rewrite list_lookup_insert_ne in Hs by congruence. eauto.
  - rewrite Ha, Hl. split; [lia|].
    apply lookupZ_Some in Hlast. destruct Hlast as [_ Hlast].
    rewrite Hspecks. intros j s Hs Hj.
    rewrite (swapped_lookup _ _ _ _ _ j) in Hs by (try eassumption; lia).
    destruct (decide (j = Z.to_nat (Cloud.activeSpecks c - 1))); [lia|].
    destruct (decide (j = Z.to_nat i)); apply (Hpos _ s Hs); lia.
Qed.

(** With fuel for one turn more than there are slots between the counter
    and [activeSpecks], the loop returns on a pool that is ready. *)
Lemma animate_loop_returns (M : Math) (dt : Q) (fuel : nat) :
  forall (i : Z) (c : Cloud.t) (w : World),
    (0 <= i)%Z ->
    ready c ->
    (Z.max 0 (Cloud.activeSpecks c - i) < Z.of_nat fuel)%Z ->
    exists c' w', Cloud.animate_loop M fuel dt i c w = Done (c', w').
Proof.
  induction fuel as [|fuel IH]; intros i c w Hi Hready Hfuel; [lia|].
  cbn [Cloud.animate_loop].
  destruct (Z.ltb_spec i (Cloud.activeSpecks c)) as [Hlt|Hge]; [|eauto].
  destruct (animate_body_returns M dt i c w) as (i1 & c1 & w1 & Hbody & Hready1); auto.
  rewrite Hbody. cbn [mbind outcome_bind].
  destruct (animate_body_done M dt i c w i1 c1 w1 Hi Hbody)
    as (_ & _ & s0 & d0 & d & _ & _ & _ & _ & Hcase).
  apply IH; [|exact Hready1|].
  - destruct Hcase as [(_ & Hi1 & _) | (_ & Hi1 & _)]; lia.
  - destruct Hcase as [(_ & Hi1 & Ha & _) | (_ & Hi1 & Ha & _)]; lia.
Qed.

Lemma animate_returns (M : Math) (dt : Q) (c : Cloud.t) (w : World) :
  ready c -> exists c' w', Cloud._animate M dt c w = Done (c', w').
Proof.
  intros Hready. unfold Cloud._animate.
  destruct (shed_spec dt c) as (c0 & Hshed & _).
  rewrite Hshed. cbn [mbind outcome_bind].
  apply animate_loop_returns; [lia | eapply shed_ready; eassumption | lia].
Qed.

(** On any pool the loops of a frame stop within their fuel: a frame
    returns or throws. *)
Lemma apply_breezes_fuel (M : Math) (bs : list Breeze.t) :
  forall (s : Speck.t) (w : World), Cloud.apply_breezes M bs s w <> OutOfFuel.
Proof.
  induction bs as [|b bs IH]; intros s w; [discriminate|].
  cbn [Cloud.apply_breezes].
  destruct (apply_spec M b s w) as [(_ & d & d' & w' & _ & -> & _) | (_ & ->)].
  - cbn [mbind outcome_bind]. apply IH.
  - discriminate.
Qed.

Lemma fly_fuel (dt : Q) (s : Speck.t) : Speck.fly dt s <> OutOfFuel.
Proof.
  destruct s as [|d]; [discriminate|]. unfold Speck.fly.
  destruct (Qle_bool _ 0); [discriminate|].
  destruct (Qle_bool _ Speck.flashTime); cbn;
    destruct (Speck.position (Speck.attributes d)); discriminate.
Qed.

Lemma animate_loop_fuel (M : Math) (dt : Q) (fuel : nat) :
  forall (i : Z) (c : Cloud.t) (w : World),
    (0 <= i)%Z ->
    (Z.max 0 (Cloud.activeSpecks c - i) < Z.of_nat fuel)%Z ->
    Cloud.animate_loop M fuel dt i c w <> OutOfFuel.
Proof.
  induction fuel as [|fuel IH]; intros i c w Hi Hfuel; [lia|].
  cbn [Cloud.animate_loop].
  destruct (Z.ltb_spec i (Cloud.activeSpecks c)) as [Hlt|Hge]; [|discriminate].
  destruct (Cloud.animate_body M dt i c w) as [[[i1 c1] w1]| |] eqn:Hbody.
  - cbn [mbind outcome_bind].
    destruct (animate_body_done M dt i c w i1 c1 w1 Hi Hbody)
      as (_ & _ & s0 & d0 & d & _ & _ & _ & _ & Hcase).
    apply IH; destruct Hcase as [(_ & Hi1 & Ha & _) | (_ & Hi1 & Ha & _)]; lia.
  - discriminate.
  - exfalso. revert Hbody. unfold Cloud.animate_body.
    destruct (lookupZ (Cloud.specks c) i) as [s0|]; [|discriminate].
    pose proof (apply_breezes_fuel M (Cloud.breezes c) s0 w) as Hb.
    destruct (Cloud.apply_breezes M (Cloud.breezes c) s0 w) as [[s1 w1]| |];
      [|discriminate|congruence].
    cbn [mbind outcome_bind].
    pose proof (fly_fuel dt s1) as Hf.
    destruct (Speck.fly dt s1) as [speck| |]; [|discriminate|congruence].
    cbn [mbind outcome_bind mret outcome_ret].
    destruct (Speck.isDead speck); [|discriminate].
    destruct (lookupZ _ _); discriminate.
Qed.

Lemma animate_fuel (M : Math) (dt : Q) (c : Cloud.t) (w : World) :
  Cloud._animate M dt c w <> OutOfFuel.
Proof.
  unfold Cloud._animate.
  destruct (shed_spec dt c) as (c0 & Hshed & _).
  rewrite Hshed. cbn [mbind outcome_bind].
  apply animate_loop_fuel; lia.
Qed.

(** ** The pool after an animation frame *)

(** C2: after [_animate] returns, no speck in the slots below
    [activeSpecks] is dead.  In each turn of its loop, when the speck of
    slot [i] is dead after [fly], it changes places with the speck of slot
    [activeSpecks - 1], [activeSpecks] is decremented and the next turn is at
    index [i] again; otherwise the next turn is at [i + 1].  The frame
    returns on every pool whose active slots hold specks with a position,
    and on no pool does it run out of fuel. *)
Theorem animate_leaves_no_dead (M : Math) (dt : Q) (c : Cloud.t) (w : World) :
  (ready c -> exists c' w', Cloud._animate M dt c w = Done (c', w')) /\
  Cloud._animate M dt c w <> OutOfFuel /\
  (forall c' w',
     Cloud._animate M dt c w = Done (c', w') ->
     forall (j : Z) (s : Speck.t),
       (0 <= j < Cloud.activeSpecks c')%Z ->
       lookupZ (Cloud.specks c') j = Some s ->
       Speck.isDead s = false) /\
  (forall (fuel : nat) (i : Z) (c0 : Cloud.t) (w0 : World) (i' : Z) (c1 : Cloud.t) (w1 : World),
     (0 <= i < Cloud.activeSpecks c0)%Z ->
     Cloud.animate_body M dt i c0 w0 = Done (i', c1, w1) ->
     Cloud.animate_loop M (S fuel) dt i c0 w0 = Cloud.animate_loop M fuel dt (i' + 1) c1 w1 /\
     exists s,
       (Speck.isDead s = false /\
        (i' + 1 = i + 1)%Z /\
        Cloud.activeSpecks c1 = Cloud.activeSpecks c0 /\
        lookupZ (Cloud.specks c1) i = Some s) \/
       (Speck.isDead s = true /\
        (i' + 1 = i)%Z /\
        Cloud.activeSpecks c1 = (Cloud.activeSpecks c0 - 1)%Z /\
        lookupZ (Cloud.specks c1) (Cloud.activeSpecks c0 - 1) = Some s /\
        ((i < Cloud.activeSpecks c0 - 1)%Z ->
         lookupZ (Cloud.specks c1) i = lookupZ (Cloud.specks c0) (Cloud.activeSpecks c0 - 1)))).
Proof.
  split; [apply animate_returns|]. split; [apply animate_fuel|]. split.
  - intros c' w' Hrun j s Hj Hs. unfold Cloud._animate in Hrun.
    destruct (Cloud.shed dt c) as [c0| |]; [|discriminate|discriminate].
    cbn [mbind outcome_bind] in Hrun.
    apply lookupZ_Some in Hs. destruct Hs as [_ Hs].
    eapply (animate_loop_no_dead M dt _ 0 c0 w c' w'); [lia| |exact Hrun| |exact Hs]; lia.
  - intros fuel i c0 w0 i' c1 w1 Hi Hbody. split.
    + cbn [Cloud.animate_loop].
      destruct (Z.ltb_spec i (Cloud.activeSpecks c0)) as [_|]; [|lia].
      rewrite Hbody. reflexivity.
    + destruct (animate_body_done M dt i c0 w0 i' c1 w1 (proj1 Hi) Hbody)
        as (_ & _ & s0 & d0 & d & Hs0 & _ & _ & _ & Hcase).
      assert (Hin : (Z.to_nat i < length (Cloud.specks c0))%nat)
        by (eapply lookup_lt_Some; eassumption).
      exists (Speck.Init d).
      destruct Hcase as [(Hdead & -> & Ha & Hspecks) | (Hdead & -> & Ha & last & Hlast & Hspecks)].
      * left. split; [exact Hdead|]. split; [reflexivity|]. split; [exact Ha|].
        apply lookupZ_Some. split; [lia|]. rewrite Hspecks.
        apply list_lookup_insert_eq. exact Hin.
      * right. split; [exact Hdead|]. split; [lia|]. split; [exact Ha|].
        apply lookupZ_Some in Hlast. destruct Hlast as [_ Hlast].
        assert (Hlt : (Z.to_nat (Cloud.activeSpecks c0 - 1) < length (Cloud.specks c0))%nat).
        { apply lookup_lt_Some in Hlast. rewrite length_insert in Hlast. exact Hlast. }
        split.
        -- apply lookupZ_Some. split; [lia|]. rewrite Hspecks.
           rewrite (swapped_lookup _ _ _ _ _ _) by (try eassumption; lia).
           rewrite decide_True by reflexivity. reflexivity.
        -- intros Hlast_other. unfold lookupZ.
           destruct (Z.ltb_spec i 0); [lia|].
           destruct (Z.ltb_spec (Cloud.activeSpecks c0 - 1) 0); [lia|].
           rewrite Hspecks.
           rewrite (swapped_lookup _ _ _ _ _ _) by (try eassumption; lia).
           rewrite decide_False by lia. rewrite decide_True by reflexivity. reflexivity.
Qed.

Lemma animate_leaves_no_dead_witness :
  Cloud._animate Sample.math (7 # 2) Sample.crowd_pool Sample.crowd_world
  = Done (Sample.after_pool, Sample.after_world) /\
  Cloud.activeSpecks Sample.after_pool = 3%Z /\
  forall (j : Z) (s : Speck.t),
    (0 <= j < Cloud.activeSpecks Sample.after_pool)%Z ->
    lookupZ (Cloud.specks Sample.after_pool) j = Some s ->
    Speck.isDead s = false.
Proof.
  assert (Hrun : Cloud._animate Sample.math (7 # 2) Sample.crowd_pool Sample.crowd_world
                 = Done (Sample.after_pool, Sample.after_world))
    by (vm_compute; reflexivity).
  split; [exact Hrun|]. split; [vm_compute; reflexivity|].
  exact (proj1 (proj2 (proj2 (animate_leaves_no_dead Sample.math (7 # 2)
                                Sample.crowd_pool Sample.crowd_world)))
           Sample.after_pool Sample.after_world Hrun).
Defined.

(** ** The pool through construction and the music's callbacks *)










Lemma varied_unit_interval : unit_interval Sample.varied.
Proof.
  intros n. cbn [seed Sample.varied].
  pose proof (Nat.mod_upper_bound n 7) as Hn.
  unfold Qle, Qlt. cbn [Qnum Qden]. lia.
Qed.


(** ** Speck: [reset] and the caller's options object *)

Section StoreFacts.
Import Store.

Lemma alloc_spec (o : obj) (h : heap) (l : loc) (h' : heap) :
  alloc o h = (l, h') -> h !! l = None /\ h' = <[l := o]> h.
Proof.
  unfold alloc. intros H. injection H as <- <-.
  split; [|reflexivity]. apply not_elem_of_dom, is_fresh.
Qed.

Lemma set_other (l : loc) (k : string) (v : val) (h : heap) (x : loc) :
  x <> l -> set l k v h !! x = h !! x.
Proof. intros Hx. unfold set. apply lookup_insert_ne. congruence. Qed.

Lemma extend_other (to : loc) (from : option val) (h : heap) (x : loc) :
  x <> to -> _extend to from h !! x = h !! x.
Proof. intros Hx. unfold _extend. apply lookup_insert_ne. congruence. Qed.

Lemma generate_other (M : Math) (la lf : loc) (h : heap) (w : World) (x : loc) :
  x <> la -> x <> lf ->
  snd (fst (generate M la lf h w)) !! x = h !! x.
Proof.
  intros Ha Hf. unfold generate. cbn.
  rewrite !set_other by assumption. reflexivity.
Qed.

(** C10: when the options object carries an [inertia] that is an object,
    [reset] deletes the property from the caller's object and leaves its
    other properties as they were; the speck's own [inertia] is a new
    object, distinct from the one supplied and from every object that
    existed before the call, and it holds a copy of each property of the
    supplied object, which itself is unchanged. *)
Theorem reset_deletes_and_copies_inertia (M : Math) (options : loc) (h : heap) (w : World)
    (v : loc) :
  get h options "inertia" = Some (Ref v) ->
  is_Some (h !! v) ->
  let s := fst (fst (reset M options h w)) in
  let h' := snd (fst (reset M options h w)) in
  get h' options "inertia" = None /\
  (forall k, k <> "inertia"%string -> get h' options k = get h options k) /\
  inertia s <> v /\
  inertia s <> options /\
  h !! inertia s = None /\
  h' !! inertia s = Some (props h v) /\
  (v <> options -> h' !! v = h !! v).
Proof.
  intros Hin Hv s h'. subst s h'. unfold reset.
  destruct (alloc ∅ h) as [l0 h0] eqn:E0. apply alloc_spec in E0. destruct E0 as [F0 ->].
  destruct (alloc ∅ _) as [lw h1] eqn:E1. apply alloc_spec in E1. destruct E1 as [F1 ->].
  destruct (alloc (vec 0 0 0) _) as [lf h2] eqn:E2. apply alloc_spec in E2.
  destruct E2 as [F2 ->].
  cbn [Date_getTime].
  apply lookup_insert_None in F1. destruct F1 as [F1 N1].
  apply lookup_insert_None in F2. destruct F2 as [F2 N2].
  apply lookup_insert_None in F2. destruct F2 as [F2 N3].
  set (h2 := <[lf := vec 0 0 0]> (<[lw := ∅]> (<[l0 := ∅]> h))) in *.
  assert (Hopt : is_Some (h !! options)).
  { unfold get, props in Hin. destruct (h !! options); [eauto|].
    cbn in Hin. rewrite lookup_empty in Hin. discriminate. }
  assert (Hold : forall x, is_Some (h !! x) -> h2 !! x = h !! x).
  { intros x [ox Hx]. unfold h2.
    rewrite !lookup_insert_ne by congruence. reflexivity. }
  assert (Hin2 : get h2 options "inertia" = Some (Ref v)).
  { unfold get, props in *. rewrite (Hold options Hopt). exact Hin. }
  rewrite Hin2. cbn [truthy].
  destruct (alloc ∅ h2) as [li h3] eqn:E3. apply alloc_spec in E3. destruct E3 as [F3 ->].
  assert (Hin3 : get (<[li := ∅]> h2) options "inertia" = Some (Ref v)).
  { unfold get, props in *. rewrite lookup_insert_ne; [exact Hin2|].
    intros ->. rewrite (Hold options Hopt) in F3. destruct Hopt; congruence. }
  rewrite Hin3.
  set (h4 := delete_prop options "inertia" (_extend li (Some (Ref v)) (<[li := ∅]> h2))).
  destruct (alloc defaults h4) as [la h5] eqn:E5. apply alloc_spec in E5.
  destruct E5 as [F5 ->].
  set (h6 := _extend la (Some (Ref options)) (<[la := defaults]> h4)).
  destruct (generate M la lf h6 _) as [[g h7] w7] eqn:E7.
  cbn [fst snd inertia].
  assert (Hli_v : li <> v).
  { intros ->. rewrite (Hold v Hv) in F3. destruct Hv; congruence. }
  assert (Hli_o : li <> options).
  { intros ->. rewrite (Hold options Hopt) in F3. destruct Hopt; congruence. }
  assert (Hli_h : h !! li = None).
  { destruct (h !! li) eqn:E; [|reflexivity].
    rewrite <- (Hold li) in E by eauto. congruence. }
  assert (H4_li : h4 !! li = Some (props h v)).
  { unfold h4, delete_prop. rewrite lookup_alter_ne by congruence.
    unfold _extend. rewrite lookup_insert_eq. cbn [own].
    unfold props at 2. rewrite lookup_insert_eq. cbn.
    rewrite (right_id_L ∅ (∪)). unfold props.
    rewrite lookup_insert_ne by congruence. rewrite (Hold v Hv). reflexivity. }
  assert (H4_o : h4 !! options = delete "inertia" <$> h !! options).
  { unfold h4, delete_prop. rewrite lookup_alter_eq.
    rewrite extend_other by congruence.
    rewrite lookup_insert_ne by congruence. rewrite (Hold options Hopt). reflexivity. }
  assert (H4_x : forall x, x <> li -> x <> options -> h4 !! x = h2 !! x).
  { intros x Hx1 Hx2. unfold h4, delete_prop. rewrite lookup_alter_ne by congruence.
    rewrite extend_other by congruence. apply lookup_insert_ne. congruence. }
  assert (Hla : forall x, is_Some (h4 !! x) -> x <> la).
  { intros x [ox Hx] ->. congruence. }
  assert (Hlf : forall x, is_Some (h !! x) -> x <> lf).
  { intros x [ox Hx] ->. congruence. }
  assert (Hlf_li : li <> lf).
  { intros ->. unfold h2 in F3. rewrite lookup_insert_eq in F3. discriminate. }
  assert (H7 : forall x, is_Some (h4 !! x) -> x <> lf -> h7 !! x = h4 !! x).
  { intros x Hx Hxf.
    match type of E7 with
    | generate _ _ _ _ ?w0 = _ =>
        pose proof (generate_other M la lf h6 w0 x (Hla x Hx) Hxf) as Hg
    end.
    rewrite E7 in Hg. cbn [fst snd] in Hg. rewrite Hg. unfold h6.
    rewrite extend_other by (apply Hla; exact Hx).
    apply lookup_insert_ne. intros <-. apply (Hla la Hx). reflexivity. }
  assert (H7_o : h7 !! options = delete "inertia" <$> h !! options).
  { rewrite H7; [exact H4_o | | apply Hlf; exact Hopt].
    rewrite H4_o. destruct Hopt as [o ->]. cbn. eauto. }
  assert (H7_li : h7 !! li = Some (props h v)).
  { rewrite H7; [exact H4_li | rewrite H4_li; eauto | exact Hlf_li]. }
  split; [|split; [|split; [exact Hli_v|split; [exact Hli_o|split;
                    [exact Hli_h|split; [exact H7_li|]]]]]].
  - unfold get, props. rewrite H7_o. destruct Hopt as [o ->]. cbn.
    apply lookup_delete_eq.
  - intros k Hk. unfold get, props. rewrite H7_o. destruct Hopt as [o ->]. cbn.
    apply lookup_delete_ne. congruence.
  - intros Hvo. rewrite H7.
    + rewrite H4_x by congruence. apply Hold. exact Hv.
    + rewrite H4_x by congruence. rewrite (Hold v Hv). exact Hv.
    + apply Hlf. exact Hv.
Qed.

Lemma reset_deletes_and_copies_inertia_witness :
  let s := fst (fst (reset Sample.math 1%positive Sample.heap (Sample.world (1 # 2) 1000))) in
  let h' := snd (fst (reset Sample.math 1%positive Sample.heap (Sample.world (1 # 2) 1000))) in
  get h' 1%positive "inertia" = None /\
  (forall k, k <> "inertia"%string -> get h' 1%positive k = get Sample.heap 1%positive k) /\
  inertia s <> 3%positive /\
  inertia s <> 1%positive /\
  Sample.heap !! inertia s = None /\
  h' !! inertia s = Some (props Sample.heap 3%positive) /\
  (3%positive <> 1%positive -> h' !! 3%positive = Sample.heap !! 3%positive).
Proof.
  apply (reset_deletes_and_copies_inertia Sample.math 1%positive Sample.heap
           (Sample.world (1 # 2) 1000) 3%positive).
  - vm_compute. reflexivity.
  - vm_compute. eauto.
Defined.

(** The two embeddings of [reset] agree on the sample store: the speck read
    back from the store is the speck of the value embedding reset from the
    options read back from the store, and the worlds are the same. *)
Lemma reset_embeddings_agree_on_sample :
  let r := reset Sample.math 1%positive Sample.heap (Sample.world (1 # 2) 1000) in
  let r' := Speck.reset Sample.math (read_options Sample.heap 1%positive)
              (Sample.world (1 # 2) 1000) in
  read_speck (snd (fst r)) (fst (fst r)) = Some (fst r') /\ snd r = snd r'.
Proof. split; vm_compute; reflexivity. Qed.

End StoreFacts.

(** * More of the speck *)

Lemma fallback_scale (v dt : Q) : Speck.fallback v dt == v * (1 - Qabs dt / 2).
Proof.
  unfold Speck.fallback, Speck.inertiaFallback.
  rewrite !Qabs_Qmult. change (Qabs (5 # 10)) with (5 # 10).
  generalize (Qabs dt) as a. intros a.
  destruct (v <? 0) eqn:Hv.
  - apply Qltb_lt in Hv. rewrite (Qabs_neg v) by lra. field.
  - apply Qltb_ge in Hv. rewrite (Qabs_pos v) by lra. field.
Qed.

(** X1: [fly] on a speck that has a position and more than [dt] of life
    left is one step of integration: every axis of the inertia is scaled by
    [1 - |dt| / 2] (the fallback) and gains force times [dt], the gravity
    being added to the force along y; the position moves by the new inertia
    times [dt]; the pending force is reset to zero; the wave queue and the
    gravity are kept. *)
Theorem fly_step (dt : Q) (d : Speck.Data) (p : Vec.t) :
  Speck.position (Speck.attributes d) = Some p ->
  dt < Speck.lifeLeft (Speck.attributes d) ->
  exists d' p',
    Speck.fly dt (Speck.Init d) = Done (Speck.Init d') /\
    Speck.position (Speck.attributes d') = Some p' /\
    Vec.x (Speck.inertia d') ==
      Vec.x (Speck.inertia d) * (1 - Qabs dt / 2) + Vec.x (Speck.force d) * dt /\
    Vec.y (Speck.inertia d') ==
      Vec.y (Speck.inertia d) * (1 - Qabs dt / 2)
      + (Vec.y (Speck.force d) + Speck.gravity d) * dt /\
    Vec.z (Speck.inertia d') ==
      Vec.z (Speck.inertia d) * (1 - Qabs dt / 2) + Vec.z (Speck.force d) * dt /\
    Vec.x p' = Vec.x p + Vec.x (Speck.inertia d') * dt /\
    Vec.y p' = Vec.y p + Vec.y (Speck.inertia d') * dt /\
    Vec.z p' = Vec.z p + Vec.z (Speck.inertia d') * dt /\
    Speck.force d' = Vec.mk 0 0 0 /\
    Speck.lifeLeft (Speck.attributes d') = Speck.lifeLeft (Speck.attributes d) - dt /\
    Speck.wave d' = Speck.wave d /\
    Speck.gravity d' = Speck.gravity d.
Proof.
  intros Hp Hdt. unfold Speck.fly. cbn [Speck.lifeLeft Speck.set_lifeLeft].
  assert (E : Qle_bool (Speck.lifeLeft (Speck.attributes d) - dt) 0 = false)
    by (apply Qleb_gt; lra).
  rewrite E.
  destruct (Qle_bool _ Speck.flashTime);
    cbn [Speck.position Speck.set_flashLifePart Speck.set_lifeLeft]; rewrite Hp;
    (do 2 eexists; split; [reflexivity|]);
    cbn [Speck.position Speck.set_position Speck.attributes Speck.inertia Speck.force
         Speck.wave Speck.gravity Speck.lifeLeft Speck.set_flashLifePart Speck.set_lifeLeft
         Vec.x Vec.y Vec.z];
    (split; [reflexivity|]);
    (split; [apply Qplus_comp; [apply fallback_scale | reflexivity]|]);
    (split; [apply Qplus_comp; [apply fallback_scale | reflexivity]|]);
    (split; [apply Qplus_comp; [apply fallback_scale | reflexivity]|]);
    repeat split; reflexivity.
Qed.

Lemma fly_step_witness :
  exists d' p',
    Speck.fly (1 # 2) (Speck.Init (Sample.data Sample.speck)) = Done (Speck.Init d') /\
    Speck.position (Speck.attributes d') = Some p' /\
    Vec.x (Speck.inertia d') == 3 # 4 /\
    Vec.x p' == 3 # 8 /\
    Speck.force d' = Vec.mk 0 0 0.
Proof.
  destruct (fly_step (1 # 2) (Sample.data Sample.speck) (Vec.mk 0 0 0))
    as (d' & p' & Hfly & Hp' & Hx & _ & _ & Hpx & _ & _ & Hf & _).
  - vm_compute. reflexivity.
  - vm_compute. reflexivity.
  - exists d', p'. split; [exact Hfly|]. split; [exact Hp'|].
    split; [rewrite Hx; vm_compute; reflexivity|].
    split; [rewrite Hpx, Hx; vm_compute; reflexivity | exact Hf].
Defined.










(** X5: what [reset] generates.  When the draws are in [0, 1), the speck
    gets a life in [3, 5) with all of it left, a weight in [0.5, 5), a
    density in [0.2, 1), a gravity of [fallFactor] times the density,
    between 140 and 700, which is also its first pending force along y, no
    flash and no saturation; and, when the options carry no inertia, an
    inertia in [-10, 10) on every axis. *)
Theorem reset_ranges (M : Math) (o : Speck.Options) (w : World) :
  unit_interval w ->
  exists d,
    fst (Speck.reset M o w) = Speck.Init d /\
    3 <= Speck.life (Speck.attributes d) /\ Speck.life (Speck.attributes d) < 5 /\
    Speck.lifeLeft (Speck.attributes d) = Speck.life (Speck.attributes d) /\
    5 # 10 <= Speck.wieght (Speck.attributes d) /\ Speck.wieght (Speck.attributes d) < 5 /\
    2 # 10 <= Speck.density (Speck.attributes d) /\ Speck.density (Speck.attributes d) < 1 /\
    Speck.gravity d = Speck.fallFactor * Speck.density (Speck.attributes d) /\
    140 <= Speck.gravity d /\ Speck.gravity d < 700 /\
    Speck.force d = Vec.mk 0 (Speck.gravity d) 0 /\
    Speck.flashLifePart (Speck.attributes d) = None /\
    Speck.colorSaturation (Speck.attributes d) = None /\
    (Speck.opt_inertia o = None ->
     -10 <= Vec.x (Speck.inertia d) /\ Vec.x (Speck.inertia d) < 10 /\
     -10 <= Vec.y (Speck.inertia d) /\ Vec.y (Speck.inertia d) < 10 /\
     -10 <= Vec.z (Speck.inertia d) /\ Vec.z (Speck.inertia d) < 10).
Proof.
  intros Hw. unfold Speck.reset. cbn [Date_getTime].
  unfold Speck.maxLife, Speck.minLife, Speck.maxWeight, Speck.minWeight, Speck.maxDensity,
    Speck.minDensity, Speck.fallFactor, Speck.startInertiaFactor.
  destruct (Speck.opt_inertia o) as [v|] eqn:Hv;
    cbn [Math_random seed draws clock reads fst];
    (eexists; split; [reflexivity|]);
    cbn [Speck.attributes Speck.life Speck.lifeLeft Speck.wieght Speck.density Speck.gravity
         Speck.force Speck.inertia Speck.flashLifePart Speck.colorSaturation
         Vec.x Vec.y Vec.z].
  - pose proof (Hw (draws w)) as [? ?].
    pose proof (Hw (S (S (S (draws w))))) as [? ?].
    pose proof (Hw (S (S (S (S (draws w)))))) as [? ?].
    repeat (split; [first [reflexivity | lra]|]). intros Hnone. discriminate Hnone.
  - pose proof (Hw (draws w)) as [? ?].
    pose proof (Hw (S (draws w))) as [? ?].
    pose proof (Hw (S (S (draws w)))) as [? ?].
    pose proof (Hw (S (S (S (draws w))))) as [? ?].
    pose proof (Hw (S (S (S (S (S (S (draws w)))))))) as [? ?].
    pose proof (Hw (S (S (S (S (S (S (S (draws w))))))))) as [? ?].
    repeat (split; [first [reflexivity | lra]|]). intros _.
    change (1 / 2) with (1 # 2). repeat apply conj; lra.
Qed.

Lemma reset_ranges_witness :
  exists d,
    fst (Speck.reset Sample.math
           {| Speck.opt_position := None; Speck.opt_inertia := None;
              Speck.opt_color := None |} Sample.varied) = Speck.Init d /\
    3 <= Speck.life (Speck.attributes d) /\ Speck.life (Speck.attributes d) < 5 /\
    140 <= Speck.gravity d /\ Speck.gravity d < 700 /\
    -10 <= Vec.x (Speck.inertia d) /\ Vec.x (Speck.inertia d) < 10.
Proof.
  destruct (reset_ranges Sample.math
              {| Speck.opt_position := None; Speck.opt_inertia := None;
                 Speck.opt_color := None |} Sample.varied varied_unit_interval)
    as (d & Hd & H1 & H2 & _ & _ & _ & _ & _ & _ & H3 & H4 & _ & _ & _ & Hi).
  destruct (Hi eq_refl) as (H5 & H6 & _).
  exists d. repeat (split; [assumption|]). assumption.
Defined.

(** * More of the breeze *)

(** X6: the two cases of [_findForce].  On the breeze's own axis no random
    number is drawn and the back force is [|k|] times the back power of the
    axis, [k] being the coefficient of the direct force: it has the sign of
    the back power whatever the type of the breeze.  On the other axis the
    direct force is zero and the back force is the back power of that axis
    with a sign taken from one draw. *)
Theorem findForce_back (M : Math) (b : Breeze.t) (axis : Breeze.Axis) (distance : option Q)
    (full : Q) (w : World) :
  let r := Breeze._findForce M b axis distance full w in
  (Breeze.direction b = axis ->
   snd r = w /\
   exists k,
     Breeze.direct (fst r) = k * Breeze.at_axis axis (Breeze.power (Breeze.attributes b)) /\
     Breeze.back (fst r) == Qabs k * Breeze.at_axis axis (Breeze.backPower b)) /\
  (Breeze.direction b <> axis ->
   draws (snd r) = S (draws w) /\
   Breeze.direct (fst r) = 0 /\
   Breeze.back (fst r)
   = Cloud.sign_of (seed w (draws w)) * Breeze.at_axis axis (Breeze.backPower b) /\
   Qabs (Breeze.back (fst r)) == Qabs (Breeze.at_axis axis (Breeze.backPower b))).
Proof.
  cbv zeta. unfold Breeze._findForce.
  destruct (Breeze.direction b) eqn:Hdir, axis; cbn [Breeze.Axis_eqb Math_random fst snd
    Breeze.direct Breeze.back draws];
    (split; [intros Heq | intros Hne]); try discriminate Heq; try congruence.
  1, 4: split; [reflexivity|]; eexists; split; [reflexivity|];
    match goal with
    | |- (if ?k <? 0 then _ else _) * ?k * _ == _ =>
        destruct (k <? 0) eqn:Hk;
        [apply Qltb_lt in Hk; rewrite (Qabs_neg k) by lra; ring
        |apply Qltb_ge in Hk; rewrite (Qabs_pos k) by lra; ring]
    end.
  all: split; [reflexivity|]; split; [reflexivity|]; split; [reflexivity|];
    unfold Cloud.sign_of; rewrite Qabs_Qmult;
    destruct (seed w (draws w) <? 5 # 10);
    [change (Qabs (-1)) with 1 | change (Qabs 1) with 1]; ring.
Qed.

Lemma apply_shape (M : Math) (b : Breeze.t) (d : Speck.Data) (p : Vec.t) (w : World) :
  Speck.position (Speck.attributes d) = Some p ->
  let axis := Breeze.direction b in
  exists (distance : option Q) (direct back : Vec2.t) (w' : World),
    Breeze._findDistance b axis (Speck.Init d) = Done distance /\
    Breeze.apply M b (Speck.Init d) w
    = Done (Speck.Init (Speck.setForce_at (clock w (reads w)) direct back d), w') /\
    draws w' = S (draws w) /\ reads w' = S (reads w) /\
    seed w' = seed w /\ clock w' = clock w /\
    let k := Breeze.coefficient M b
               (if ToNumber distance <? 0 then 0 else ToNumber distance) (span b axis) in
    Breeze.at_axis axis direct = k * Breeze.at_axis axis (Breeze.power (Breeze.attributes b)) /\
    Breeze.at_axis (across axis) direct = 0 /\
    Breeze.at_axis axis back
    = (if k <? 0 then -1 else 1) * k * Breeze.at_axis axis (Breeze.backPower b) /\
    Breeze.at_axis (across axis) back
    = Cloud.sign_of (seed w (draws w))
      * Breeze.at_axis (across axis) (Breeze.backPower b).
Proof.
  intros Hp. cbv zeta.
  unfold Breeze.apply, Breeze._findDistance, Breeze.position_of, Breeze._findForce.
  rewrite Hp.
  destruct (Breeze.direction b) eqn:Hdir, (Breeze.type (Breeze.attributes b)) eqn:Hty;
    cbn [mbind outcome_bind mret outcome_ret Breeze.Axis_eqb Math_random Speck.setForce
         Date_getTime ToNumber default];
    repeat match goal with
      | |- context [if ?c then Some 0 else Some ?x] =>
          replace (ToNumber (if c then Some 0 else Some x)) with (if c then 0 else x)
            by (destruct c; reflexivity)
      end;
    (do 4 eexists; split; [reflexivity|]; split; [reflexivity|]);
    cbn [draws reads seed clock Breeze.at_axis across span Vec2.x Vec2.y ToNumber default
         Breeze.direct Breeze.back];
    repeat split.
Qed.

Lemma setForce_at_keeps (now : Z) (direct back : Vec2.t) (d : Speck.Data) :
  Speck.gravity (Speck.setForce_at now direct back d) = Speck.gravity d /\
  Speck.start (Speck.setForce_at now direct back d) = Speck.start d.
Proof.
  unfold Speck.setForce_at.
  destruct (Speck.wave d ++ _) as [|q rest]; [split; reflexivity|].
  destruct (Speck.time q <? _); split; reflexivity.
Qed.

(** X7: what [apply] does to a speck with a position, and what it leaves
    alone.  The call returns; it draws one random number and reads the
    clock once; it changes neither the attributes (position and life
    included), nor the inertia, nor the gravity; the pending force along z
    is kept; the direct force across the breeze is the power of the popped
    wave piece alone, or zero when none is popped; exactly one piece is
    pushed on the wave queue, after at most one is popped. *)
Theorem apply_sets_force_only (M : Math) (b : Breeze.t) (d : Speck.Data) (p : Vec.t)
    (w : World) :
  Speck.position (Speck.attributes d) = Some p ->
  exists d' w',
    Breeze.apply M b (Speck.Init d) w = Done (Speck.Init d', w') /\
    draws w' = S (draws w) /\ reads w' = S (reads w) /\
    seed w' = seed w /\ clock w' = clock w /\
    Speck.attributes d' = Speck.attributes d /\
    Speck.inertia d' = Speck.inertia d /\
    Speck.gravity d' = Speck.gravity d /\
    Speck.start d' = Speck.start d /\
    Vec.z (Speck.force d') = Vec.z (Speck.force d) /\
    (length (Speck.wave d) <= length (Speck.wave d') <= S (length (Speck.wave d)))%nat /\
    (exists back, last (Speck.wave d') = Some (pushed (clock w (reads w)) back)) /\
    (Speck.wave d = [] -> along (across (Breeze.direction b)) (Speck.force d') = 0).
Proof.
  intros Hp.
  destruct (apply_shape M b d p w Hp)
    as (distance & direct & back & w' & _ & Hrun & Hd & Hr & Hs & Hc & _ & Hacross & _).
  exists (Speck.setForce_at (clock w (reads w)) direct back d), w'.
  split; [exact Hrun|]. repeat (split; [assumption|]).
  destruct (setForce_at_spec (clock w (reads w)) direct back d)
    as (Ha & Hi & Hz & Hlast & Hcase).
  cbv zeta in *.
  destruct (setForce_at_keeps (clock w (reads w)) direct back d) as (Hg & Hst).
  split; [exact Ha|]. split; [exact Hi|]. split; [exact Hg|]. split; [exact Hst|].
  split; [exact Hz|].
  split.
  { destruct (Speck.wave d) as [|q rest].
    - destruct Hcase as (-> & _). cbn. lia.
    - destruct (elapsed (clock w (reads w)) q); destruct Hcase as (-> & _);
        rewrite length_app; cbn; lia. }
  split; [eauto|].
  intros Hwave. rewrite Hwave in Hcase. destruct Hcase as (_ & Hx & Hy).
  destruct (Breeze.direction b); cbn [across along Breeze.at_axis] in *; congruence.
Qed.

Lemma apply_sets_force_only_witness :
  exists d' w',
    Breeze.apply Sample.math Sample.wind (Speck.Init (Sample.speck_at 1))
      (Sample.world (1 # 2) 1000) = Done (Speck.Init d', w') /\
    draws w' = 1%nat /\ reads w' = 1%nat /\
    Speck.attributes d' = Speck.attributes (Sample.speck_at 1) /\
    Speck.inertia d' = Speck.inertia (Sample.speck_at 1).
Proof.
  destruct (apply_sets_force_only Sample.math Sample.wind (Sample.speck_at 1) (Vec.mk 0 1 0)
              (Sample.world (1 # 2) 1000))
    as (d' & w' & Hrun & Hd & Hr & _ & _ & Ha & Hi & _).
  - reflexivity.
  - exists d', w'. repeat (split; [assumption|]). assumption.
Defined.



(** X9: [setPower] shares the force out.  For draws in [0, 1), spread
    bounds with [0 <= waveSpreadMin <= waveSpreadMax <= 1] and a force
    [overall * musicFactor] that is not negative, the two back powers are
    between 0 and the force and add up to the force, and the two powers
    add up to the force as well.  The power and the back power that the
    breeze had before do not count: a second call overwrites the first. *)
Theorem setPower_shares_force (overall : Q) (b : Breeze.t) (w : World) :
  unit_interval w ->
  0 <= Breeze.waveSpreadMin (Breeze.attributes b) ->
  Breeze.waveSpreadMin (Breeze.attributes b) <= Breeze.waveSpreadMax (Breeze.attributes b) ->
  Breeze.waveSpreadMax (Breeze.attributes b) <= 1 ->
  0 <= overall * Breeze.musicFactor (Breeze.attributes b) ->
  let force := overall * Breeze.musicFactor (Breeze.attributes b) in
  let b' := fst (Breeze.setPower overall b w) in
  Vec2.x (Breeze.backPower b') + Vec2.y (Breeze.backPower b') == force /\
  Vec2.x (Breeze.power (Breeze.attributes b'))
  + Vec2.y (Breeze.power (Breeze.attributes b')) == force /\
  0 <= Vec2.x (Breeze.backPower b') /\ Vec2.x (Breeze.backPower b') <= force /\
  0 <= Vec2.y (Breeze.backPower b') /\ Vec2.y (Breeze.backPower b') <= force /\
  forall (before : Q) (w0 : World),
    fst (Breeze.setPower overall (fst (Breeze.setPower before b w0)) w) = b'.
Proof.
  intros Hw Hmin Hle Hmax Hforce. cbv zeta.
  unfold Breeze.setPower. cbn [Math_random fst Breeze.backPower Breeze.attributes Breeze.power
    Breeze.direction Breeze.musicFactor Breeze.waveSpreadMin Breeze.waveSpreadMax Breeze.type
    Breeze.view Vec2.x Vec2.y].
  destruct (Hw (draws w)) as [Hr0 Hr1].
  set (r := seed w (draws w)) in *.
  set (lo := Breeze.waveSpreadMin (Breeze.attributes b)) in *.
  set (hi := Breeze.waveSpreadMax (Breeze.attributes b)) in *.
  set (force := overall * Breeze.musicFactor (Breeze.attributes b)) in *.
  assert (Hf0 : 0 <= r * (hi - lo) + lo) by nra.
  assert (Hf1 : r * (hi - lo) + lo <= 1) by nra.
  set (fraction := r * (hi - lo) + lo) in *.
  assert (Hs0 : 0 <= force * fraction) by (apply Qmult_le_0_compat; assumption).
  assert (Hs1 : force * fraction <= force) by nra.
  destruct (Breeze.direction b); cbn [Breeze.Axis_eqb];
    repeat (split; [first [ring | lra]|]); intros; reflexivity.
Qed.

Lemma setPower_shares_force_witness :
  let b' := fst (Breeze.setPower 1 Sample.wind Sample.varied) in
  Vec2.x (Breeze.backPower b') + Vec2.y (Breeze.backPower b') == 4 /\
  0 <= Vec2.x (Breeze.backPower b') /\ Vec2.x (Breeze.backPower b') <= 4.
Proof.
  destruct (setPower_shares_force 1 Sample.wind Sample.varied varied_unit_interval)
    as (Hsum & _ & H0 & H1 & _).
  - vm_compute. discriminate.
  - vm_compute. discriminate.
  - vm_compute. discriminate.
  - vm_compute. discriminate.
  - cbv zeta. split; [exact Hsum|]. split; [exact H0 | exact H1].
Defined.

(** X10: a breeze as the constructor leaves it has no back power: until
    [setPower] is called, every wave piece that it pushes on a speck has
    the power zero on both axes. *)
Theorem initialize_pushes_no_back_force (M : Math) (o : Breeze.Options) (d : Speck.Data)
    (p : Vec.t) (w : World) :
  Speck.position (Speck.attributes d) = Some p ->
  exists d' w' piece,
    Breeze.apply M (Breeze.initialize o) (Speck.Init d) w = Done (Speck.Init d', w') /\
    last (Speck.wave d') = Some piece /\
    Speck.time piece = inject_Z (clock w (reads w)) + Speck.waveLag * 1000 /\
    Vec2.x (Speck.power piece) == 0 /\
    Vec2.y (Speck.power piece) == 0.
Proof.
  intros Hp.
  destruct (apply_shape M (Breeze.initialize o) d p w Hp)
    as (distance & direct & back & w' & _ & Hrun & _ & _ & _ & _ & _ & _ & Halong & Hacross).
  exists (Speck.setForce_at (clock w (reads w)) direct back d), w',
    (pushed (clock w (reads w)) back).
  split; [exact Hrun|].
  destruct (setForce_at_spec (clock w (reads w)) direct back d) as (_ & _ & _ & Hlast & _).
  split; [exact Hlast|]. split; [reflexivity|].
  cbn [pushed Speck.power].
  cbv zeta in Halong.
  change (Breeze.backPower (Breeze.initialize o)) with (Vec2.mk 0 0) in *.
  destruct (Breeze.direction (Breeze.initialize o));
    cbn [across Breeze.at_axis Vec2.x Vec2.y] in Halong, Hacross;
    rewrite Halong, Hacross; split; ring.
Qed.

Lemma initialize_pushes_no_back_force_witness :
  exists d' w' piece,
    Breeze.apply Sample.math Sample.wind (Speck.Init (Sample.speck_at 1))
      (Sample.world (1 # 2) 1000) = Done (Speck.Init d', w') /\
    last (Speck.wave d') = Some piece /\
    Vec2.x (Speck.power piece) == 0 /\
    Vec2.y (Speck.power piece) == 0.
Proof.
  destruct (initialize_pushes_no_back_force Sample.math
              {| Breeze.opt_type := Some Breeze.Up;
                 Breeze.opt_power := Some (Vec2.mk 0 100);
                 Breeze.opt_musicFactor := None;
                 Breeze.opt_waveSpreadMin := None;
                 Breeze.opt_waveSpreadMax := None;
                 Breeze.size := {| width := 4; height := 2 |} |}
              (Sample.speck_at 1) (Vec.mk 0 1 0) (Sample.world (1 # 2) 1000))
    as (d' & w' & piece & Hrun & Hlast & _ & Hx & Hy).
  - reflexivity.
  - exists d', w', piece. repeat (split; [assumption|]). assumption.
Defined.

(** * More of the cloud *)




Lemma sign_of_abs (r : Q) : Qabs (Cloud.sign_of r) == 1.
Proof. unfold Cloud.sign_of. destruct (r <? 5 # 10); reflexivity. Qed.

Lemma sign_of_cases (r : Q) : Cloud.sign_of r = -1 \/ Cloud.sign_of r = 1.
Proof. unfold Cloud.sign_of. destruct (r <? 5 # 10); auto. Qed.

(** X12: where a thrown speck starts and where it heads.  For a
    registered type, a view of positive width and height, a positive
    inertia factor and draws in [0, 1), [generateThrowDirection] makes
    four draws and gives the colour of the emitter and no inertia along z.
    From the bottom the speck starts on the bottom edge ([y = height / 2])
    and moves up at [height / 2] times the factor; from the sides it starts
    on the left or right edge ([|x| = width / 2]) and moves towards the
    middle at [width / 2] times the factor.  The drift on the other axis is
    between 20% and 50% of that speed. *)
Theorem generateThrowDirection_geometry (M : Math) (c : Cloud.t) (type : string)
    (params : Cloud.ThrowParams) (w : World) :
  Cloud.throw c !! type = Some params ->
  unit_interval w ->
  0 < width (Cloud.viewPortSize c) ->
  0 < height (Cloud.viewPortSize c) ->
  0 < Cloud.inertiaFactor params ->
  exists pos inertia spread,
    Cloud.generateThrowDirection M c type w
    = ({| Speck.opt_position := Some pos; Speck.opt_inertia := Some inertia;
          Speck.opt_color := Some (Cloud.color params) |},
       {| seed := seed w; draws := 4 + draws w; clock := clock w; reads := reads w |}) /\
    2 # 10 <= spread /\ spread < 5 # 10 /\
    Vec.z inertia = 0 /\
    match Cloud.from params with
    | Cloud.bottom =>
        Vec.y pos = height (Cloud.viewPortSize c) / 2 /\
        Vec.y inertia == - (height (Cloud.viewPortSize c) / 2 * Cloud.inertiaFactor params) /\
        Vec.y inertia < 0 /\
        Qabs (Vec.x inertia) == Qabs (Vec.y inertia) * spread
    | _ =>
        Qabs (Vec.x pos) == width (Cloud.viewPortSize c) / 2 /\
        Qabs (Vec.x inertia)
        == width (Cloud.viewPortSize c) / 2 * Cloud.inertiaFactor params /\
        Vec.x pos * Vec.x inertia < 0 /\
        Qabs (Vec.y inertia) == Qabs (Vec.x inertia) * spread
    end.
Proof.
  intros Hparams Hw Hwidth Hheight Hfactor.
  unfold Cloud.generateThrowDirection. rewrite Hparams.
  cbn [Math_random seed draws clock reads].
  destruct (Hw (draws w)) as [Hr0 Hr1].
  set (spread := (3 # 10) * seed w (draws w) + (2 # 10)).
  assert (Hs0 : 2 # 10 <= spread) by (unfold spread; lra).
  assert (Hs1 : spread < 5 # 10) by (unfold spread; lra).
  set (W := width (Cloud.viewPortSize c)) in *.
  set (H := height (Cloud.viewPortSize c)) in *.
  set (f := Cloud.inertiaFactor params) in *.
  assert (HW : 0 < W / 2) by (apply Qlt_shift_div_l; lra).
  assert (HH : 0 < H / 2) by (apply Qlt_shift_div_l; lra).
  assert (HWf : 0 < W / 2 * f) by (apply Qmult_lt_0_compat; assumption).
  assert (HHf : 0 < H / 2 * f) by (apply Qmult_lt_0_compat; assumption).
  destruct (Cloud.from params);
    (do 3 eexists; split; [reflexivity|]); (split; [exact Hs0|]); (split; [exact Hs1|]);
    (split; [reflexivity|]); cbn [Vec.x Vec.y Vec.z].
  - split; [reflexivity|].
    assert (Hy : - H / 2 * f == - (H / 2 * f)) by field.
    split; [exact Hy|]. split; [rewrite Hy; lra|].
    rewrite !Qabs_Qmult, sign_of_abs. rewrite (Qabs_pos spread) by lra. ring.
  - set (sx := Cloud.sign_of (seed w (S (S (draws w))))).
    assert (Hpx : sx * W / 2 == sx * (W / 2)) by field.
    destruct (sign_of_cases (seed w (S (S (draws w))))) as [Hsx|Hsx]; fold sx in Hsx;
      rewrite Hsx in *.
    + assert (Hneg : (-1 * W / 2 <? 0) = true) by (apply Qltb_lt; rewrite Hpx; lra).
      rewrite Hneg.
      assert (Hix : 1 * W / 2 * f == W / 2 * f) by field.
      split; [rewrite Hpx, Qabs_neg by lra; ring|].
      split; [rewrite Hix, Qabs_pos by lra; reflexivity|].
      split; [rewrite Hix, Hpx; nra|].
      rewrite !Qabs_Qmult, sign_of_abs. rewrite (Qabs_pos spread) by lra. ring.
    + assert (Hpos : (1 * W / 2 <? 0) = false) by (apply Qltb_ge; rewrite Hpx; lra).
      rewrite Hpos.
      assert (Hix : -1 * W / 2 * f == - (W / 2 * f)) by field.
      split; [rewrite Hpx, Qabs_pos by lra; ring|].
      split; [rewrite Hix, Qabs_neg by lra; ring|].
      split; [rewrite Hix, Hpx; nra|].
      rewrite !Qabs_Qmult, sign_of_abs. rewrite (Qabs_pos spread) by lra. ring.
  - set (sx := Cloud.sign_of (seed w (S (S (draws w))))).
    assert (Hpx : sx * W / 2 == sx * (W / 2)) by field.
    destruct (sign_of_cases (seed w (S (S (draws w))))) as [Hsx|Hsx]; fold sx in Hsx;
      rewrite Hsx in *.
    + assert (Hneg : (-1 * W / 2 <? 0) = true) by (apply Qltb_lt; rewrite Hpx; lra).
      rewrite Hneg.
      assert (Hix : 1 * W / 2 * f == W / 2 * f) by field.
      split; [rewrite Hpx, Qabs_neg by lra; ring|].
      split; [rewrite Hix, Qabs_pos by lra; reflexivity|].
      split; [rewrite Hix, Hpx; nra|].
      rewrite !Qabs_Qmult, sign_of_abs. rewrite (Qabs_pos spread) by lra. ring.
    + assert (Hpos : (1 * W / 2 <? 0) = false) by (apply Qltb_ge; rewrite Hpx; lra).
      rewrite Hpos.
      assert (Hix : -1 * W / 2 * f == - (W / 2 * f)) by field.
      split; [rewrite Hpx, Qabs_pos by lra; ring|].
      split; [rewrite Hix, Qabs_neg by lra; ring|].
      split; [rewrite Hix, Hpx; nra|].
      rewrite !Qabs_Qmult, sign_of_abs. rewrite (Qabs_pos spread) by lra. ring.
Qed.

Lemma generateThrowDirection_geometry_witness :
  exists pos inertia,
    fst (Cloud.generateThrowDirection Sample.math (Sample.cloud 2 0) "bitBass" Sample.varied)
    = {| Speck.opt_position := Some pos; Speck.opt_inertia := Some inertia;
         Speck.opt_color := Some "#b725a3"%string |} /\
    Vec.y pos = 600 / 2 /\
    Vec.y inertia < 0 /\
    Vec.z inertia = 0.
Proof.
  destruct (generateThrowDirection_geometry Sample.math (Sample.cloud 2 0) "bitBass"
              {| Cloud.color := "#b725a3"; Cloud.inertiaFactor := 3 # 10;
                 Cloud.from := Cloud.bottom |} Sample.varied)
    as (pos & inertia & spread & Hrun & _ & _ & Hz & Hy & _ & Hup & _).
  - vm_compute. reflexivity.
  - exact varied_unit_interval.
  - vm_compute. reflexivity.
  - vm_compute. reflexivity.
  - vm_compute. reflexivity.
  - exists pos, inertia. rewrite Hrun. split; [reflexivity|].
    split; [exact Hy|]. split; [exact Hup | exact Hz].
Defined.




Lemma maxPerType_positive (type : string) (max : Q) :
  Cloud.maxPerType !! type = Some max -> 0 < max.
Proof.
  unfold Cloud.maxPerType. intros H.
  repeat (apply lookup_insert_Some in H; destruct H as [[_ <-]|[_ H]]; [reflexivity|]).
  apply lookup_singleton_Some in H. destruct H as [_ <-]. reflexivity.
Qed.

(** X14: the threshold of the throw callbacks.  For a group that
    [maxPerType] lists with the maximum [max], the callback does nothing
    while the magnitude is at most two thirds of [max]; above that, and up
    to [max], it throws exactly one speck when [throwRate] is 1 and a slot
    is free.  For a group that [maxPerType] does not list the callback
    never throws, whatever the magnitude. *)
Theorem on_throw_threshold (M : Math) (type : string) (max overall : Q) (c : Cloud.t)
    (w : World) :
  Cloud.maxPerType !! type = Some max ->
  (0 <= Cloud.activeSpecks c < Z.of_nat (length (Cloud.specks c)))%Z ->
  Cloud.throwRate (Cloud.options c) == 1 ->
  (overall <= max * 2 / 3 -> Cloud.on_throw M overall type (c, w) = Done (c, w)) /\
  (max * 2 / 3 < overall -> overall <= max ->
   exists c' w',
     Cloud.on_throw M overall type (c, w) = Done (c', w') /\
     Cloud.activeSpecks c' = (Cloud.activeSpecks c + 1)%Z /\
     length (Cloud.specks c') = length (Cloud.specks c) /\
     forall j : nat,
       Z.of_nat j <> Cloud.activeSpecks c -> Cloud.specks c' !! j = Cloud.specks c !! j) /\
  (forall other : string,
     Cloud.maxPerType !! other = None -> Cloud.on_throw M overall other (c, w) = Done (c, w)).
Proof.
  intros Hmax Hfree Hrate.
  pose proof (maxPerType_positive type max Hmax) as Hpos.
  assert (Hmin : max * 2 / 3 == max * (2 # 3)) by field.
  split; [|split].
  - intros Hlow. unfold Cloud.on_throw. rewrite Hmax.
    assert (E : (max * 2 / 3 <? overall) = false) by (apply Qltb_ge; exact Hlow).
    rewrite E. reflexivity.
  - intros Hlow Hhigh. unfold Cloud.on_throw. rewrite Hmax.
    assert (E : (max * 2 / 3 <? overall) = true) by (apply Qltb_lt; exact Hlow).
    rewrite E. cbn [fst snd].
    set (count := (overall - max * 2 / 3) / (max - max * 2 / 3)).
    destruct (throwSpecks_spec M type count c w)
      as (c' & w' & Hrun & (_ & _ & _ & _ & Hlen) & _ & Ha & _ & Hold); [lia|].
    cbv zeta in Ha, Hold.
    assert (Hden : 0 < max - max * 2 / 3) by (rewrite Hmin; lra).
    assert (Hc0 : 0 < count).
    { unfold count. apply Qlt_shift_div_l; [exact Hden|]. lra. }
    assert (Hc1 : count <= 1).
    { unfold count. apply Qle_shift_div_r; [exact Hden|]. lra. }
    assert (Hceil : Qceiling (count * Cloud.throwRate (Cloud.options c)) = 1%Z).
    { assert (Hq : count * Cloud.throwRate (Cloud.options c) == count)
        by (rewrite Hrate; ring).
      rewrite (Qceiling_comp _ _ Hq).
      assert (H0 : (0 < Qceiling count)%Z).
      { apply below_ceiling. exact Hc0. }
      assert (H1 : (Qceiling count <= 1)%Z).
      { destruct (Z.le_gt_cases (Qceiling count) 1) as [Hle|Hgt]; [exact Hle|].
        apply below_ceiling in Hgt. change (inject_Z 1) with 1 in Hgt. lra. }
      lia. }
    rewrite Hceil in Ha, Hold.
    replace (Z.max 0 (Z.min 1 (Z.of_nat (length (Cloud.specks c)) - Cloud.activeSpecks c)))
      with 1%Z in * by lia.
    exists c', w'. split; [exact Hrun|]. split; [exact Ha|]. split; [exact Hlen|].
    intros j Hj. apply Hold. lia.
  - intros other Hother. unfold Cloud.on_throw. rewrite Hother. reflexivity.
Qed.

Lemma on_throw_threshold_witness :
  exists c' w',
    Cloud.on_throw Sample.math 300 "bitBass" (Sample.cloud 2 0, Sample.varied) = Done (c', w') /\
    Cloud.activeSpecks c' = 1%Z /\
    Cloud.on_throw Sample.math 200 "bitBass" (Sample.cloud 2 0, Sample.varied)
    = Done (Sample.cloud 2 0, Sample.varied).
Proof.
  destruct (on_throw_threshold Sample.math "bitBass" 350 300 (Sample.cloud 2 0) Sample.varied)
    as (_ & Hthrow & _).
  - vm_compute. reflexivity.
  - vm_compute. split; [discriminate | reflexivity].
  - vm_compute. reflexivity.
  - destruct Hthrow as (c' & w' & Hrun & Ha & _).
    + vm_compute. reflexivity.
    + vm_compute. discriminate.
    + exists c', w'. split; [exact Hrun|]. split; [exact Ha|].
      destruct (on_throw_threshold Sample.math "bitBass" 350 200 (Sample.cloud 2 0)
                  Sample.varied) as (Hquiet & _).
      * vm_compute. reflexivity.
      * vm_compute. split; [discriminate | reflexivity].
      * vm_compute. reflexivity.
      * apply Hquiet. vm_compute. discriminate.
Defined.

Lemma inject_Z_sub (a b : Z) : inject_Z (a - b) = inject_Z a - inject_Z b.
Proof. unfold Z.sub, Qminus. rewrite inject_Z_plus, inject_Z_opp. reflexivity. Qed.

Lemma measure_from (gaps : list nat) :
  forall (t : Z) (w : World),
    t <> 0%Z ->
    (forall n, clock w n <> 0%Z) ->
    exists dts last n,
      measure gaps (Some t) w = (dts, Some last) /\
      (last = t \/ (last = clock w n /\ (reads w <= n)%nat)) /\
      Qsum dts == (inject_Z last - inject_Z t) / 1000 /\
      ((forall i j, (i <= j)%nat -> (clock w i <= clock w j)%Z) ->
       (t <= clock w (reads w))%Z ->
       (t <= last)%Z /\ Forall (fun dt => 0 <= dt) dts).
Proof.
  induction gaps as [|k gaps IH]; intros t w Ht Hclock.
  - exists [], t, O. split; [reflexivity|]. split; [left; reflexivity|].
    split; [unfold Qsum; cbn [foldr]; field|].
    intros _ _. split; [lia | apply Forall_nil; exact I].
  - cbn [measure Cloud._dt Date_getTime].
    destruct (Z.eqb_spec t 0) as [E|_]; [contradiction|].
    set (now := clock w (reads w)).
    set (w1 := {| seed := _; draws := _; clock := _; reads := _ |}).
    destruct (IH now w1) as (dts & last & n & Hrun & Hlast & Hsum & Hmono).
    + apply Hclock.
    + exact Hclock.
    + rewrite Hrun.
      assert (Hn : exists n', last = clock w n' /\ (reads w <= n')%nat).
      { destruct Hlast as [->|[-> Hn]]; [exists (reads w); split; [reflexivity | lia]|].
        exists n. split; [reflexivity|]. cbn [reads w1] in Hn. lia. }
      destruct Hn as (n' & Hn' & Hreads).
      exists (inject_Z (now - t) / 1000 :: dts), last, n'.
      split; [reflexivity|]. split; [right; split; assumption|].
      split.
      { rewrite Qsum_cons, Hsum, inject_Z_sub. field. }
      intros Hup Hstart.
      destruct Hmono as [Hle Hall]; [exact Hup | apply Hup; cbn; lia |].
      split; [unfold now in Hle; lia|].
      apply Forall_cons. split; [|exact Hall].
      apply Qle_shift_div_l; [reflexivity|]. rewrite Qmult_0_l.
      change 0 with (inject_Z 0). rewrite <- Zle_Qle. lia.
Qed.

(** X15: the times that [_dt] measures add up to the time that has
    passed.  On a clock that never reads 0, the first call measures 0, and
    the sum of the times measured over any number of frames is the
    difference, in seconds, between the reading of the last call and the
    reading of the first; on a clock that does not run backwards no
    measured time is negative. *)
Theorem dt_telescopes (k : nat) (gaps : list nat) (w : World) :
  (forall n, clock w n <> 0%Z) ->
  exists dt dts last n,
    measure (k :: gaps) None w = (dt :: dts, Some last) /\
    dt == 0 /\
    last = clock w n /\ (reads w <= n)%nat /\
    Qsum (dt :: dts) == (inject_Z last - inject_Z (clock w (reads w))) / 1000 /\
    ((forall i j, (i <= j)%nat -> (clock w i <= clock w j)%Z) ->
     Forall (fun dt => 0 <= dt) (dt :: dts)).
Proof.
  intros Hclock. cbn [measure Cloud._dt Date_getTime].
  set (now := clock w (reads w)).
  set (w1 := {| seed := _; draws := _; clock := _; reads := _ |}).
  destruct (measure_from gaps now w1) as (dts & last & n & Hrun & Hlast & Hsum & Hmono).
  - apply Hclock.
  - exact Hclock.
  - rewrite Hrun.
    assert (Hzero : inject_Z (now - now) / 1000 == 0).
    { rewrite Z.sub_diag. reflexivity. }
    assert (Hn : exists n', last = clock w n' /\ (reads w <= n')%nat).
    { destruct Hlast as [->|[-> Hn]]; [exists (reads w); split; [reflexivity | lia]|].
      exists n. split; [reflexivity|]. cbn [reads w1] in Hn. lia. }
    destruct Hn as (n' & Hn' & Hreads).
    exists (inject_Z (now - now) / 1000), dts, last, n'.
    split; [reflexivity|]. split; [exact Hzero|].
    split; [exact Hn'|]. split; [exact Hreads|].
    split; [rewrite Qsum_cons, Hsum, Hzero; ring|].
    intros Hup. destruct Hmono as [_ Hall]; [exact Hup | apply Hup; cbn; lia |].
    apply Forall_cons. split; [rewrite Hzero; apply Qle_refl | exact Hall].
Qed.

Lemma dt_telescopes_witness :
  exists dt dts last,
    measure [2%nat; 0%nat; 5%nat] None Sample.varied = (dt :: dts, Some last) /\
    dt == 0 /\
    Qsum (dt :: dts) == (inject_Z last - 1000) / 1000 /\
    Forall (fun dt => 0 <= dt) (dt :: dts).
Proof.
  destruct (dt_telescopes 2 [0%nat; 5%nat] Sample.varied)
    as (dt & dts & last & n & Hrun & Hdt & _ & _ & Hsum & Hpos).
  - intros n. cbn [clock Sample.varied]. lia.
  - exists dt, dts, last. split; [exact Hrun|]. split; [exact Hdt|].
    split; [exact Hsum|]. apply Hpos.
    intros i j Hij. cbn [clock Sample.varied]. lia.
Defined.



(** ** Whole frames *)




















Lemma animate_loop_all_die (M : Math) (dt : Q) (fuel : nat) :
  forall (c : Cloud.t) (w : World),
    ready c ->
    (forall (j : nat) (d : Speck.Data),
       Cloud.specks c !! j = Some (Speck.Init d) -> (Z.of_nat j < Cloud.activeSpecks c)%Z ->
       Speck.lifeLeft (Speck.attributes d) <= dt) ->
    (Z.max 0 (Cloud.activeSpecks c) < Z.of_nat fuel)%Z ->
    exists c' w',
      Cloud.animate_loop M fuel dt 0 c w = Done (c', w') /\
      Cloud.activeSpecks c' = 0%Z /\
      length (Cloud.specks c') = length (Cloud.specks c).
Proof.
  induction fuel as [|fuel IH]; intros c w Hready Hshort Hfuel; [lia|].
  cbn [Cloud.animate_loop].
  destruct (Z.ltb_spec 0 (Cloud.activeSpecks c)) as [Hlt|Hge].
  - destruct (animate_body_returns M dt 0 c w) as (i1 & c1 & w1 & Hbody & Hready1);
      [lia | exact Hready |].
    rewrite Hbody. cbn [mbind outcome_bind].
    destruct (animate_body_done M dt 0 c w i1 c1 w1 (Z.le_refl 0) Hbody)
      as (_ & (_ & _ & _ & _ & Hlen) & s0 & d0 & d & Hs0 & -> & Hlife & _ & Hcase).
    assert (Hdead : Speck.isDead (Speck.Init d) = true).
    { apply isDead_true. rewrite Hlife.
      pose proof (Hshort _ d0 Hs0 ltac:(lia)). lra. }
    destruct Hcase as [(Halive & _) | (_ & -> & Ha & last & Hlast & Hspecks)];
      [congruence|].
    change (-1 + 1)%Z with 0%Z.
    destruct Hready as (Hact & _).
    apply lookupZ_Some in Hlast. destruct Hlast as [_ Hlast].
    destruct (IH c1 w1) as (c' & w' & Hrun & Ha' & Hlen').
    + exact Hready1.
    + rewrite Ha, Hspecks. intros j dj Hj Hlow.
      rewrite (swapped_lookup _ _ _ _ _ j) in Hj by (try eassumption; lia).
      destruct (decide (j = Z.to_nat (Cloud.activeSpecks c - 1))); [lia|].
      destruct (decide (j = Z.to_nat 0)); apply (Hshort _ dj Hj); lia.
    + lia.
    + exists c', w'. split; [exact Hrun|]. split; [exact Ha' | congruence].
  - exists c, w. destruct Hready as (Hact & _). split; [reflexivity|]. split; [lia | reflexivity].
Qed.

(** X18: a frame as long as the lives that are left empties the scene.
    When every active speck has a position and at most [dt] of life left,
    [_animate] returns with [activeSpecks] at 0 and the pool at its length:
    every speck dies in the frame and is swapped out of the active range. *)
Theorem animate_long_frame_empties (M : Math) (dt : Q) (c : Cloud.t) (w : World) :
  ready c ->
  (forall (j : nat) (d : Speck.Data),
     Cloud.specks c !! j = Some (Speck.Init d) -> (Z.of_nat j < Cloud.activeSpecks c)%Z ->
     Speck.lifeLeft (Speck.attributes d) <= dt) ->
  exists c' w',
    Cloud._animate M dt c w = Done (c', w') /\
    Cloud.activeSpecks c' = 0%Z /\
    length (Cloud.specks c') = length (Cloud.specks c).
Proof.
  intros Hready Hshort. unfold Cloud._animate.
  destruct (shed_spec dt c) as (c0 & Hshed & (_ & _ & _ & _ & Hlen) & Ha & Hslots).
  rewrite Hshed. cbn [mbind outcome_bind].
  destruct (animate_loop_all_die M dt (S (Z.to_nat (Cloud.activeSpecks c0))) c0 w)
    as (c' & w' & Hrun & Ha' & Hlen').
  - eapply shed_ready; eassumption.
  - rewrite Ha. intros j d Hj Hlow. destruct (Hslots j) as [Hsame|Hcut].
    + rewrite Hsame in Hj. eauto.
    + rewrite Hj in Hcut. destruct (Cloud.specks c !! j) as [[|d1]|] eqn:Hd1;
        try discriminate Hcut.
      pose proof (Hshort j d1 Hd1 Hlow) as Hl. cbn in Hcut. unfold Speck.shortenLife in Hcut.
      destruct (Speck.flashTime <? Speck.lifeLeft (Speck.attributes d1)) eqn:E;
        injection Hcut as ->; [|exact Hl].
      apply Qltb_lt in E.
      cbn [Speck.attributes Speck.set_attributes Speck.set_lifeLeft Speck.lifeLeft].
      eapply Qle_trans; [apply Qlt_le_weak; exact E | exact Hl].
  - lia.
  - exists c', w'. split; [exact Hrun|]. split; [exact Ha' | congruence].
Qed.

Lemma readyb_ready (c : Cloud.t) : readyb c = true -> ready c.
Proof.
  unfold readyb. intros H.
  apply andb_prop in H. destruct H as [H Hall].
  apply andb_prop in H. destruct H as [H0 H1].
  apply Z.leb_le in H0. apply Z.leb_le in H1.
  split; [lia|]. intros j s Hs Hj.
  rewrite forallb_forall in Hall.
  assert (Hin : In s (take (Z.to_nat (Cloud.activeSpecks c)) (Cloud.specks c))).
  { apply list_elem_of_In. apply (list_elem_of_lookup_2 _ j).
    rewrite lookup_take_lt by lia. exact Hs. }
  specialize (Hall s Hin). destruct s as [|d]; [discriminate Hall|].
  exists d. split; [reflexivity|]. cbn [position_of] in Hall.
  destruct (Speck.position (Speck.attributes d)); [eauto | discriminate Hall].
Qed.

Lemma lives_spec (test : Q -> Q -> bool) (dt : Q) (c : Cloud.t) :
  lives test dt c = true ->
  forall (j : nat) (d : Speck.Data),
    Cloud.specks c !! j = Some (Speck.Init d) -> (Z.of_nat j < Cloud.activeSpecks c)%Z ->
    test (Speck.lifeLeft (Speck.attributes d)) dt = true.
Proof.
  unfold lives. intros Hall j d Hd Hj.
  rewrite forallb_forall in Hall.
  apply (Hall (Speck.Init d)).
  apply list_elem_of_In. apply (list_elem_of_lookup_2 _ j).
  rewrite lookup_take_lt by lia. exact Hd.
Qed.

Lemma animate_long_frame_empties_witness :
  exists c' w',
    Cloud._animate Sample.math 5 Sample.crowd_pool Sample.crowd_world = Done (c', w') /\
    Cloud.activeSpecks c' = 0%Z /\
    length (Cloud.specks c') = 6%nat.
Proof.
  apply (animate_long_frame_empties Sample.math 5 Sample.crowd_pool Sample.crowd_world).
  - apply readyb_ready. vm_compute. reflexivity.
  - intros j d Hd Hj. apply Qleb_le.
    apply (lives_spec Qle_bool 5 Sample.crowd_pool ltac:(vm_compute; reflexivity) j d Hd Hj).
Defined.

Lemma animate_loop_all_live (M : Math) (dt : Q) (fuel : nat) :
  forall (i : Z) (c : Cloud.t) (w : World),
    (0 <= i)%Z ->
    ready c ->
    (forall (j : nat) (d : Speck.Data),
       Cloud.specks c !! j = Some (Speck.Init d) ->
       (i <= Z.of_nat j < Cloud.activeSpecks c)%Z ->
       dt < Speck.lifeLeft (Speck.attributes d)) ->
    (Z.max 0 (Cloud.activeSpecks c - i) < Z.of_nat fuel)%Z ->
    exists c' w',
      Cloud.animate_loop M fuel dt i c w = Done (c', w') /\
      Cloud.activeSpecks c' = Cloud.activeSpecks c /\
      length (Cloud.specks c') = length (Cloud.specks c) /\
      (forall j : nat,
         (i <= Z.of_nat j < Cloud.activeSpecks c)%Z ->
         exists d d',
           Cloud.specks c !! j = Some (Speck.Init d) /\
           Cloud.specks c' !! j = Some (Speck.Init d') /\
           Speck.lifeLeft (Speck.attributes d') = Speck.lifeLeft (Speck.attributes d) - dt) /\
      (forall j : nat,
         ~ (i <= Z.of_nat j < Cloud.activeSpecks c)%Z ->
         Cloud.specks c' !! j = Cloud.specks c !! j).
Proof.
  induction fuel as [|fuel IH]; intros i c w Hi Hready Hlong Hfuel; [lia|].
  cbn [Cloud.animate_loop].
  destruct (Z.ltb_spec i (Cloud.activeSpecks c)) as [Hlt|Hge].
  - destruct (animate_body_returns M dt i c w) as (i1 & c1 & w1 & Hbody & Hready1);
      [lia | exact Hready |].
    rewrite Hbody. cbn [mbind outcome_bind].
    destruct (animate_body_done M dt i c w i1 c1 w1 Hi Hbody)
      as (_ & (_ & _ & _ & _ & Hlen) & s0 & d0 & d & Hs0 & -> & Hlife & _ & Hcase).
    assert (Hlive : Speck.isDead (Speck.Init d) = false).
    { apply isDead_false. rewrite Hlife.
      pose proof (Hlong _ d0 Hs0 ltac:(lia)). lra. }
    destruct Hcase as [(_ & -> & Ha & Hspecks) | (Hdead & _)]; [|congruence].
    destruct (IH (i + 1)%Z c1 w1) as (c' & w' & Hrun & Ha' & Hlen' & Hmoved & Hrest).
    + lia.
    + exact Hready1.
    + rewrite Ha, Hspecks. intros j dj Hj Hrange.
      rewrite list_lookup_insert_ne in Hj by lia. apply (Hlong j dj Hj). lia.
    + lia.
    + rewrite Ha in *. rewrite Hspecks in *.
      exists c', w'. split; [exact Hrun|]. split; [exact Ha'|].
      split; [congruence|]. split.
      * intros j Hj. destruct (decide (j = Z.to_nat i)) as [->|Hne].
        -- exists d0, d. split; [exact Hs0|]. split; [|exact Hlife].
           rewrite Hrest by lia. apply list_lookup_insert_eq.
           eapply lookup_lt_Some. exact Hs0.
        -- destruct (Hmoved j) as (dj & dj' & Hdj & Hdj' & Hl); [lia|].
           rewrite list_lookup_insert_ne in Hdj by congruence. eauto.
      * intros j Hj. rewrite Hrest by lia. apply list_lookup_insert_ne. lia.
  - exists c, w. split; [reflexivity|]. split; [reflexivity|]. split; [reflexivity|].
    split; [intros j Hj; lia | reflexivity].
Qed.

(** X19: a frame in which no speck dies keeps every speck in its slot.
    When the measured time is below [maxLag] and every active speck has a
    position and more than [dt] of life left, [_animate] returns with the
    same [activeSpecks]; every active slot holds its speck with [dt] less
    of life; the slots from [activeSpecks] on are as they were. *)
Theorem animate_quiet_frame (M : Math) (dt : Q) (c : Cloud.t) (w : World) :
  ready c ->
  dt < Cloud.maxLag (Cloud.options c) ->
  (forall (j : nat) (d : Speck.Data),
     Cloud.specks c !! j = Some (Speck.Init d) -> (Z.of_nat j < Cloud.activeSpecks c)%Z ->
     dt < Speck.lifeLeft (Speck.attributes d)) ->
  exists c' w',
    Cloud._animate M dt c w = Done (c', w') /\
    Cloud.activeSpecks c' = Cloud.activeSpecks c /\
    length (Cloud.specks c') = length (Cloud.specks c) /\
    (forall j : nat,
       (Z.of_nat j < Cloud.activeSpecks c)%Z ->
       exists d d',
         Cloud.specks c !! j = Some (Speck.Init d) /\
         Cloud.specks c' !! j = Some (Speck.Init d') /\
         Speck.lifeLeft (Speck.attributes d') = Speck.lifeLeft (Speck.attributes d) - dt) /\
    (forall j : nat,
       (Cloud.activeSpecks c <= Z.of_nat j)%Z ->
       Cloud.specks c' !! j = Cloud.specks c !! j).
Proof.
  intros Hready Hquick Hlong. unfold Cloud._animate.
  rewrite (shed_idle dt c Hquick). cbn [mbind outcome_bind].
  destruct (animate_loop_all_live M dt (S (Z.to_nat (Cloud.activeSpecks c))) 0 c w)
    as (c' & w' & Hrun & Ha & Hlen & Hmoved & Hrest).
  - lia.
  - exact Hready.
  - intros j d Hd Hj. apply (Hlong j d Hd). lia.
  - lia.
  - exists c', w'. split; [exact Hrun|]. split; [exact Ha|]. split; [exact Hlen|].
    split; [intros j Hj; apply Hmoved; lia | intros j Hj; apply Hrest; lia].
Qed.

Lemma animate_quiet_frame_witness :
  exists c' w',
    Cloud._animate Sample.math (1 # 60) Sample.crowd_pool Sample.crowd_world = Done (c', w') /\
    Cloud.activeSpecks c' = 5%Z /\
    length (Cloud.specks c') = 6%nat.
Proof.
  destruct (animate_quiet_frame Sample.math (1 # 60) Sample.crowd_pool Sample.crowd_world)
    as (c' & w' & Hrun & Ha & Hlen & _).
  - apply readyb_ready. vm_compute. reflexivity.
  - vm_compute. reflexivity.
  - intros j d Hd Hj. apply Qltb_lt.
    apply (lives_spec (fun l dt => Qltb dt l) (1 # 60) Sample.crowd_pool
             ltac:(vm_compute; reflexivity) j d Hd Hj).
  - exists c', w'. split; [exact Hrun|]. split; [exact Ha | exact Hlen].
Defined.

(** * The music *)

Lemma number_of_range (b : Byte.byte) : 0 <= Music.number_of b /\ Music.number_of b <= 255.
Proof.
  unfold Music.number_of. pose proof (Byte.to_N_bounded b) as H.
  change 0 with (inject_Z 0). change 255 with (inject_Z 255).
  rewrite <- !Zle_Qle. lia.
Qed.

(** What one bin adds to the sum. *)
Lemma sumAll_adds (cut sum v : Q) :
  0 <= v ->
  exists a,
    Music.sumAll cut sum v == sum + a /\ 0 <= a /\ a <= v /\
    (Qeq_bool cut 0 = true -> a == v) /\
    (0 < cut -> v <= cut -> a == 0).
Proof.
  intros Hv. unfold Music.sumAll.
  destruct (0 <? v) eqn:Hpos; cbn [andb].
  - apply Qltb_lt in Hpos.
    destruct (Qeq_bool cut 0) eqn:Hcut; cbn [negb].
    + assert (E : (0 <? v - 0) = true) by (apply Qltb_lt; lra). rewrite E.
      exists (v - 0). split; [reflexivity|]. split; [lra|]. split; [lra|].
      split; [intros _; ring|]. intros Hc. apply Qeq_bool_iff in Hcut. lra.
    + assert (Hred : 0 <= cut * (cut / v)).
      { unfold Qdiv. rewrite Qmult_assoc.
        apply Qmult_le_0_compat; [nra|]. apply Qlt_le_weak, Qinv_lt_0_compat. exact Hpos. }
      destruct (0 <? v - cut * (cut / v)) eqn:E.
      * apply Qltb_lt in E.
        exists (v - cut * (cut / v)). split; [reflexivity|]. split; [lra|]. split; [lra|].
        split; [intros H; discriminate H|].
        intros Hc Hle. exfalso.
        assert (Hvv : v * v <= cut * cut) by nra.
        assert (Hq : cut * (cut / v) * v == cut * cut) by (field; lra).
        assert (Hlt : cut * (cut / v) * v < v * v) by nra.
        lra.
      * exists 0. split; [reflexivity|]. split; [lra|]. split; [lra|].
        split; [intros H; discriminate H | intros; reflexivity].
  - apply Qltb_ge in Hpos. assert (Hv0 : v == 0) by lra.
    assert (E : (0 <? v - 0) = false) by (apply Qltb_ge; lra). rewrite E.
    exists 0. split; [reflexivity|]. split; [lra|]. split; [lra|].
    split; [intros _; lra | intros; reflexivity].
Qed.

Lemma foldl_sumAll_comp (cut : Q) (vs : list Q) :
  forall x y : Q, x == y -> foldl (Music.sumAll cut) x vs == foldl (Music.sumAll cut) y vs.
Proof.
  induction vs as [|v vs IH]; intros x y Hxy; [exact Hxy|].
  cbn [foldl]. apply IH. unfold Music.sumAll. rewrite Hxy. reflexivity.
Qed.

Lemma sum_of_bins (cut : Q) (bins : list Byte.byte) :
  forall sum : Q,
    exists total,
      foldl (Music.sumAll cut) sum (Music.number_of <$> bins) == sum + total /\
      0 <= total /\ total <= 255 * inject_Z (Z.of_nat (length bins)) /\
      (Qeq_bool cut 0 = true -> total == Qsum (Music.number_of <$> bins)) /\
      (0 < cut -> Forall (fun b => Music.number_of b <= cut) bins -> total == 0).
Proof.
  induction bins as [|b bins IH]; intros sum.
  - exists 0. cbn [fmap list_fmap foldl length]. split; [ring|]. split; [lra|].
    split; [vm_compute; discriminate|]. split; intros; reflexivity.
  - cbn [fmap list_fmap foldl].
    destruct (number_of_range b) as [Hb0 Hb1].
    destruct (sumAll_adds cut sum (Music.number_of b) Hb0) as (a & Ha & Ha0 & Ha1 & Hz & Hc).
    destruct (IH (sum + a)) as (total & Ht & Ht0 & Ht1 & Htz & Htc).
    exists (a + total). split.
    { rewrite (foldl_sumAll_comp cut _ _ _ Ha), Ht. ring. }
    split; [lra|]. split.
    { cbn [length]. rewrite Nat2Z.inj_succ. unfold Z.succ. rewrite inject_Z_plus.
      change (inject_Z 1) with 1. lra. }
    split.
    + intros Hcut. rewrite Qsum_cons, (Hz Hcut), (Htz Hcut). reflexivity.
    + intros Hcut Hall. apply Forall_cons in Hall. destruct Hall as [Hb Hall].
      rewrite (Hc Hcut Hb), (Htc Hcut Hall). reflexivity.
Qed.

(** X20: the magnitude of a group.  For a range of bins that is not empty
    the magnitude is a number [x] between 0 and 255, sharpened by
    [Math.pow(x, 1.4)] for the two bass groups.  For the other groups [x]
    is the sum of the bins of the slice divided by the width of the range.
    For the bass groups, with a positive [bassCut], a bin at or below
    [bassCut] adds nothing: when no bin of the slice is above it, [x] is
    0.  Every range of [relation] is such a range. *)
Theorem overall_of_group (M : Math) (cut : Q) (freqByteData : list Byte.byte) (i : string)
    (lo hi : nat) :
  (lo < hi)%nat ->
  Forall (fun g => (fst (snd g) < snd (snd g))%nat) Music.relation /\
  exists x,
    Music.overall M cut freqByteData i (lo, hi)
    = (if Music.is_bass i then Math_pow M x (14 # 10) else x) /\
    0 <= x /\ x <= 255 /\
    (Music.is_bass i = false ->
     x == Qsum (Music.number_of <$> take (hi - lo) (drop lo freqByteData))
          / inject_Z (Z.of_nat (hi - lo))) /\
    (Music.is_bass i = true -> 0 < cut ->
     Forall (fun b => Music.number_of b <= cut) (take (hi - lo) (drop lo freqByteData)) ->
     x == 0).
Proof.
  intros Hrange. split.
  { unfold Music.relation. repeat (apply Forall_cons; split; [cbn; lia|]).
    apply Forall_nil. exact I. }
  unfold Music.overall. cbn [fst snd].
  set (bins := take (hi - lo) (drop lo freqByteData)).
  set (c := if Music.is_bass i then cut else 0).
  destruct (sum_of_bins c bins 0) as (total & Hsum & H0 & H1 & Hplain & Hcut).
  set (sum := foldl (Music.sumAll c) 0 (Music.number_of <$> bins)) in *.
  set (width := inject_Z (Z.of_nat hi) - inject_Z (Z.of_nat lo)).
  assert (Hwidth : width == inject_Z (Z.of_nat (hi - lo))).
  { unfold width. rewrite Nat2Z.inj_sub by lia. rewrite inject_Z_sub. reflexivity. }
  assert (Hpos : 0 < width).
  { rewrite Hwidth. change 0 with (inject_Z 0). rewrite <- Zlt_Qlt. lia. }
  assert (Hlen : inject_Z (Z.of_nat (length bins)) <= width).
  { rewrite Hwidth. rewrite <- Zle_Qle. unfold bins. rewrite length_take. lia. }
  assert (Hs : sum == total) by (rewrite Hsum; ring).
  exists (sum / width). split; [reflexivity|].
  split; [apply Qle_shift_div_l; [exact Hpos | lra]|].
  split; [apply Qle_shift_div_r; [exact Hpos | nra]|].
  split.
  - intros Hbass. unfold c in Hplain. rewrite Hbass in Hplain.
    rewrite Hs, (Hplain eq_refl), Hwidth. reflexivity.
  - intros Hbass Hc Hall. unfold c in Hcut. rewrite Hbass in Hcut.
    rewrite Hs, (Hcut Hc Hall). unfold Qdiv. apply Qmult_0_l.
Qed.

Lemma overall_of_group_witness :
  exists x,
    Music.overall Sample.math 200 Sample.loud "middleLow" (100%nat, 150%nat) = x /\
    0 <= x /\ x <= 255.
Proof.
  destruct (overall_of_group Sample.math 200 Sample.loud "middleLow" 100 150)
    as (_ & x & Hx & H0 & H1 & _).
  - lia.
  - exists x. split; [exact Hx|]. split; [exact H0 | exact H1].
Defined.




(** * More of [reset] over the store *)

Section MoreStoreFacts.
Import Store.

Lemma get_set (l : loc) (k : string) (v : val) (h : heap) (l' : loc) (k' : string) :
  get (set l k v h) l' k' = if decide (l' = l /\ k' = k) then Some v else get h l' k'.
Proof.
  unfold get, props, set.
  destruct (decide (l' = l)) as [->|Hl].
  - rewrite lookup_insert_eq.
    match goal with
    | |- context [default ∅ (Some ?m)] => change (default ∅ (Some m)) with m
    end.
    destruct (decide (k' = k)) as [->|Hk].
    + rewrite lookup_insert_eq. rewrite decide_True by auto. reflexivity.
    + rewrite lookup_insert_ne by congruence.
      rewrite decide_False by (intros [_ ?]; contradiction). reflexivity.
  - rewrite lookup_insert_ne by congruence.
    rewrite decide_False by (intros [? _]; contradiction). reflexivity.
Qed.

Lemma generate_get (M : Math) (la lf : loc) (h : heap) (w : World) (x : loc) (k : string) :
  (x <> la \/
   k ∉ ["life"; "lifeLeft"; "flashAngle"; "flashRotateAngle"; "wieght"; "density";
        "radius"]%string) ->
  (x <> lf \/ k <> "y"%string) ->
  get (snd (fst (generate M la lf h w))) x k = get h x k.
Proof.
  intros Ha Hf. unfold generate. cbn [Math_random fst snd].
  rewrite !get_set.
  repeat match goal with
    | |- context [decide (?P /\ ?Q)] =>
        rewrite (decide_False (P := P /\ Q));
        [|intros [-> ->]; first [destruct Hf as [Hf|Hf]; contradiction
                               |destruct Ha as [Ha|Ha]; [contradiction|];
                                apply Ha; repeat first [left | right; left | right]]]
    end.
  reflexivity.
Qed.

(** X22: [reset] over the store, for any options object.  The speck's
    [attributes] is a new object.  Its [position] is the very value of the
    options' [position]: when that is an object, the speck shares it with
    the caller, it is not copied.  Its [color] is the options' colour, or
    the default colour when the options have none.  No object that existed
    before the call is changed, except the options object itself; and the
    options object is left as it was when it carries no inertia. *)
Theorem reset_shares_position (M : Math) (options : loc) (h : heap) (w : World) :
  is_Some (h !! options) ->
  let s := fst (fst (reset M options h w)) in
  let h' := snd (fst (reset M options h w)) in
  h !! attributes s = None /\
  get h' (attributes s) "position" = get h options "position" /\
  get h' (attributes s) "color"
  = Some (default (Str Speck.default_color) (get h options "color")) /\
  (forall x : loc, is_Some (h !! x) -> x <> options -> h' !! x = h !! x) /\
  (truthy (get h options "inertia") = false -> h' !! options = h !! options).
Proof.
  intros Hopt s h'. subst s h'. unfold reset.
  destruct (alloc ∅ h) as [l0 h0] eqn:E0. apply alloc_spec in E0. destruct E0 as [F0 ->].
  destruct (alloc ∅ _) as [lw h1] eqn:E1. apply alloc_spec in E1. destruct E1 as [F1 ->].
  destruct (alloc (vec 0 0 0) _) as [lf h2] eqn:E2. apply alloc_spec in E2.
  destruct E2 as [F2 ->].
  cbn [Date_getTime].
  apply lookup_insert_None in F1. destruct F1 as [F1 N1].
  apply lookup_insert_None in F2. destruct F2 as [F2 N2].
  apply lookup_insert_None in F2. destruct F2 as [F2 N3].
  set (h2 := <[lf := vec 0 0 0]> (<[lw := ∅]> (<[l0 := ∅]> h))) in *.
  assert (Hold : forall x, is_Some (h !! x) -> h2 !! x = h !! x).
  { intros x [ox Hx]. unfold h2.
    rewrite !lookup_insert_ne by congruence. reflexivity. }
  assert (Hget2 : forall k, get h2 options k = get h options k).
  { intros k. unfold get, props. rewrite (Hold options Hopt). reflexivity. }
  rewrite Hget2.
  assert (Hshape : exists (li : loc) (h4 : heap) (w4 : World),
            (if truthy (get h options "inertia")
             then let '(l, h) := alloc ∅ h2 in
                  (l, delete_prop options "inertia" (_extend l (get h options "inertia") h),
                   {| seed := seed w; draws := draws w; clock := clock w;
                      reads := S (reads w) |})
             else let '(r1, w) := Math_random {| seed := seed w; draws := draws w;
                                                 clock := clock w; reads := S (reads w) |} in
                  let '(r2, w) := Math_random w in
                  let '(r3, w) := Math_random w in
                  let '(l, h) := alloc (vec (Speck.startInertiaFactor * (r1 - 1 / 2) * 2)
                                            (Speck.startInertiaFactor * (r2 - 1 / 2) * 2)
                                            (Speck.startInertiaFactor * (r3 - 1 / 2) * 2)) h2 in
                  (l, h, w))
            = (li, h4, w4) /\
            h2 !! li = None /\
            (forall x, x <> li -> x <> options -> h4 !! x = h2 !! x) /\
            (forall k, k <> "inertia"%string -> get h4 options k = get h options k) /\
            is_Some (h4 !! options) /\ is_Some (h4 !! lf) /\
            (truthy (get h options "inertia") = false -> h4 !! options = h !! options)).
  { destruct (truthy (get h options "inertia")) eqn:Htruthy.
    - destruct (alloc ∅ h2) as [li h3] eqn:E3. apply alloc_spec in E3.
      destruct E3 as [F3 ->].
      assert (Hli_o : li <> options).
      { intros ->. rewrite (Hold options Hopt) in F3. destruct Hopt; congruence. }
      assert (Hli_f : li <> lf).
      { intros ->. unfold h2 in F3. rewrite lookup_insert_eq in F3. discriminate. }
      do 3 eexists. split; [reflexivity|]. split; [exact F3|].
      set (from := get (<[li := ∅]> h2) options "inertia").
      assert (H4_o : delete_prop options "inertia"
                       (_extend li from (<[li := ∅]> h2)) !! options
                     = delete "inertia" <$> h !! options).
      { unfold delete_prop. rewrite lookup_alter_eq.
        rewrite extend_other by congruence.
        rewrite lookup_insert_ne by congruence. rewrite (Hold options Hopt). reflexivity. }
      split; [|split; [|split; [|split; [|intros H; discriminate H]]]].
      + intros x Hx1 Hx2. unfold delete_prop. rewrite lookup_alter_ne by congruence.
        rewrite extend_other by congruence. apply lookup_insert_ne. congruence.
      + intros k Hk. unfold get, props. rewrite H4_o. destruct Hopt as [o ->]. cbn.
        apply lookup_delete_ne. congruence.
      + rewrite H4_o. destruct Hopt as [o ->]. cbn. eauto.
      + unfold delete_prop. rewrite lookup_alter_ne.
        * rewrite extend_other by congruence. rewrite lookup_insert_ne by congruence.
          unfold h2. rewrite lookup_insert_eq. eauto.
        * intros ->. unfold h2 in Hold. specialize (Hold lf Hopt).
          rewrite lookup_insert_eq in Hold. destruct Hopt; congruence.
    - cbn [Math_random seed draws clock reads].
      destruct (alloc _ h2) as [li h3] eqn:E3. apply alloc_spec in E3.
      destruct E3 as [F3 ->].
      assert (Hli_o : li <> options).
      { intros ->. rewrite (Hold options Hopt) in F3. destruct Hopt; congruence. }
      assert (Hli_f : li <> lf).
      { intros ->. unfold h2 in F3. rewrite lookup_insert_eq in F3. discriminate. }
      do 3 eexists. split; [reflexivity|]. split; [exact F3|].
      split; [|split; [|split; [|split]]].
      + intros x Hx1 Hx2. apply lookup_insert_ne. congruence.
      + intros k Hk. unfold get, props. rewrite lookup_insert_ne by congruence.
        rewrite (Hold options Hopt). reflexivity.
      + rewrite lookup_insert_ne by congruence. rewrite (Hold options Hopt). exact Hopt.
      + rewrite lookup_insert_ne by congruence. unfold h2. rewrite lookup_insert_eq. eauto.
      + intros _. rewrite lookup_insert_ne by congruence. apply (Hold options Hopt). }
  destruct Hshape as (li & h4 & w4 & -> & F3 & H4_x & H4_o & Hopt4 & Hlf4 & Hkeep).
  destruct (alloc defaults h4) as [la h5] eqn:E5. apply alloc_spec in E5.
  destruct E5 as [F5 ->].
  set (h6 := _extend la (Some (Ref options)) (<[la := defaults]> h4)).
  destruct (generate M la lf h6 w4) as [[g h7] w7] eqn:E7.
  cbn [fst snd attributes].
  assert (Hla_o : la <> options) by (intros ->; destruct Hopt4; congruence).
  assert (Hla_f : la <> lf) by (intros ->; destruct Hlf4; congruence).
  assert (Hla_h : h !! la = None).
  { destruct (h !! la) as [o|] eqn:E; [|reflexivity]. exfalso.
    assert (Hne : la <> li).
    { intros Heq. rewrite Heq in E. rewrite (Hold li) in F3 by eauto. congruence. }
    rewrite H4_x in F5 by assumption. rewrite (Hold la) in F5 by eauto. congruence. }
  assert (H6_la : forall k, get h6 la k
                            = match get h options k with
                              | Some v => if decide (k = "inertia"%string)
                                          then get h4 options k else Some v
                              | None => if decide (k = "inertia"%string)
                                        then (props h4 options ∪ defaults) !! k
                                        else defaults !! k
                              end).
  { intros k. unfold h6, get at 1, props at 1, _extend. rewrite lookup_insert_eq.
    cbn [default own]. unfold props at 2. rewrite lookup_insert_eq. cbn [default].
    unfold props at 1. rewrite lookup_insert_ne by congruence. fold (props h4 options).
    unfold id.
    destruct (decide (k = "inertia"%string)) as [->|Hk].
    - destruct (get h options "inertia"); [|reflexivity].
      unfold get. rewrite lookup_union.
      destruct (props h4 options !! "inertia"%string); reflexivity.
    - rewrite lookup_union. fold (get h4 options k). rewrite (H4_o k Hk).
      destruct (get h options k), (defaults !! k); reflexivity. }
  assert (H7_get : forall x k,
            (x <> la \/
             k ∉ ["life"; "lifeLeft"; "flashAngle"; "flashRotateAngle"; "wieght"; "density";
                  "radius"]%string) ->
            (x <> lf \/ k <> "y"%string) ->
            get h7 x k = get h6 x k).
  { intros x k Ha Hf. pose proof (generate_get M la lf h6 w4 x k Ha Hf) as Hg.
    rewrite E7 in Hg. exact Hg. }
  assert (H7_x : forall x, x <> la -> x <> lf -> h7 !! x = h4 !! x).
  { intros x Hxa Hxf. pose proof (generate_other M la lf h6 w4 x Hxa Hxf) as Hg.
    rewrite E7 in Hg. cbn [fst snd] in Hg. rewrite Hg. unfold h6.
    rewrite extend_other by exact Hxa. apply lookup_insert_ne. congruence. }
  split; [exact Hla_h|]. split; [|split; [|split]].
  - rewrite H7_get;
      [|right; repeat (apply not_elem_of_cons; split; [discriminate|]); apply not_elem_of_nil
       |left; exact Hla_f].
    rewrite H6_la. rewrite decide_False by discriminate.
    destruct (get h options "position"); reflexivity.
  - rewrite H7_get;
      [|right; repeat (apply not_elem_of_cons; split; [discriminate|]); apply not_elem_of_nil
       |left; exact Hla_f].
    rewrite H6_la. rewrite decide_False by discriminate.
    destruct (get h options "color"); reflexivity.
  - intros x Hx Hxo.
    assert (Hxa : x <> la) by (intros ->; destruct Hx; congruence).
    assert (Hxf : x <> lf) by (intros ->; destruct Hx; congruence).
    assert (Hxi : x <> li).
    { intros ->. rewrite (Hold li Hx) in F3. destruct Hx; congruence. }
    rewrite H7_x by assumption. rewrite H4_x by assumption. apply Hold. exact Hx.
  - intros Hfalsy. rewrite H7_x; [apply Hkeep; exact Hfalsy | congruence |].
    intros ->. unfold h2 in Hold. specialize (Hold lf Hopt).
    rewrite lookup_insert_eq in Hold. destruct Hopt; congruence.
Qed.

End MoreStoreFacts.

Lemma reset_shares_position_witness :
  let s := fst (fst (Store.reset Sample.math 1%positive Sample.heap
                       (Sample.world (1 # 2) 1000))) in
  let h' := snd (fst (Store.reset Sample.math 1%positive Sample.heap
                        (Sample.world (1 # 2) 1000))) in
  Store.get h' (Store.attributes s) "position" = Some (Store.Ref 2%positive) /\
  Store.get h' (Store.attributes s) "color" = Some (Store.Str "#fff") /\
  h' !! 2%positive = Sample.heap !! 2%positive.
Proof.
  destruct (reset_shares_position Sample.math 1%positive Sample.heap
              (Sample.world (1 # 2) 1000))
    as (_ & Hpos & Hcol & Hframe & _).
  - apply is_Some_alt. vm_compute. exact I.
  - cbv zeta. split; [etransitivity; [exact Hpos | vm_compute; reflexivity]|].
    split; [etransitivity; [exact Hcol | vm_compute; reflexivity]|].
    apply Hframe; [apply is_Some_alt; vm_compute; exact I | discriminate].
Defined.

(** * The renderer's colours *)

Lemma hex_digit_range (a : Ascii.ascii) (n : Z) :
  Renderer.hex_digit a = Some n -> (0 <= n <= 15)%Z.
Proof.
  unfold Renderer.hex_digit.
  set (c := Z.of_N (N_of_ascii a)).
  destruct ((48 <=? c)%Z && (c <=? 57)%Z) eqn:E1.
  { intros H. injection H as <-. apply andb_prop in E1. lia. }
  destruct ((97 <=? c)%Z && (c <=? 102)%Z) eqn:E2.
  { intros H. injection H as <-. apply andb_prop in E2. lia. }
  destruct ((65 <=? c)%Z && (c <=? 70)%Z) eqn:E3; [|discriminate].
  intros H. injection H as <-. apply andb_prop in E3. lia.
Qed.

Lemma hexToRgb_Some (hex : string) (color : Q * Q * Q) :
  Renderer._hexToRgb hex = Some color ->
  length (digits_of hex) = 6%nat /\
  channel (fst (fst color)) /\ channel (snd (fst color)) /\ channel (snd color).
Proof.
  unfold Renderer._hexToRgb. fold (digits_of hex).
  intros H. split.
  - rewrite <- (length_fmap Renderer.hex_digit).
    destruct (Renderer.hex_digit <$> digits_of hex)
      as [|[?|] [|[?|] [|[?|] [|[?|] [|[?|] [|[?|] [|? ?]]]]]]]; try discriminate H.
    reflexivity.
  - destruct (digits_of hex) as [|a1 [|a2 [|a3 [|a4 [|a5 [|a6 [|a7 l]]]]]]];
      cbn [fmap list_fmap] in H; try discriminate H;
      repeat match type of H with
        | context [Renderer.hex_digit ?a] =>
            let E := fresh "E" in
            destruct (Renderer.hex_digit a) eqn:E; [apply hex_digit_range in E|]
        end; try discriminate H.
    injection H as <-. cbn [fst snd].
    repeat split; eexists; (split; [reflexivity | lia]).
Qed.

(** X23: the colours that the renderer reads.  [_hexToRgb] answers a
    colour only for a string that has, after an optional [#], exactly six
    characters, and the three channels are then whole numbers from 0 to
    255.  It answers [null] for the three-digit ["#fff"]: a speck thrown by
    an emitter whose colour is missing or empty, which [initialize]
    replaces by ["#fff"], makes [_renderSpeck] throw. *)
Theorem hexToRgb_reads_six_digits (hex : string) :
  (forall color : Q * Q * Q,
     Renderer._hexToRgb hex = Some color ->
     length (digits_of hex) = 6%nat /\
     channel (fst (fst color)) /\ channel (snd (fst color)) /\ channel (snd color)) /\
  (length (digits_of hex) <> 6%nat -> Renderer._hexToRgb hex = None) /\
  (forall (colors : list string) (factors : list Q) (froms : list Cloud.From) (i : nat)
          (a : Speck.Attributes),
     colors !! i = None \/ colors !! i = Some ""%string ->
     Speck.color a = Cloud.color (emitter_at colors factors froms i) ->
     Renderer.rgb a = TypeError).
Proof.
  split; [|split].
  - intros color H. apply (hexToRgb_Some hex color H).
  - intros Hlen. destruct (Renderer._hexToRgb hex) as [color|] eqn:E; [|reflexivity].
    destruct (hexToRgb_Some hex color E) as [Hsix _]. contradiction.
  - intros colors factors froms i a Hmissing Hcolor. unfold Renderer.rgb. rewrite Hcolor.
    unfold emitter_at. cbn [Cloud.color].
    destruct Hmissing as [-> | ->]; reflexivity.
Qed.

Lemma Qfloor_unique (q : Q) (z : Z) :
  inject_Z z <= q -> q < inject_Z z + 1 -> Qfloor q = z.
Proof.
  intros Hlo Hhi.
  pose proof (Qfloor_le q) as H1. pose proof (Qlt_floor q) as H2.
  rewrite inject_Z_plus in H2. change (inject_Z 1) with 1 in H2.
  assert (Ha : inject_Z (Qfloor q) < inject_Z z + 1) by lra.
  assert (Hb : inject_Z z < inject_Z (Qfloor q) + 1) by lra.
  change 1 with (inject_Z 1) in Ha, Hb. rewrite <- inject_Z_plus in Ha, Hb.
  rewrite <- Zlt_Qlt in Ha, Hb. lia.
Qed.

Lemma Math_round_whole (q : Q) (z : Z) : q == inject_Z z -> Renderer.Math_round q = inject_Z z.
Proof.
  intros Hq. unfold Renderer.Math_round. f_equal.
  apply Qfloor_unique; rewrite Hq; lra.
Qed.

Lemma Math_round_mono (p q : Q) : p <= q -> Renderer.Math_round p <= Renderer.Math_round q.
Proof.
  intros H. unfold Renderer.Math_round. rewrite <- Zle_Qle.
  apply Qfloor_resp_le. lra.
Qed.

Lemma Qmax_inject_Z (a b : Z) : Qmax (inject_Z a) (inject_Z b) = inject_Z (Z.max a b).
Proof.
  unfold Qmax, GenericMinMax.gmax, Qcompare. cbn [Qnum Qden inject_Z].
  rewrite !Z.mul_1_r. unfold Z.max. destruct (a ?= b)%Z; reflexivity.
Qed.

Lemma Qmin_inject_Z (a b : Z) : Qmin (inject_Z a) (inject_Z b) = inject_Z (Z.min a b).
Proof.
  unfold Qmin, GenericMinMax.gmin, Qcompare. cbn [Qnum Qden inject_Z].
  rewrite !Z.mul_1_r. unfold Z.min. destruct (a ?= b)%Z; reflexivity.
Qed.

Lemma Qeq_bool_inject_Z (a b : Z) : Qeq_bool (inject_Z a) (inject_Z b) = (a =? b)%Z.
Proof.
  destruct (Z.eqb_spec a b) as [->|Hne].
  - apply Qeq_bool_iff. reflexivity.
  - destruct (Qeq_bool (inject_Z a) (inject_Z b)) eqn:E; [|reflexivity].
    apply Qeq_bool_iff in E. rewrite inject_Z_injective in E. contradiction.
Qed.

Lemma sector (h s v : Q) (i : Z) :
  ~ s == 0 ->
  inject_Z i <= h / 60 -> h / 60 < inject_Z i + 1 ->
  Renderer._HSVtoRGB {| Renderer.hue := Some h; Renderer.saturation := Some s;
                        Renderer.value := Some v |}
  = let f := h / 60 - inject_Z i in
    let p := v * (1 - s) in
    let q := v * (1 - s * f) in
    let t := v * (1 - s * (1 - f)) in
    let '(r, g, b) :=
      match i with
      | 0%Z => (v, t, p)
      | 1%Z => (q, v, p)
      | 2%Z => (p, v, t)
      | 3%Z => (p, q, v)
      | 4%Z => (t, p, v)
      | _ => (v, p, q)
      end in
    (Some (Renderer.Math_round r), Some (Renderer.Math_round g),
     Some (Renderer.Math_round b)).
Proof.
  intros Hs Hlo Hhi. unfold Renderer._HSVtoRGB.
  cbn [Renderer.saturation Renderer.value Renderer.hue fmap option_fmap option_map].
  assert (E : Qeq_bool s 0 = false).
  { destruct (Qeq_bool s 0) eqn:E; [|reflexivity]. apply Qeq_bool_iff in E. contradiction. }
  rewrite E. rewrite (Qfloor_unique (h / 60) i Hlo Hhi).
  cbn [Renderer.number].
  destruct i as [|n|n]; [reflexivity| |reflexivity].
  do 3 (try (destruct n as [n|n|]; try reflexivity)).
Qed.

Lemma rounded (x y z : Q) (r g b : Z) :
  x == inject_Z r -> y == inject_Z g -> z == inject_Z b ->
  (Some (Renderer.Math_round x), Some (Renderer.Math_round y), Some (Renderer.Math_round z))
  = (Some (inject_Z r), Some (inject_Z g), Some (inject_Z b)).
Proof.
  intros Hx Hy Hz.
  rewrite (Math_round_whole x r Hx), (Math_round_whole y g Hy), (Math_round_whole z b Hz).
  reflexivity.
Qed.

Ltac whole R G B :=
  apply rounded; fold R G B;
  first [reflexivity | field; repeat split; intros ?; lra].

Lemma quotient_bounds (n d lo hi : Q) :
  0 < d -> lo * d <= n -> n < hi * d -> lo <= n / d /\ n / d < hi.
Proof.
  intros Hd Hlo Hhi. split; [apply Qle_shift_div_l | apply Qlt_shift_div_r]; assumption.
Qed.

Lemma round_trip_coloured (r g b : Z) :
  (0 <= r)%Z -> (0 <= g)%Z -> (0 <= b)%Z ->
  (Z.min (Z.min r g) b < Z.max (Z.max r g) b)%Z ->
  Renderer._HSVtoRGB (Renderer._RGBtoHSV (inject_Z r, inject_Z g, inject_Z b))
  = (Some (inject_Z r), Some (inject_Z g), Some (inject_Z b)).
Proof.
  intros Hr Hg Hb Hdelta. unfold Renderer._RGBtoHSV.
  rewrite !Qmax_inject_Z, !Qmin_inject_Z.
  set (M := Z.max (Z.max r g) b) in *. set (m := Z.min (Z.min r g) b) in *.
  assert (HM : (r <= M /\ g <= M /\ b <= M)%Z) by (unfold M; lia).
  assert (Hm : (m <= r /\ m <= g /\ m <= b)%Z) by (unfold m; lia).
  assert (Hmax : (r = M \/ g = M \/ b = M)%Z) by (unfold M; lia).
  assert (Hmin : (r = m \/ g = m \/ b = m)%Z) by (unfold m; lia).
  clearbody M m.
  change 0 with (inject_Z 0). rewrite <- inject_Z_sub. rewrite !Qeq_bool_inject_Z.
  change (inject_Z 0) with 0.
  destruct (Z.eqb_spec M 0) as [E|_]; [lia|].
  destruct (Z.eqb_spec (M - m) 0) as [E|_]; [lia|].
  rewrite inject_Z_sub.
  assert (Hs : ~ (inject_Z M - inject_Z m) / inject_Z M == 0).
  { assert (QM : 0 < inject_Z M) by (change 0 with (inject_Z 0); rewrite <- Zlt_Qlt; lia).
    assert (Qd : inject_Z m < inject_Z M) by (rewrite <- Zlt_Qlt; lia).
    intros E. assert (E' : inject_Z M - inject_Z m == 0 * inject_Z M).
    { rewrite <- E. field. lra. }
    lra. }
  assert (Q0 : 0 <= inject_Z r /\ 0 <= inject_Z g /\ 0 <= inject_Z b).
  { change 0 with (inject_Z 0). rewrite <- !Zle_Qle. lia. }
  destruct Q0 as (Qr & Qg & Qb).
  destruct (Z.eqb_spec r M) as [Er|Er]; [|destruct (Z.eqb_spec g M) as [Eg|Eg]].
  - (* red is the largest *)
    subst M. cbn [fmap option_fmap option_map].
    destruct (Z_lt_le_dec g b) as [Hgb|Hgb].
    + (* g < b *)
      assert (m = g) by lia. subst m.
      assert (Qgb : inject_Z g < inject_Z b) by (rewrite <- Zlt_Qlt; lia).
      assert (Qbr : inject_Z b <= inject_Z r) by (rewrite <- Zle_Qle; lia).
      set (R := inject_Z r) in *. set (G := inject_Z g) in *. set (B := inject_Z b) in *.
      destruct (quotient_bounds (G - B) (R - G) (-1) 0) as [Hlo Hhi]; [lra | lra | lra |].
      assert (E : ((G - B) / (R - G) * 60 <? 0) = true) by (apply Qltb_lt; lra).
      rewrite E.
      assert (Hh : ((G - B) / (R - G) * 60 + 360) / 60 == 6 + (G - B) / (R - G))
        by (field; lra).
      rewrite (sector _ _ _ 5); [|exact Hs| |]; change (inject_Z 5) with 5;
        [cbv zeta; whole R G B | rewrite Hh; lra | rewrite Hh; lra].
    + assert (m = b) by lia. subst m.
      assert (Qgb : inject_Z b <= inject_Z g) by (rewrite <- Zle_Qle; lia).
      assert (Qbr : inject_Z b < inject_Z r) by (rewrite <- Zlt_Qlt; lia).
      assert (Qgr : inject_Z g <= inject_Z r) by (rewrite <- Zle_Qle; lia).
      destruct (Z.eq_dec g r) as [Egr|Egr].
      * (* g = r *)
        subst g.
        set (R := inject_Z r) in *. set (B := inject_Z b) in *.
        assert (Hx : (R - B) / (R - B) == 1) by (field; lra).
        assert (E : ((R - B) / (R - B) * 60 <? 0) = false) by (apply Qltb_ge; rewrite Hx; lra).
        rewrite E.
        assert (Hh : (R - B) / (R - B) * 60 / 60 == 1) by (field; lra).
        rewrite (sector _ _ _ 1); [|exact Hs| |]; change (inject_Z 1) with 1;
          [cbv zeta; whole R R B | rewrite Hh; lra | rewrite Hh; lra].
      * assert (Qgr' : inject_Z g < inject_Z r) by (rewrite <- Zlt_Qlt; lia).
        set (R := inject_Z r) in *. set (G := inject_Z g) in *. set (B := inject_Z b) in *.
        destruct (quotient_bounds (G - B) (R - B) 0 1) as [Hlo Hhi]; [lra | lra | lra |].
        assert (E : ((G - B) / (R - B) * 60 <? 0) = false) by (apply Qltb_ge; lra).
        rewrite E.
        assert (Hh : (G - B) / (R - B) * 60 / 60 == (G - B) / (R - B)) by (field; lra).
        rewrite (sector _ _ _ 0); [|exact Hs| |]; change (inject_Z 0) with 0;
          [cbv zeta; whole R G B | rewrite Hh; lra | rewrite Hh; lra].
  - (* green is the largest, red is not *)
    subst M. cbn [fmap option_fmap option_map].
    assert (Qrg : inject_Z r < inject_Z g) by (rewrite <- Zlt_Qlt; lia).
    assert (Qbg : inject_Z b <= inject_Z g) by (rewrite <- Zle_Qle; lia).
    destruct (Z_lt_le_dec b r) as [Hbr|Hbr].
    + (* b < r *)
      assert (m = b) by lia. subst m.
      assert (Qbr : inject_Z b < inject_Z r) by (rewrite <- Zlt_Qlt; lia).
      set (R := inject_Z r) in *. set (G := inject_Z g) in *. set (B := inject_Z b) in *.
      destruct (quotient_bounds (B - R) (G - B) (-1) 0) as [Hlo Hhi]; [lra | lra | lra |].
      assert (E : ((2 + (B - R) / (G - B)) * 60 <? 0) = false) by (apply Qltb_ge; lra).
      rewrite E.
      assert (Hh : (2 + (B - R) / (G - B)) * 60 / 60 == 2 + (B - R) / (G - B))
        by (field; lra).
      rewrite (sector _ _ _ 1); [|exact Hs| |]; change (inject_Z 1) with 1;
        [cbv zeta; whole R G B | rewrite Hh; lra | rewrite Hh; lra].
    + assert (m = r) by lia. subst m.
      assert (Qbr : inject_Z r <= inject_Z b) by (rewrite <- Zle_Qle; lia).
      destruct (Z.eq_dec b g) as [Ebg|Ebg].
      * subst b.
        set (R := inject_Z r) in *. set (G := inject_Z g) in *.
        assert (Hx : (G - R) / (G - R) == 1) by (field; lra).
        assert (E : ((2 + (G - R) / (G - R)) * 60 <? 0) = false)
          by (apply Qltb_ge; rewrite Hx; lra).
        rewrite E.
        assert (Hh : (2 + (G - R) / (G - R)) * 60 / 60 == 3) by (field; lra).
        rewrite (sector _ _ _ 3); [|exact Hs| |]; change (inject_Z 3) with 3;
          [cbv zeta; whole R G G | rewrite Hh; lra | rewrite Hh; lra].
      * assert (Qbg' : inject_Z b < inject_Z g) by (rewrite <- Zlt_Qlt; lia).
        set (R := inject_Z r) in *. set (G := inject_Z g) in *. set (B := inject_Z b) in *.
        destruct (quotient_bounds (B - R) (G - R) 0 1) as [Hlo Hhi]; [lra | lra | lra |].
        assert (E : ((2 + (B - R) / (G - R)) * 60 <? 0) = false) by (apply Qltb_ge; lra).
        rewrite E.
        assert (Hh : (2 + (B - R) / (G - R)) * 60 / 60 == 2 + (B - R) / (G - R))
          by (field; lra).
        rewrite (sector _ _ _ 2); [|exact Hs| |]; change (inject_Z 2) with 2;
          [cbv zeta; whole R G B | rewrite Hh; lra | rewrite Hh; lra].
  - (* blue is the largest, red and green are not *)
    assert (b = M) by lia. subst M. cbn [fmap option_fmap option_map].
    assert (Qrb : inject_Z r < inject_Z b) by (rewrite <- Zlt_Qlt; lia).
    assert (Qgb : inject_Z g < inject_Z b) by (rewrite <- Zlt_Qlt; lia).
    destruct (Z_lt_le_dec r g) as [Hrg|Hrg].
    + assert (m = r) by lia. subst m.
      assert (Qrg : inject_Z r < inject_Z g) by (rewrite <- Zlt_Qlt; lia).
      set (R := inject_Z r) in *. set (G := inject_Z g) in *. set (B := inject_Z b) in *.
      destruct (quotient_bounds (R - G) (B - R) (-1) 0) as [Hlo Hhi]; [lra | lra | lra |].
      assert (E : ((4 + (R - G) / (B - R)) * 60 <? 0) = false) by (apply Qltb_ge; lra).
      rewrite E.
      assert (Hh : (4 + (R - G) / (B - R)) * 60 / 60 == 4 + (R - G) / (B - R))
        by (field; lra).
      rewrite (sector _ _ _ 3); [|exact Hs| |]; change (inject_Z 3) with 3;
        [cbv zeta; whole R G B | rewrite Hh; lra | rewrite Hh; lra].
    + assert (m = g) by lia. subst m.
      assert (Qrg : inject_Z g <= inject_Z r) by (rewrite <- Zle_Qle; lia).
      set (R := inject_Z r) in *. set (G := inject_Z g) in *. set (B := inject_Z b) in *.
      destruct (quotient_bounds (R - G) (B - G) 0 1) as [Hlo Hhi]; [lra | lra | lra |].
      assert (E : ((4 + (R - G) / (B - G)) * 60 <? 0) = false) by (apply Qltb_ge; lra).
      rewrite E.
      assert (Hh : (4 + (R - G) / (B - G)) * 60 / 60 == 4 + (R - G) / (B - G))
        by (field; lra).
      rewrite (sector _ _ _ 4); [|exact Hs| |]; change (inject_Z 4) with 4;
        [cbv zeta; whole R G B | rewrite Hh; lra | rewrite Hh; lra].
Qed.

Lemma round_trip_grey (n : Z) :
  (0 < n)%Z ->
  Renderer._HSVtoRGB (Renderer._RGBtoHSV (inject_Z n, inject_Z n, inject_Z n))
  = (Some (inject_Z n), Some (inject_Z n), Some (inject_Z n)).
Proof.
  intros Hn. unfold Renderer._RGBtoHSV.
  rewrite !Qmax_inject_Z, !Qmin_inject_Z, !Z.max_id, !Z.min_id.
  change 0 with (inject_Z 0). rewrite Qeq_bool_inject_Z.
  destruct (Z.eqb_spec n 0) as [E|_]; [lia|].
  unfold Renderer._HSVtoRGB. cbn [Renderer.saturation Renderer.value].
  assert (E : Qeq_bool ((inject_Z n - inject_Z n) / inject_Z n) (inject_Z 0) = true).
  { apply Qeq_bool_iff. change (inject_Z 0) with 0. field.
    change 0 with (inject_Z 0). rewrite inject_Z_injective. lia. }
  change (inject_Z 0) with 0 in E. rewrite E. reflexivity.
Qed.

(** X24: the two conversions of the renderer are inverse to each other on
    every colour but black.  For whole channels that are not negative and
    not all zero, [_HSVtoRGB] gives back the colour that [_RGBtoHSV] was
    given, greys included.  Black does not come back: its value is
    [undefined], and so are the three channels. *)
Theorem RGB_HSV_round_trip (r g b : Z) :
  (0 <= r)%Z -> (0 <= g)%Z -> (0 <= b)%Z -> (0 < r + g + b)%Z ->
  Renderer._HSVtoRGB (Renderer._RGBtoHSV (inject_Z r, inject_Z g, inject_Z b))
  = (Some (inject_Z r), Some (inject_Z g), Some (inject_Z b)) /\
  Renderer._HSVtoRGB (Renderer._RGBtoHSV (0, 0, 0)) = (None, None, None).
Proof.
  intros Hr Hg Hb Hsum. split; [|reflexivity].
  destruct (Z_lt_le_dec (Z.min (Z.min r g) b) (Z.max (Z.max r g) b)) as [Hlt|Hge].
  - apply round_trip_coloured; assumption.
  - assert (g = r) by lia. assert (b = r) by lia. subst g b.
    apply round_trip_grey. lia.
Qed.

Lemma RGB_HSV_round_trip_witness :
  Renderer._hexToRgb "#b725a3" = Some (inject_Z 183, inject_Z 37, inject_Z 163) /\
  Renderer._HSVtoRGB (Renderer._RGBtoHSV (inject_Z 183, inject_Z 37, inject_Z 163))
  = (Some (inject_Z 183), Some (inject_Z 37), Some (inject_Z 163)).
Proof.
  split; [reflexivity|].
  apply (RGB_HSV_round_trip 183 37 163); lia.
Defined.

Lemma HSVtoRGB_bounds (h s v : Q) (n : Z) :
  v = inject_Z n -> (0 <= n)%Z -> 0 <= s -> s <= 1 ->
  exists r g b,
    Renderer._HSVtoRGB {| Renderer.hue := Some h; Renderer.saturation := Some s;
                          Renderer.value := Some v |}
    = (Some r, Some g, Some b) /\
    (r = v \/ g = v \/ b = v) /\
    Renderer.Math_round (v * (1 - s)) <= r /\ r <= v /\
    Renderer.Math_round (v * (1 - s)) <= g /\ g <= v /\
    Renderer.Math_round (v * (1 - s)) <= b /\ b <= v.
Proof.
  intros Hv Hn Hs0 Hs1.
  assert (Qv : 0 <= v) by (rewrite Hv; change 0 with (inject_Z 0); rewrite <- Zle_Qle; lia).
  assert (Hround : Renderer.Math_round v = v).
  { rewrite Hv. apply Math_round_whole. reflexivity. }
  assert (Hlow : Renderer.Math_round (v * (1 - s)) <= v).
  { rewrite <- Hround at 2. apply Math_round_mono. nra. }
  destruct (Qeq_bool s 0) eqn:Es.
  - exists v, v, v. unfold Renderer._HSVtoRGB. cbn [Renderer.saturation Renderer.value].
    rewrite Es. split; [reflexivity|]. split; [left; reflexivity|].
    repeat split; first [exact Hlow | apply Qle_refl].
  - assert (Hs : ~ s == 0).
    { intros E. apply Qeq_bool_iff in E. congruence. }
    pose proof (Qfloor_le (h / 60)) as Hlo. pose proof (Qlt_floor (h / 60)) as Hhi.
    rewrite inject_Z_plus in Hhi. change (inject_Z 1) with 1 in Hhi.
    rewrite (sector h s v (Qfloor (h / 60)) Hs Hlo Hhi). cbv zeta.
    set (f := h / 60 - inject_Z (Qfloor (h / 60))).
    assert (Hf0 : 0 <= f) by (unfold f; lra).
    assert (Hf1 : f < 1) by (unfold f; lra).
    assert (Hsf : 0 <= s * f) by (apply Qmult_le_0_compat; assumption).
    assert (Hsf1 : s * f <= s) by nra.
    assert (Hsg : 0 <= s * (1 - f)) by (apply Qmult_le_0_compat; lra).
    assert (Hsg1 : s * (1 - f) <= s) by nra.
    assert (Hp : Renderer.Math_round (v * (1 - s)) <= Renderer.Math_round (v * (1 - s)))
      by apply Qle_refl.
    assert (Hq0 : Renderer.Math_round (v * (1 - s)) <= Renderer.Math_round (v * (1 - s * f)))
      by (apply Math_round_mono; nra).
    assert (Hq1 : Renderer.Math_round (v * (1 - s * f)) <= v)
      by (rewrite <- Hround at 2; apply Math_round_mono; nra).
    assert (Ht0 : Renderer.Math_round (v * (1 - s)) <=
                  Renderer.Math_round (v * (1 - s * (1 - f))))
      by (apply Math_round_mono; nra).
    assert (Ht1 : Renderer.Math_round (v * (1 - s * (1 - f))) <= v)
      by (rewrite <- Hround at 2; apply Math_round_mono; nra).
    assert (Hvv : v <= v) by apply Qle_refl.
    destruct (Qfloor (h / 60)) as [|i|i];
      [| do 3 (try (destruct i as [i|i|])) |];
      (do 3 eexists; split; [reflexivity|]); rewrite !Hround;
      (split; [auto|]); repeat split; assumption.
Qed.

(** X25: the saturation keeps the brightness.  For a speck whose colour
    is read as a colour that is not a grey, and whose saturation is
    between 0 and 1 (a magnitude of at most [maxColorMagnitude]),
    [_renderSpeck] computes three channels that are numbers, none negative,
    the largest of which is the largest channel of the speck's colour; with
    the saturation 0 all three are that channel, a grey. *)
Theorem rgb_keeps_value (a : Speck.Attributes) (r g b s : Q) :
  Renderer._hexToRgb (Speck.color a) = Some (r, g, b) ->
  ~ (r == g /\ g == b) ->
  Speck.colorSaturation a = Some s ->
  0 <= s -> s <= 1 ->
  exists r' g' b',
    Renderer.rgb a = Done (Some r', Some g', Some b') /\
    Qmax (Qmax r' g') b' == Qmax (Qmax r g) b /\
    0 <= r' /\ 0 <= g' /\ 0 <= b' /\
    (s == 0 -> r' = Qmax (Qmax r g) b /\ g' = r' /\ b' = r').
Proof.
  intros Hhex Hgrey Hsat Hs0 Hs1.
  destruct (hexToRgb_Some _ _ Hhex)
    as (_ & (nr & Hr & Hnr) & (ng & Hg & Hng) & (nb & Hb & Hnb)).
  cbn [fst snd] in Hr, Hg, Hb. subst r g b.
  unfold Renderer.rgb. rewrite Hhex, Hsat. unfold Renderer._RGBtoHSV.
  rewrite !Qmax_inject_Z, !Qmin_inject_Z.
  set (M := Z.max (Z.max nr ng) nb) in *. set (m := Z.min (Z.min nr ng) nb) in *.
  assert (Hdelta : (m < M)%Z).
  { destruct (Z_lt_le_dec m M) as [H|H]; [exact H|]. exfalso. apply Hgrey.
    rewrite !inject_Z_injective. unfold M, m in H. lia. }
  assert (HM : (0 < M)%Z) by (unfold M, m in *; lia).
  assert (Eb : Qeq_bool (inject_Z M) 0 = false).
  { change 0 with (inject_Z 0). rewrite Qeq_bool_inject_Z.
    destruct (Z.eqb_spec M 0); [lia | reflexivity]. }
  rewrite !Eb.
  assert (Hhue : exists h,
            (fun h => if h <? 0 then h + 360 else h) <$>
              ((fun h => h * 60) <$>
                 (if Qeq_bool (inject_Z nr) (inject_Z M)
                  then if Qeq_bool (inject_Z M - inject_Z m) 0 then None
                       else Some ((inject_Z ng - inject_Z nb) / (inject_Z M - inject_Z m))
                  else if Qeq_bool (inject_Z ng) (inject_Z M)
                       then Some (2 + (inject_Z nb - inject_Z nr) / (inject_Z M - inject_Z m))
                       else Some (4 + (inject_Z nr - inject_Z ng)
                                      / (inject_Z M - inject_Z m))))
            = Some h).
  { assert (E : Qeq_bool (inject_Z M - inject_Z m) 0 = false).
    { rewrite <- inject_Z_sub. change 0 with (inject_Z 0). rewrite Qeq_bool_inject_Z.
      destruct (Z.eqb_spec (M - m) 0); [lia | reflexivity]. }
    rewrite E.
    destruct (Qeq_bool (inject_Z nr) (inject_Z M));
      [|destruct (Qeq_bool (inject_Z ng) (inject_Z M))];
      cbn [fmap option_fmap option_map]; eauto. }
  destruct Hhue as [h ->]. cbn [Renderer.hue Renderer.value].
  destruct (HSVtoRGB_bounds h s (inject_Z M) M eq_refl ltac:(lia) Hs0 Hs1)
    as (r' & g' & b' & Hrun & Hone & Hr0 & Hr1 & Hg0 & Hg1 & Hb0 & Hb1).
  rewrite Hrun. exists r', g', b'. split; [reflexivity|].
  assert (Hlow : 0 <= Renderer.Math_round (inject_Z M * (1 - s))).
  { unfold Renderer.Math_round. change 0 with (inject_Z 0). rewrite <- Zle_Qle.
    change 0%Z with (Qfloor (inject_Z 0)). apply Qfloor_resp_le.
    assert (0 < inject_Z M) by (change 0 with (inject_Z 0); rewrite <- Zlt_Qlt; lia).
    change (inject_Z 0) with 0. nra. }
  split.
  { destruct Hone as [E|[E|E]]; subst.
    - rewrite (Q.max_l _ g') by exact Hg1. apply Q.max_l. exact Hb1.
    - rewrite (Q.max_r r') by exact Hr1. apply Q.max_l. exact Hb1.
    - apply Q.max_r. apply Q.max_lub; assumption. }
  split; [lra|]. split; [lra|]. split; [lra|].
  intros Hzero. unfold Renderer._HSVtoRGB in Hrun. cbn [Renderer.saturation] in Hrun.
  assert (E : Qeq_bool s 0 = true) by (apply Qeq_bool_iff; exact Hzero).
  rewrite E in Hrun. cbn [Renderer.value] in Hrun. injection Hrun as <- <- <-.
  repeat split; reflexivity.
Qed.

Lemma rgb_keeps_value_witness :
  let a := Speck.attributes (Sample.data (Speck.color_ 80 Sample.speck)) in
  exists r' g' b',
    Renderer.rgb a = Done (Some r', Some g', Some b') /\
    Qmax (Qmax r' g') b' == 167.
Proof.
  destruct (rgb_keeps_value (Speck.attributes (Sample.data (Speck.color_ 80 Sample.speck)))
              (inject_Z 167) (inject_Z 69) (inject_Z 153) (80 / 160))
    as (r' & g' & b' & Hrun & Hmax & _).
  - vm_compute. reflexivity.
  - intros [E _]. vm_compute in E. discriminate E.
  - reflexivity.
  - vm_compute. discriminate.
  - vm_compute. discriminate.
  - exists r', g', b'. split; [exact Hrun|]. rewrite Hmax. vm_compute. reflexivity.
Defined.

(** * [_extend] *)

Section ExtendFacts.
Import Store.

(** X26: [_extend] is a shallow copy that overrides.  After
    [_extend(to, from)] for two objects, a property of [to] has the value
    that [from] has for it, the very same reference when that is an
    object, and the value it had in [to] when [from] does not have it; no
    other object changes, [from] included when it is not [to]; a second
    call with the same [from] changes nothing more; and a Number or a
    missing [from] adds no property. *)
Theorem extend_overrides (to from : loc) (h : heap) :
  (forall k : string,
     get (_extend to (Some (Ref from)) h) to k
     = match get h from k with
       | Some v => Some v
       | None => get h to k
       end) /\
  (forall x : loc, x <> to -> _extend to (Some (Ref from)) h !! x = h !! x) /\
  (from <> to ->
   _extend to (Some (Ref from)) (_extend to (Some (Ref from)) h)
   = _extend to (Some (Ref from)) h) /\
  (forall (q : Q) (k : string),
     get (_extend to (Some (Num q)) h) to k = get h to k /\
     get (_extend to None h) to k = get h to k).
Proof.
  assert (Hget : forall k : string,
            get (_extend to (Some (Ref from)) h) to k
            = match get h from k with
              | Some v => Some v
              | None => get h to k
              end).
  { intros k. unfold get at 1, props at 1, _extend. rewrite lookup_insert_eq.
    match goal with
    | |- context [default ∅ (Some ?m)] => change (default ∅ (Some m)) with m
    end.
    cbn [own]. rewrite lookup_union. unfold get.
    destruct (props h from !! k), (props h to !! k); reflexivity. }
  split; [exact Hget|]. split; [|split].
  - intros x Hx. apply extend_other. exact Hx.
  - intros Hne. unfold _extend at 1. cbn [own].
    assert (Hfrom : props (_extend to (Some (Ref from)) h) from = props h from).
    { unfold props. rewrite extend_other by exact Hne. reflexivity. }
    assert (Hto : props (_extend to (Some (Ref from)) h) to = props h from ∪ props h to).
    { unfold props at 1, _extend. rewrite lookup_insert_eq. reflexivity. }
    rewrite Hfrom, Hto. unfold _extend. cbn [own].
    rewrite insert_insert_eq. f_equal.
    rewrite (assoc_L (∪)). rewrite (idemp_L (∪)). reflexivity.
  - intros q k. unfold get, props, _extend. rewrite !lookup_insert_eq.
    cbn [own]. rewrite (left_id_L ∅ (∪)). split; reflexivity.
Qed.

End ExtendFacts.

(** * The saturation at the end of a frame *)
















